(** * A memory usage reporter (assignment2.py), embedded in Rocq

    The Python program reads [/proc/meminfo], the output of [pidof] and
    [/proc/<pid>/smaps], and prints one bar-graph line per subject.  This
    file gives a shallow embedding of its functions and proves properties
    of them.

    Conventions of the embedding:
    - a Python [int] is a [Z]; a Python [str] is a [string] (characters are
      bytes: the text sources of the program are ASCII);
    - a Python [float] is an IEEE 754 binary64 number, modelled by its exact
      rational value ([pyfloat]); every arithmetic operation computes the
      exact result and rounds it to the nearest double, ties to even.  The
      operations are proved equal to those of the Standard Library's
      [SpecFloat] at binary64;
    - a call that may raise returns a [result]; [None] is [option]'s [None];
    - the operating system is an [env]: the files that can be opened and the
      standard output of the commands given to [os.popen];
    - printing goes through the [io] monad, which threads the lines printed
      so far. *)

From Stdlib Require Import ZArith QArith Qround Qabs Qpower Qreduction.
From Stdlib Require Import Lia Lqa Bool List Ascii String DecimalString Morphisms.
From Stdlib Require Import SpecFloat.
Import ListNotations.

Open Scope Z_scope.

(** ** Exceptions and results *)

Inductive exn : Type :=
| TypeError
| ValueError
| IndexError
| ZeroDivisionError
| OverflowError
| OSError
| SystemExit (code : Z).

(** [OutOfFuel] is not a Python outcome: it is what a [while] loop of the
    embedding answers when its fuel is spent before the loop condition
    turns false. *)
Inductive result (A : Type) : Type :=
| Ok (a : A)
| Raise (e : exn)
| OutOfFuel.

Arguments Ok {A} a.
Arguments Raise {A} e.
Arguments OutOfFuel {A}.

Definition bind {A B : Type} (r : result A) (k : A -> result B) : result B :=
  match r with
  | Ok a => k a
  | Raise e => Raise e
  | OutOfFuel => OutOfFuel
  end.

Notation "x <- r ;; k" := (bind r (fun x => k))
  (at level 61, r at next level, right associativity).

(** ** Python floats: IEEE 754 binary64 with exact rational values *)

Inductive pyfloat : Type :=
| FFin (q : Q)       (* a finite double of value q; [FFin 0] is +0.0 *)
| FNegZero           (* -0.0 *)
| FInf (neg : bool)  (* inf and -inf *)
| FNaN.

(** Round half to even, to an integer: Python's [round(x)] on the exact
    value, and the rounding of a significand. *)
Definition round_half_even (x : Q) : Z :=
  let f := Qfloor x in
  match Qcompare (x - inject_Z f) (1 # 2) with
  | Lt => f
  | Gt => f + 1
  | Eq => if Z.even f then f else f + 1
  end.

Definition pow2 (e : Z) : Q := (2 ^ e)%Q.

(** [qlog2 a] is the binary exponent of a positive rational:
    [2^(qlog2 a) <= a < 2^(qlog2 a + 1)]. *)
Definition qlog2 (a : Q) : Z :=
  let e0 := Z.log2 (Qnum a) - Z.log2 (Zpos (Qden a)) in
  if Qle_bool (pow2 e0) a then e0 else e0 - 1.

(** The exponent of the unit in the last place of the double nearest to [a]:
    53 bits of precision, and the subnormal range below [2^-1022]. *)
Definition ulp_exp (a : Q) : Z := Z.max (qlog2 a) (-1022) - 52.

(** A positive rational rounded to 53 significant bits, ties to even. *)
Definition round_mag (a : Q) : Q :=
  (inject_Z (round_half_even (a / pow2 (ulp_exp a))) * pow2 (ulp_exp a))%Q.

Definition signed_zero (neg : bool) : pyfloat :=
  if neg then FNegZero else FFin 0.

(** The double nearest to the rational [q]: overflow gives an infinity,
    underflow a zero of the sign of [q]. *)
Definition binary64_round (q : Q) : pyfloat :=
  match Qcompare q 0 with
  | Eq => FFin 0
  | Gt =>
      let r := round_mag q in
      if Qle_bool (pow2 1024) r then FInf false else FFin (Qred r)
  | Lt =>
      let r := round_mag (- q) in
      if Qle_bool (pow2 1024) r then FInf true
      else if Qeq_bool r 0 then FNegZero
      else FFin (Qred (- r))
  end.

Definition Qneg_bool (q : Q) : bool := negb (Qle_bool 0 q).

Definition fsign (x : pyfloat) : bool :=
  match x with
  | FFin q => Qneg_bool q
  | FNegZero => true
  | FInf s => s
  | FNaN => false
  end.

Definition fis_zero (x : pyfloat) : bool :=
  match x with
  | FFin q => Qeq_bool q 0
  | FNegZero => true
  | _ => false
  end.

(** The value of a finite double. *)
Definition fvalue (x : pyfloat) : Q :=
  match x with
  | FFin q => q
  | _ => 0%Q
  end.

Definition fis_finite (x : pyfloat) : bool :=
  match x with
  | FFin _ | FNegZero => true
  | _ => false
  end.

(** [float(n)] for an int, as every mixed int/float operation applies it. *)
Definition float_of_int (n : Z) : result pyfloat :=
  match binary64_round (inject_Z n) with
  | FInf _ => Raise OverflowError
  | f => Ok f
  end.

(** [x * y] on floats. *)
Definition fmul (x y : pyfloat) : pyfloat :=
  match x, y with
  | FNaN, _ | _, FNaN => FNaN
  | FInf s, o | o, FInf s =>
      if fis_zero o then FNaN else FInf (xorb s (fsign o))
  | _, _ =>
      let p := (fvalue x * fvalue y)%Q in
      if Qeq_bool p 0 then signed_zero (xorb (fsign x) (fsign y))
      else binary64_round p
  end.

(** [x / y] on floats. *)
Definition fdiv (x y : pyfloat) : result pyfloat :=
  if fis_zero y then Raise ZeroDivisionError
  else
    match x, y with
    | FNaN, _ | _, FNaN => Ok FNaN
    | FInf _, FInf _ => Ok FNaN
    | FInf s, o => Ok (FInf (xorb s (fsign o)))
    | o, FInf s => Ok (signed_zero (xorb (fsign o) s))
    | _, _ =>
        if fis_zero x then Ok (signed_zero (xorb (fsign x) (fsign y)))
        else Ok (binary64_round (fvalue x / fvalue y))
    end.

(** [a / b] on ints (true division): the correctly rounded quotient. *)
Definition int_truediv (a b : Z) : result pyfloat :=
  if b =? 0 then Raise ZeroDivisionError
  else if a =? 0 then Ok (signed_zero (b <? 0))
  else
    match binary64_round (inject_Z a / inject_Z b) with
    | FInf _ => Raise OverflowError
    | f => Ok f
    end.

(** [x * n] for a float [x] and an int [n]. *)
Definition fmul_int (x : pyfloat) (n : Z) : result pyfloat :=
  y <- float_of_int n ;;
  Ok (fmul x y).

(** [round(x)] with one argument: an int. *)
Definition py_round (x : pyfloat) : result Z :=
  match x with
  | FFin q => Ok (round_half_even q)
  | FNegZero => Ok 0
  | FInf _ => Raise OverflowError
  | FNaN => Raise ValueError
  end.

(** [x >= n] for a float [x] and an int [n]: Python compares exactly. *)
Definition float_ge_int (x : pyfloat) (n : Z) : bool :=
  match x with
  | FFin q => Qle_bool (inject_Z n) q
  | FNegZero => n <=? 0
  | FInf s => negb s
  | FNaN => false
  end.

(** ** Python strings *)

Open Scope string_scope.
Open Scope Z_scope.

(** [str.isspace] on the ASCII range: tab to carriage return, the four
    separator controls, and the space. *)
Definition is_space (c : ascii) : bool :=
  let n := Z.of_N (N_of_ascii c) in
  ((9 <=? n) && (n <=? 13)) || ((28 <=? n) && (n <=? 32)).

(** [s.startswith(p)] *)
Definition startswith (s p : string) : bool := String.prefix p s.

Definition is_empty (s : string) : bool :=
  match s with
  | EmptyString => true
  | String _ _ => false
  end.

(** [s.split()]: the maximal runs of characters that are not whitespace.
    [tok] is the run being read. *)
Fixpoint split_from (s tok : string) : list string :=
  match s with
  | EmptyString => if is_empty tok then [] else [tok]
  | String c rest =>
      if is_space c then
        if is_empty tok then split_from rest "" else tok :: split_from rest ""
      else split_from rest (tok ++ String c "")
  end.

Definition split (s : string) : list string := split_from s "".

Fixpoint lstrip (s : string) : string :=
  match s with
  | EmptyString => ""
  | String c rest => if is_space c then lstrip rest else s
  end.

Fixpoint rstrip (s : string) : string :=
  match s with
  | EmptyString => ""
  | String c rest =>
      let rest' := rstrip rest in
      if is_space c && is_empty rest' then "" else String c rest'
  end.

(** [s.strip()] *)
Definition strip (s : string) : string := rstrip (lstrip s).

(** [xs[i]] on a list *)
Definition list_index {A : Type} (xs : list A) (i : nat) : result A :=
  match nth_error xs i with
  | Some x => Ok x
  | None => Raise IndexError
  end.

Fixpoint str_times (s : string) (n : nat) : string :=
  match n with
  | O => ""
  | S k => s ++ str_times s k
  end.

(** [s * n]: the empty string when [n] is not positive. *)
Definition str_mul (s : string) (n : Z) : string := str_times s (Z.to_nat n).

(** [str(n)] and [f"{n}"] for an int *)
Definition str_of_int (n : Z) : string := NilZero.string_of_int (Z.to_int n).

(** [f"{s:<w}"]: [s] padded on the right with spaces up to [w] characters. *)
Definition ljust (s : string) (w : nat) : string :=
  s ++ str_times " " (w - String.length s).

Definition digit_value (c : ascii) : option Z :=
  let n := Z.of_N (N_of_ascii c) in
  if (48 <=? n) && (n <=? 57) then Some (n - 48) else None.

(** The digits of an int literal as [int()] reads them: decimal digits,
    with single underscores allowed between two digits.  [after_digit]
    tells whether the previous character was a digit. *)
Fixpoint parse_digits (s : string) (acc : Z) (after_digit : bool) : option Z :=
  match s with
  | EmptyString => if after_digit then Some acc else None
  | String c rest =>
      match digit_value c with
      | Some d => parse_digits rest (10 * acc + d) true
      | None =>
          if Ascii.eqb c "_" && after_digit then parse_digits rest acc false
          else None
      end
  end.

(** [int(s)] for a string: surrounding whitespace, an optional sign, digits. *)
Definition int_of_str (s : string) : result Z :=
  let body := strip s in
  let parsed :=
    match body with
    | String "+" rest => parse_digits rest 0 false
    | String "-" rest => option_map Z.opp (parse_digits rest 0 false)
    | _ => parse_digits body 0 false
    end in
  match parsed with
  | Some n => Ok n
  | None => Raise ValueError
  end.

(** ** Fixed-point formatting: [format(x, ".Nf")] *)

Definition digit_char (d : Z) : ascii := ascii_of_N (Z.to_N (48 + d)).

(** The [k] low decimal digits of [r], most significant first. *)
Fixpoint frac_digits (k : nat) (r : Z) : string :=
  match k with
  | O => ""
  | S k' => String (digit_char ((r / 10 ^ Z.of_nat k') mod 10)) (frac_digits k' r)
  end.

(** [n / 10^dp] written with [dp] digits after the point; no point when
    [dp] is 0. *)
Definition fixed_digits (n : Z) (dp : Z) : string :=
  let p := 10 ^ dp in
  str_of_int (n / p) ++
  (if dp =? 0 then "" else "." ++ frac_digits (Z.to_nat dp) (n mod p)).

(** The magnitude of [q] in units of [10^-dp], rounded half to even: the
    conversion is correctly rounded on the exact value of the double. *)
Definition scaled_digits (q : Q) (dp : Z) : Z :=
  round_half_even (Qabs q * inject_Z (10 ^ dp)).

(** The value [q] written with [dp] digits after the point. *)
Definition fixed_point (q : Q) (dp : Z) : string :=
  (if Qneg_bool q then "-" else "") ++ fixed_digits (scaled_digits q dp) dp.

Definition format_float (x : pyfloat) (dp : Z) : result string :=
  if dp <? 0 then Raise ValueError
  else
    Ok (match x with
        | FNaN => "nan"
        | FInf false => "inf"
        | FInf true => "-inf"
        | FNegZero => "-" ++ fixed_digits 0 dp
        | FFin q => fixed_point q dp
        end).

(** ** The operating system and the printed output *)

Record env : Type := {
  (* the lines of a file that can be opened, each with its end of line *)
  files : string -> option (list string);
  (* the standard output of a shell command *)
  popen : string -> string
}.

(** [open(path, "r")] read line by line *)
Definition open_lines (e : env) (path : string) : result (list string) :=
  match files e path with
  | Some lines => Ok lines
  | None => Raise OSError
  end.

(** A computation that prints: it extends the lines printed so far. *)
Definition io (A : Type) : Type := list string -> list string * result A.

Definition io_bind {A B : Type} (m : io A) (k : A -> io B) : io B :=
  fun out =>
    match m out with
    | (out', Ok a) => k a out'
    | (out', Raise e) => (out', Raise e)
    | (out', OutOfFuel) => (out', OutOfFuel)
    end.

Notation "x <~ m ;; k" := (io_bind m (fun x => k))
  (at level 61, m at next level, right associativity).

Definition lift {A : Type} (r : result A) : io A := fun out => (out, r).

Definition print (line : string) : io unit :=
  fun out => ((out ++ [line])%list, Ok tt).

Definition sys_exit (code : Z) : io unit := lift (Raise (SystemExit code)).

(** The exit status of a run: 0 on a normal end, the code of [sys.exit],
    1 on an exception that nothing catches. *)
Definition exit_status (r : result unit) : Z :=
  match r with
  | Ok _ => 0
  | Raise (SystemExit code) => code
  | _ => 1
  end.

(** ** The functions of assignment2.py *)

Definition percent_to_graph (percent : pyfloat) (length : Z) : result string :=
  scaled <- fmul_int percent length ;;
  num_hashes <- py_round scaled ;;
  Ok (str_mul "#" num_hashes ++ str_mul " " (length - num_hashes)).

(** The loop of [get_sys_mem]; falling off the end of the function returns
    [None]. *)
Fixpoint scan_mem_total (lines : list string) : result (option Z) :=
  match lines with
  | [] => Ok None
  | line :: rest =>
      if startswith line "MemTotal:" then
        tok <- list_index (split line) 1 ;;
        n <- int_of_str tok ;;
        Ok (Some n)
      else scan_mem_total rest
  end.

Definition get_sys_mem (e : env) : result (option Z) :=
  meminfo <- open_lines e "/proc/meminfo" ;;
  scan_mem_total meminfo.

Fixpoint scan_mem_available (lines : list string) : result Z :=
  match lines with
  | [] => Ok (-1)
  | line :: rest =>
      if startswith line "MemAvailable:" then
        tok <- list_index (split line) 1 ;;
        int_of_str tok
      else scan_mem_available rest
  end.

Definition get_avail_mem (e : env) : result Z :=
  meminfo <- open_lines e "/proc/meminfo" ;;
  scan_mem_available meminfo.

Definition pids_of_prog (e : env) (app_name : string) : list string :=
  let pids := strip (popen e ("pidof " ++ app_name)) in
  if is_empty pids then [] else split pids.

Fixpoint scan_rss (lines : list string) (rss : Z) : result Z :=
  match lines with
  | [] => Ok rss
  | line :: rest =>
      if startswith line "Rss:" then
        tok <- list_index (split line) 1 ;;
        n <- int_of_str tok ;;
        scan_rss rest (rss + n)
      else scan_rss rest rss
  end.

Definition rss_mem_of_pid (e : env) (proc_id : string) : result Z :=
  smaps <- open_lines e ("/proc/" ++ proc_id ++ "/smaps") ;;
  scan_rss smaps 0.

(** [result] in [bytes_to_human_r] starts as an int and becomes a float at
    the first division. *)
Inductive pynum : Type :=
| NInt (n : Z)
| NFloat (x : pyfloat).

Definition num_ge (r : pynum) (n : Z) : bool :=
  match r with
  | NInt z => n <=? z
  | NFloat x => float_ge_int x n
  end.

Definition num_to_float (r : pynum) : result pyfloat :=
  match r with
  | NInt z => float_of_int z
  | NFloat x => Ok x
  end.

(** [r / y] for a float [y] *)
Definition num_div_float (r : pynum) (y : pyfloat) : result pyfloat :=
  x <- num_to_float r ;;
  fdiv x y.

(** [f"{r:.{dp}f}"]: an int is converted by [float()] before formatting. *)
Definition format_num (r : pynum) (dp : Z) : result string :=
  if dp <? 0 then Raise ValueError
  else
    x <- num_to_float r ;;
    format_float x dp.

(** A [while] loop on a state, with fuel. *)
Fixpoint while_loop {S : Type} (fuel : nat) (cond : S -> bool)
    (body : S -> result S) (s : S) : result S :=
  match fuel with
  | O => if cond s then OutOfFuel else Ok s
  | Datatypes.S fuel' =>
      if cond s then (s' <- body s ;; while_loop fuel' cond body s')
      else Ok s
  end.

Definition suffixes : list string := ["KiB"; "MiB"; "GiB"; "TiB"; "PiB"].

Definition len {A : Type} (xs : list A) : Z := Z.of_nat (List.length xs).

(** The state of the loop of [bytes_to_human_r]: [(result, suf_count)]. *)
Definition scale_cond (st : pynum * Z) : bool :=
  num_ge (fst st) 1024 && (snd st <? len suffixes - 1).

Definition scale_body (st : pynum * Z) : result (pynum * Z) :=
  r <- num_div_float (fst st) (FFin 1024) ;;
  Ok (NFloat r, snd st + 1).

Definition bytes_to_human_r (kibibytes : Z) (decimal_places : Z) : result string :=
  st <- while_loop (List.length suffixes) scale_cond scale_body (NInt kibibytes, 0) ;;
  digits <- format_num (fst st) decimal_places ;;
  suffix <- list_index suffixes (Z.to_nat (snd st)) ;;
  Ok (digits ++ " " ++ suffix).

(** ** The main program *)

Record args : Type := {
  args_length : Z;
  args_human_readable : bool;
  args_program : option string
}.

(** [not args.program]: no program, or the empty string. *)
Definition no_program (a : args) : bool :=
  match args_program a with
  | None => true
  | Some p => is_empty p
  end.

(** An int where [get_sys_mem] may have returned [None]: arithmetic on
    [None] raises [TypeError]. *)
Definition as_int (v : option Z) : result Z :=
  match v with
  | Some n => Ok n
  | None => Raise TypeError
  end.

(** [bytes_to_human_r(n) if args.human_readable else f"{n}"] *)
Definition amount_str (a : args) (n : Z) : result string :=
  if args_human_readable a then bytes_to_human_r n 2 else Ok (str_of_int n).

(** [f"{usage_percent*100:.0f}"] *)
Definition percent_str (usage_percent : pyfloat) : result string :=
  p <- fmul_int usage_percent 100 ;;
  format_float p 0.

(** [sum(xs)] *)
Definition sum (xs : list Z) : Z := fold_left Z.add xs 0.

(** The body of the loop over the pids, with the variables it assigns:
    [rss_totals] and [total_str]. *)
Fixpoint report_pids (e : env) (a : args) (total_mem : option Z)
    (pids : list string) (rss_totals : list Z) (total_str : string)
    : io (list Z * string) :=
  match pids with
  | [] => lift (Ok (rss_totals, total_str))
  | pid :: rest =>
      rss_mem <~ lift (rss_mem_of_pid e pid) ;;
      total <~ lift (as_int total_mem) ;;
      usage_percent <~ lift (int_truediv rss_mem total) ;;
      bar_graph <~ lift (percent_to_graph usage_percent (args_length a)) ;;
      rss_str <~ lift (amount_str a rss_mem) ;;
      total_str <~ lift (amount_str a total) ;;
      pct <~ lift (percent_str usage_percent) ;;
      _ <~ print (ljust pid 15 ++ " [" ++ bar_graph ++ "| " ++ pct ++ "%] "
                  ++ rss_str ++ "/" ++ total_str) ;;
      report_pids e a total_mem rest (rss_totals ++ [rss_mem])%list total_str
  end.

Definition main (e : env) (a : args) : io unit :=
  if no_program a then
    total_mem <~ lift (get_sys_mem e) ;;
    avail_mem <~ lift (get_avail_mem e) ;;
    total_mem <~ lift (as_int total_mem) ;;
    let used_mem := total_mem - avail_mem in
    usage_percent <~ lift (int_truediv used_mem total_mem) ;;
    bar_graph <~ lift (percent_to_graph usage_percent (args_length a)) ;;
    used_str <~ lift (amount_str a used_mem) ;;
    total_str <~ lift (amount_str a total_mem) ;;
    pct <~ lift (percent_str usage_percent) ;;
    print ("Memory         [" ++ bar_graph ++ "| " ++ pct ++ "%] "
           ++ used_str ++ "/" ++ total_str)
  else
    let program := match args_program a with Some p => p | None => "" end in
    total_mem <~ lift (get_sys_mem e) ;;
    let pids := pids_of_prog e program in
    match pids with
    | [] =>
        _ <~ print ("No processes found for " ++ program) ;;
        sys_exit 1
    | _ :: _ =>
        st <~ report_pids e a total_mem pids [] "" ;;
        let rss_totals := fst st in
        let total_str := snd st in
        if 1 <? len pids then
          let total_rss := sum rss_totals in
          total <~ lift (as_int total_mem) ;;
          total_usage_percent <~ lift (int_truediv total_rss total) ;;
          bar_graph <~ lift (percent_to_graph total_usage_percent (args_length a)) ;;
          total_rss_str <~ lift (amount_str a total_rss) ;;
          pct <~ lift (percent_str total_usage_percent) ;;
          print (ljust program 15 ++ " [" ++ bar_graph ++ "| " ++ pct ++ "%] "
                 ++ total_rss_str ++ "/" ++ total_str)
        else lift (Ok tt)
    end.

(** A run from nothing printed: the lines printed and how the run ends. *)
Definition run (e : env) (a : args) : list string * result unit := main e a [].

(** ** Notions used in the statements *)

(** The local variable [num_hashes] of [percent_to_graph]. *)
Definition num_hashes (percent : pyfloat) (length : Z) : result Z :=
  scaled <- fmul_int percent length ;;
  py_round scaled.

(** A fraction in the interval from 0.0 to 1.0: [0.0 <= x <= 1.0] holds. *)
Definition in_unit_interval (x : pyfloat) : Prop :=
  fis_finite x = true /\ (0 <= fvalue x <= 1)%Q.

(** The number of occurrences of a character. *)
Fixpoint count_char (c : ascii) (s : string) : nat :=
  match s with
  | EmptyString => O
  | String c' rest =>
      if Ascii.eqb c' c then Datatypes.S (count_char c rest) else count_char c rest
  end.

(** Every character satisfies [p]. *)
Fixpoint all_chars (p : ascii -> bool) (s : string) : bool :=
  match s with
  | EmptyString => true
  | String c rest => p c && all_chars p rest
  end.

(** The two characters of a bar: the fill character and the blank. *)
Definition bar_char (c : ascii) : bool := Ascii.eqb c "#" || Ascii.eqb c " ".

Definition is_digit (c : ascii) : bool :=
  match digit_value c with
  | Some _ => true
  | None => false
  end.

(** The bar with [n] fill characters for a width of [length], as
    [percent_to_graph] builds it from [num_hashes]. *)
Definition bar_of (n length : Z) : string :=
  str_mul "#" n ++ str_mul " " (length - n).

(** No line of [lines] begins with [label]. *)
Definition label_absent (label : string) (lines : list string) : Prop :=
  Forall (fun line => startswith line label = false) lines.

(** ** The report lines, in the words of the specification *)

(** Sections 4.6 and 6: one subject gives the line
    [<label> [<bar>| <percent>%] <used>/<total>], the bar and the percentage
    computed from the fraction, the amounts formatted per the unit setting. *)
Definition render_line (a : args) (label : string) (fraction : pyfloat)
    (amount total : Z) : result string :=
  bar <- percent_to_graph fraction (args_length a) ;;
  amount_s <- amount_str a amount ;;
  total_s <- amount_str a total ;;
  pct <- percent_str fraction ;;
  Ok (label ++ " [" ++ bar ++ "| " ++ pct ++ "%] " ++ amount_s ++ "/" ++ total_s).

(** The fraction of a subject is its amount over the system total. *)
Definition report_line (a : args) (label : string) (amount total : Z)
    : result string :=
  fraction <- int_truediv amount total ;;
  render_line a label fraction amount total.

(** A run that prints the one line [r], or ends as [r] fails. *)
Definition print_result (r : result string) : list string * result unit :=
  match r with
  | Ok line => ([line], Ok tt)
  | Raise ex => ([], Raise ex)
  | OutOfFuel => ([], OutOfFuel)
  end.

(** Section 4.6, step 3 of the per-program mode: one line per resolved
    identifier, in the resolver's order, each from the resident memory of
    its process over the system total. *)
Inductive pid_lines (e : env) (a : args) (total : Z)
    : list string -> list Z -> list string -> Prop :=
| pid_lines_nil : pid_lines e a total [] [] []
| pid_lines_cons pid pids rss rss_list line lines :
    rss_mem_of_pid e pid = Ok rss ->
    report_line a (ljust pid 15) rss total = Ok line ->
    pid_lines e a total pids rss_list lines ->
    pid_lines e a total (pid :: pids) (rss :: rss_list) (line :: lines).

(** ** The unit formatter, in the words of the specification *)

(** Section 4.1: divide by 1024 while the value is at least 1024 and a
    larger suffix remains.  [suffix] is the suffix reached, [larger] the
    larger suffixes that remain, in order. *)
Fixpoint scale_spec (v : Q) (suffix : string) (larger : list string)
    : Q * string :=
  match larger with
  | [] => (v, suffix)
  | next :: rest =>
      if Qle_bool 1024 v then scale_spec (v / 1024) next rest else (v, suffix)
  end.

(** The final quotient with [dp] digits after the point, a space, and the
    suffix chosen. *)
Definition human_readable_spec (amount : Q) (dp : Z) : string :=
  let scaled := scale_spec amount "KiB" ["MiB"; "GiB"; "TiB"; "PiB"] in
  fixed_point (fst scaled) dp ++ " " ++ snd scaled.

(** A positive double: 53 bits of significand, an exponent that is not
    below the subnormal one, a value below the overflow threshold. *)
Definition positive_double (q : Q) : Prop :=
  exists m u,
    (q == inject_Z m * pow2 u)%Q /\ 0 < m < 2 ^ 53 /\ -1074 <= u /\
    (q < pow2 1024)%Q.

(** ** Example systems *)

Definition nl : string := String (ascii_of_nat 10) "".

(** A system with the given [/proc/meminfo], on which [pidof foo] prints two
    pids, [pidof one] a single pid, and any other command nothing. *)
Definition system_with (meminfo : list string) : env :=
  {| files := fun path =>
       if String.eqb path "/proc/meminfo" then Some meminfo
       else if String.eqb path "/proc/12/smaps" then
         Some ["55d0a000-55d0b000 r--p 00000000 08:01 131 /usr/bin/foo" ++ nl;
               "Size:                  4 kB" ++ nl;
               "Rss:                 100 kB" ++ nl;
               "Pss:                   3 kB" ++ nl;
               "7ffd1000-7ffd3000 rw-p 00000000 00:00 0 [stack]" ++ nl;
               "Rss:             2000000 kB" ++ nl]
       else if String.eqb path "/proc/345/smaps" then
         Some ["Rss:             4000000 kB" ++ nl]
       else None;
     popen := fun command =>
       if String.eqb command "pidof foo" then "12 345" ++ nl
       else if String.eqb command "pidof one" then "345" ++ nl
       else "" |}.

(** 16,000,000 KiB in total, 4,000,000 KiB available. *)
Definition meminfo_16m : list string :=
  ["MemTotal:       16000000 kB" ++ nl;
   "MemFree:         1000000 kB" ++ nl;
   "MemAvailable:    4000000 kB" ++ nl].

(** No [MemAvailable:] line, as on a system that does not provide it. *)
Definition meminfo_no_available : list string :=
  ["MemTotal:       16000000 kB" ++ nl;
   "MemFree:         1000000 kB" ++ nl].

(** No [MemAvailable:] line, and a total of [2^53] KiB. *)
Definition meminfo_huge_total : list string :=
  ["MemTotal:       9007199254740992 kB" ++ nl;
   "MemFree:         1000000 kB" ++ nl].

(** No [MemTotal:] line. *)
Definition meminfo_no_total : list string :=
  ["MemFree:         1000000 kB" ++ nl;
   "MemAvailable:    4000000 kB" ++ nl].

Definition example_args (length : Z) (human_readable : bool)
    (program : option string) : args :=
  {| args_length := length;
     args_human_readable := human_readable;
     args_program := program |}.

(** ** The Standard Library's IEEE 754 specification, for comparison *)

(** A float of [SpecFloat] (sign, significand, exponent) as a [pyfloat]. *)
Definition of_spec_float (x : spec_float) : pyfloat :=
  match x with
  | S754_zero s => signed_zero s
  | S754_infinity s => FInf s
  | S754_nan => FNaN
  | S754_finite s m e =>
      FFin (Qred ((if s then -1 else 1) * inject_Z (Zpos m) * pow2 e))
  end.

(** The value of a finite float of [SpecFloat]. *)
Definition spec_value (s : bool) (m : positive) (e : Z) : Q :=
  ((if s then -1 else 1) * (inject_Z (Zpos m) * pow2 e))%Q.

(** Where a fraction [0 <= f < 1] lies in its unit interval: the location
    [SpecFloat] keeps of the part of a significand that a shift or a
    division discards. *)
Definition loc_of_frac (f : Q) : location :=
  if Qeq_bool f 0 then loc_Exact else loc_Inexact (Qcompare f (1 # 2)).

From Stdlib Require Import DecimalPos.

(** ** Notions used in the further properties *)

(** No whitespace in [s]. *)
Definition no_space (s : string) : bool :=
  all_chars (fun c => negb (is_space c)) s.

(** A token, as [str.split] gives them: not empty, no whitespace. *)
Definition is_token (s : string) : Prop := s <> "" /\ no_space s = true.

(** [sep.join(xs)] *)
Fixpoint join (sep : string) (xs : list string) : string :=
  match xs with
  | [] => ""
  | [x] => x
  | x :: rest => x ++ sep ++ join sep rest
  end.

(** A line of [/proc/meminfo] or of [smaps] as the kernel writes it: the
    label, [pad] blanks, the value in KiB, the unit and the end of line. *)
Definition field_line (label : string) (pad : nat) (n : Z) : string :=
  label ++ str_times " " pad ++ str_of_int n ++ " kB" ++ nl.

(** The test of the loop of [rss_mem_of_pid]. *)
Definition is_rss_line (line : string) : bool := startswith line "Rss:".

(** [line.split()[1]] read by [int()] gives [v]. *)
Definition second_token_is (line : string) (v : Z) : Prop :=
  exists tok, nth_error (split line) 1 = Some tok /\ int_of_str tok = Ok v.

(** [line] is the line the kernel writes for the field [label] of value
    [v]: at least one blank after the label. *)
Definition kernel_line (label line : string) (v : Z) : Prop :=
  exists pad, (1 <= pad)%nat /\ line = field_line label pad v.

(** The [smaps] file of a process. *)
Definition smaps_path (proc_id : string) : string :=
  "/proc/" ++ proc_id ++ "/smaps".


(** The value of a decimal numeral, most significant digit first, after
    the digits already read, of value [acc]. *)
Fixpoint uint_value (d : Decimal.uint) (acc : Z) : Z :=
  match d with
  | Decimal.Nil => acc
  | Decimal.D0 l => uint_value l (10 * acc)
  | Decimal.D1 l => uint_value l (10 * acc + 1)
  | Decimal.D2 l => uint_value l (10 * acc + 2)
  | Decimal.D3 l => uint_value l (10 * acc + 3)
  | Decimal.D4 l => uint_value l (10 * acc + 4)
  | Decimal.D5 l => uint_value l (10 * acc + 5)
  | Decimal.D6 l => uint_value l (10 * acc + 6)
  | Decimal.D7 l => uint_value l (10 * acc + 7)
  | Decimal.D8 l => uint_value l (10 * acc + 8)
  | Decimal.D9 l => uint_value l (10 * acc + 9)
  end.

(** ** Further example systems *)

(** A system whose [/proc/meminfo] is [meminfo] (absent when [None]) and on
    which [pidof foo] prints [pids]; only the processes 12 and 345 have a
    readable [smaps]. *)
Definition system_of (meminfo : option (list string)) (pids : string) : env :=
  {| files := fun path =>
       if String.eqb path "/proc/meminfo" then meminfo
       else if String.eqb path "/proc/12/smaps" then
         Some [field_line "Rss:" 17 100; "Pss:                   3 kB" ++ nl;
               field_line "Rss:" 13 2000000]
       else if String.eqb path "/proc/345/smaps" then
         Some [field_line "Rss:" 13 4000000]
       else None;
     popen := fun command =>
       if String.eqb command "pidof foo" then pids else "" |}.

(** A total of 0 KiB. *)
Definition meminfo_zero_total : list string :=
  [field_line "MemTotal:" 14 0; field_line "MemAvailable:" 10 0].


(** * Properties *)

(** ** Powers of two and binary exponents *)

Section Rounding.

Local Open Scope Q_scope.

Lemma pow2_pos e : 0 < pow2 e.
Proof. apply Qpower_0_lt. reflexivity. Qed.

Lemma pow2_nz e : ~ pow2 e == 0.
Proof. pose proof (pow2_pos e) as H. intros C. rewrite C in H. discriminate H. Qed.

Lemma pow2_add a b : pow2 (a + b) == pow2 a * pow2 b.
Proof. apply Qpower_plus. discriminate. Qed.

Lemma pow2_le a b : (a <= b)%Z -> pow2 a <= pow2 b.
Proof. intros. apply Qpower_le_compat_l; [assumption | discriminate]. Qed.

Lemma pow2_lt_inv a b : pow2 a < pow2 b -> (a < b)%Z.
Proof. intros. apply (Qpower_lt_compat_l_inv 2); [assumption | reflexivity]. Qed.

Lemma pow2_inject n : (0 <= n)%Z -> pow2 n == inject_Z (2 ^ n).
Proof. intros. unfold pow2. rewrite Zpower_Qpower by assumption. reflexivity. Qed.

(** ** Rounding half to even *)

Lemma round_half_even_comp x y : x == y -> round_half_even x = round_half_even y.
Proof.
  intros H. unfold round_half_even.
  rewrite (Qfloor_comp _ _ H).
  assert (E : x - inject_Z (Qfloor y) == y - inject_Z (Qfloor y)) by (rewrite H; reflexivity).
  rewrite (Qcompare_comp _ _ E (1#2) (1#2) (Qeq_refl _)). reflexivity.
Qed.

#[global] Instance round_half_even_proper : Proper (Qeq ==> eq) round_half_even.
Proof. exact round_half_even_comp. Qed.

Lemma round_half_even_inject z : round_half_even (inject_Z z) = z.
Proof.
  unfold round_half_even. rewrite Qfloor_Z.
  assert (E : inject_Z z - inject_Z z == 0) by ring.
  rewrite (Qcompare_comp _ _ E (1#2) (1#2) (Qeq_refl _)). reflexivity.
Qed.

Lemma round_half_even_bounds x :
  (Qfloor x <= round_half_even x <= Qfloor x + 1)%Z.
Proof.
  unfold round_half_even.
  destruct (Qcompare _ _); [destruct (Z.even _)| |]; lia.
Qed.

Lemma round_half_even_mono x y : x <= y -> (round_half_even x <= round_half_even y)%Z.
Proof.
  intros H.
  pose proof (Qfloor_resp_le _ _ H) as Hf.
  destruct (Z.eq_dec (Qfloor x) (Qfloor y)) as [E|N].
  - unfold round_half_even. rewrite E.
    destruct (Qcompare_spec (x - inject_Z (Qfloor y)) (1#2)) as [Hx|Hx|Hx];
    destruct (Qcompare_spec (y - inject_Z (Qfloor y)) (1#2)) as [Hy|Hy|Hy];
    try destruct (Z.even (Qfloor y)); try lia; exfalso; lra.
  - pose proof (round_half_even_bounds x). pose proof (round_half_even_bounds y). lia.
Qed.

Lemma round_half_even_nonneg x : 0 <= x -> (0 <= round_half_even x)%Z.
Proof.
  intros H. rewrite <- (round_half_even_inject 0). apply round_half_even_mono. exact H.
Qed.

Lemma Q_as_fraction a : a * inject_Z (Zpos (Qden a)) == inject_Z (Qnum a).
Proof.
  destruct a as [n d]. unfold Qeq, Qmult, inject_Z. simpl. lia.
Qed.

Lemma qlog2_spec a : 0 < a -> pow2 (qlog2 a) <= a /\ a < pow2 (qlog2 a + 1).
Proof.
  intros Ha.
  assert (Hn : (0 < Qnum a)%Z).
  { destruct a as [n d]. unfold Qlt in Ha. simpl in *. lia. }
  pose proof (Q_as_fraction a) as Hfrac.
  set (n := Qnum a) in *. set (d := Zpos (Qden a)) in *.
  assert (Hd : (0 < d)%Z) by (unfold d; lia).
  destruct (Z.log2_spec n Hn) as [Hn1 Hn2].
  destruct (Z.log2_spec d Hd) as [Hd1 Hd2].
  pose proof (Z.log2_nonneg n) as Hln. pose proof (Z.log2_nonneg d) as Hld.
  assert (Qn1 : pow2 (Z.log2 n) <= inject_Z n).
  { rewrite pow2_inject by assumption. rewrite <- Zle_Qle. assumption. }
  assert (Qn2 : inject_Z n < pow2 (Z.log2 n + 1)).
  { rewrite pow2_inject by lia. rewrite <- Zlt_Qlt. rewrite <- Z.add_1_r in Hn2. assumption. }
  assert (Qd1 : pow2 (Z.log2 d) <= inject_Z d).
  { rewrite pow2_inject by assumption. rewrite <- Zle_Qle. assumption. }
  assert (Qd2 : inject_Z d < pow2 (Z.log2 d + 1)).
  { rewrite pow2_inject by lia. rewrite <- Zlt_Qlt. rewrite <- Z.add_1_r in Hd2. assumption. }
  set (e0 := (Z.log2 n - Z.log2 d)%Z).
  assert (Hlo : pow2 (e0 - 1) <= a).
  { assert (E : pow2 (Z.log2 n) == pow2 (e0 - 1) * pow2 (Z.log2 d + 1)).
    { rewrite <- pow2_add. unfold e0. replace (Z.log2 n - Z.log2 d - 1 + (Z.log2 d + 1))%Z with (Z.log2 n) by lia. reflexivity. }
    pose proof (pow2_pos (e0 - 1)). pose proof (pow2_pos (Z.log2 d + 1)).
    apply Qnot_lt_le. intros C.
    assert (a * inject_Z d < pow2 (e0 - 1) * pow2 (Z.log2 d + 1)) by nra.
    lra. }
  assert (Hhi : a < pow2 (e0 + 1)).
  { assert (E : pow2 (Z.log2 n + 1) == pow2 (e0 + 1) * pow2 (Z.log2 d)).
    { rewrite <- pow2_add. unfold e0. replace (Z.log2 n - Z.log2 d + 1 + Z.log2 d)%Z with (Z.log2 n + 1)%Z by lia. reflexivity. }
    pose proof (pow2_pos (e0 + 1)). pose proof (pow2_pos (Z.log2 d)).
    apply Qnot_le_lt. intros C.
    assert (pow2 (e0 + 1) * pow2 (Z.log2 d) <= a * inject_Z d) by nra.
    lra. }
  unfold qlog2. fold n d e0.
  destruct (Qle_bool (pow2 e0) a) eqn:B.
  - apply Qle_bool_iff in B. split; assumption.
  - assert (~ pow2 e0 <= a) by (rewrite <- Qle_bool_iff; congruence).
    replace (e0 - 1 + 1)%Z with e0 by lia. split; [assumption|]. apply Qnot_le_lt. assumption.
Qed.

Lemma qlog2_unique a e : pow2 e <= a -> a < pow2 (e + 1) -> qlog2 a = e.
Proof.
  intros H1 H2.
  assert (Ha : 0 < a) by (pose proof (pow2_pos e); lra).
  destruct (qlog2_spec a Ha) as [L1 L2].
  assert (qlog2 a < e + 1)%Z by (apply pow2_lt_inv; lra).
  assert (e < qlog2 a + 1)%Z by (apply pow2_lt_inv; lra).
  lia.
Qed.

Lemma qlog2_mono a b : 0 < a -> a <= b -> (qlog2 a <= qlog2 b)%Z.
Proof.
  intros Ha Hab.
  destruct (qlog2_spec a Ha) as [L1 _].
  destruct (qlog2_spec b) as [_ L2]; [lra|].
  assert (qlog2 a < qlog2 b + 1)%Z by (apply pow2_lt_inv; lra).
  lia.
Qed.

Lemma qlog2_comp a b : 0 < a -> a == b -> qlog2 a = qlog2 b.
Proof.
  intros Ha E. destruct (qlog2_spec a Ha) as [L1 L2].
  symmetry. apply qlog2_unique; lra.
Qed.

Lemma ulp_exp_comp a b : 0 < a -> a == b -> ulp_exp a = ulp_exp b.
Proof. intros Ha E. unfold ulp_exp. rewrite (qlog2_comp a b Ha E). reflexivity. Qed.

Lemma round_mag_comp a b : 0 < a -> a == b -> round_mag a == round_mag b.
Proof.
  intros Ha E. unfold round_mag. rewrite (ulp_exp_comp a b Ha E).
  rewrite E. reflexivity.
Qed.

Lemma pow2_sub a b : pow2 (a - b) == pow2 a / pow2 b.
Proof.
  pose proof (pow2_pos b).
  assert (E : pow2 a == pow2 (a - b) * pow2 b).
  { rewrite <- pow2_add. replace (a - b + b)%Z with a by lia. reflexivity. }
  rewrite E. field. apply pow2_nz.
Qed.

(** ** Rounding to 53 bits *)
Lemma scaled_pow2 e u : pow2 e / pow2 u == pow2 (e - u).
Proof. symmetry. apply pow2_sub. Qed.

Lemma round_scaled_pow2 e u : (u <= e)%Z ->
  inject_Z (round_half_even (pow2 e / pow2 u)) * pow2 u == pow2 e.
Proof.
  intros H. rewrite scaled_pow2. rewrite pow2_inject by lia.
  rewrite round_half_even_inject. rewrite <- pow2_inject by lia.
  rewrite <- pow2_add. replace (e - u + u)%Z with e by lia. reflexivity.
Qed.

Lemma round_mag_exact m u :
  (0 < m < 2 ^ 53)%Z -> (-1074 <= u)%Z ->
  round_mag (inject_Z m * pow2 u) == inject_Z m * pow2 u.
Proof.
  intros Hm Hu.
  set (a := inject_Z m * pow2 u).
  pose proof (pow2_pos u) as Pu.
  assert (Hm1 : 1 <= inject_Z m) by (change 1 with (inject_Z 1); rewrite <- Zle_Qle; lia).
  assert (Hm2 : inject_Z m < pow2 53).
  { rewrite pow2_inject by lia. rewrite <- Zlt_Qlt. lia. }
  assert (Ha : 0 < a) by (unfold a; nra).
  destruct (qlog2_spec a Ha) as [L1 L2].
  assert (Hlt : pow2 (qlog2 a) < pow2 (53 + u)).
  { rewrite pow2_add. unfold a in L1.
    eapply Qle_lt_trans; [exact L1|]. apply Qmult_lt_compat_r; assumption. }
  apply pow2_lt_inv in Hlt.
  assert (Hue : (ulp_exp a <= u)%Z) by (unfold ulp_exp; lia).
  unfold round_mag.
  set (k := ulp_exp a) in *.
  assert (E : a / pow2 k == inject_Z (m * 2 ^ (u - k))).
  { rewrite inject_Z_mult. rewrite <- pow2_inject by lia. rewrite pow2_sub.
    unfold a. field. apply pow2_nz. }
  rewrite E. rewrite round_half_even_inject.
  rewrite inject_Z_mult. rewrite <- pow2_inject by lia. rewrite pow2_sub.
  unfold a. field. apply pow2_nz.
Qed.

Lemma round_mag_mono a b : 0 < a -> a <= b -> round_mag a <= round_mag b.
Proof.
  intros Ha Hab.
  assert (Hb : 0 < b) by lra.
  pose proof (qlog2_mono a b Ha Hab) as Hlog.
  destruct (qlog2_spec a Ha) as [A1 A2].
  destruct (qlog2_spec b Hb) as [B1 B2].
  unfold round_mag.
  set (ua := ulp_exp a). set (ub := ulp_exp b).
  pose proof (pow2_pos ua) as Pua. pose proof (pow2_pos ub) as Pub.
  destruct (Z.eq_dec ua ub) as [E|N].
  - rewrite <- E.
    assert (H : a / pow2 ua <= b / pow2 ua).
    { apply Qmult_le_compat_r; [assumption|]. apply Qlt_le_weak, Qinv_lt_0_compat. assumption. }
    apply round_half_even_mono in H. rewrite Zle_Qle in H. nra.
  - assert (Hlt : (ua < ub)%Z) by (unfold ua, ub, ulp_exp in *; lia).
    (* a lies below 2^(ua+53) <= 2^(ub+52), which lies below b *)
    assert (Ha' : a <= pow2 (ua + 53)).
    { apply Qlt_le_weak. eapply Qlt_le_trans; [exact A2|]. apply pow2_le. unfold ua, ulp_exp. lia. }
    assert (Hb' : pow2 (ub + 52) <= b).
    { eapply Qle_trans; [|exact B1]. apply pow2_le. unfold ua, ub, ulp_exp in *. lia. }
    assert (H1 : a / pow2 ua <= pow2 (ua + 53) / pow2 ua).
    { apply Qmult_le_compat_r; [assumption|]. apply Qlt_le_weak, Qinv_lt_0_compat. assumption. }
    assert (H2 : pow2 (ub + 52) / pow2 ub <= b / pow2 ub).
    { apply Qmult_le_compat_r; [assumption|]. apply Qlt_le_weak, Qinv_lt_0_compat. assumption. }
    apply round_half_even_mono in H1, H2. rewrite Zle_Qle in H1, H2.
    pose proof (round_scaled_pow2 (ua + 53) ua ltac:(lia)) as R1.
    pose proof (round_scaled_pow2 (ub + 52) ub ltac:(lia)) as R2.
    assert (pow2 (ua + 53) <= pow2 (ub + 52)) by (apply pow2_le; lia).
    nra.
Qed.

End Rounding.

(** ** The nearest double *)

Section Binary64.

Local Open Scope Q_scope.

Lemma round_mag_nonneg a : 0 < a -> 0 <= round_mag a.
Proof.
  intros Ha. unfold round_mag.
  pose proof (pow2_pos (ulp_exp a)) as P.
  assert (H : 0 <= a / pow2 (ulp_exp a)).
  { apply Qlt_le_weak. apply Qlt_shift_div_l; [assumption | ]. rewrite Qmult_0_l. exact Ha. }
  apply round_half_even_nonneg in H. rewrite Zle_Qle in H.
  apply Qmult_le_0_compat; [exact H | apply Qlt_le_weak; exact P].
Qed.

Lemma round_mag_int n :
  (0 < n <= 2 ^ 53)%Z -> round_mag (inject_Z n) == inject_Z n.
Proof.
  intros Hn.
  destruct (Z.eq_dec n (2 ^ 53)) as [E|N].
  - subst n.
    assert (R : inject_Z (2 ^ 53) == inject_Z (2 ^ 52) * pow2 1) by reflexivity.
    assert (P : 0 < inject_Z (2 ^ 53)) by reflexivity.
    rewrite (round_mag_comp _ _ P R).
    rewrite (round_mag_exact (2 ^ 52) 1) by lia. symmetry. exact R.
  - assert (R : inject_Z n == inject_Z n * pow2 0) by (unfold pow2; simpl; ring).
    assert (P : 0 < inject_Z n) by (change 0 with (inject_Z 0); rewrite <- Zlt_Qlt; lia).
    rewrite (round_mag_comp _ _ P R).
    rewrite (round_mag_exact n 0) by lia. symmetry. exact R.
Qed.

Lemma binary64_round_pos a r :
  0 < a -> round_mag a == r -> r < pow2 1024 ->
  exists q, binary64_round a = FFin q /\ q == r.
Proof.
  intros Ha Hr Hlt. unfold binary64_round.
  assert (C : Qcompare a 0 = Gt) by (apply Qgt_alt; exact Ha). rewrite C.
  destruct (Qle_bool (pow2 1024) (round_mag a)) eqn:B.
  - apply Qle_bool_iff in B. exfalso. lra.
  - exists (Qred (round_mag a)). split; [reflexivity|].
    rewrite Qred_correct. exact Hr.
Qed.

Lemma binary64_round_neg a r :
  a < 0 -> round_mag (- a) == r -> 0 < r -> r < pow2 1024 ->
  exists q, binary64_round a = FFin q /\ q == - r.
Proof.
  intros Ha Hr Hpos Hlt. unfold binary64_round.
  assert (C : Qcompare a 0 = Lt) by (apply Qlt_alt; exact Ha). rewrite C.
  destruct (Qle_bool (pow2 1024) (round_mag (- a))) eqn:B.
  - apply Qle_bool_iff in B. exfalso. lra.
  - destruct (Qeq_bool (round_mag (- a)) 0) eqn:Z.
    + apply Qeq_bool_iff in Z. exfalso. lra.
    + exists (Qred (- round_mag (- a))). split; [reflexivity|].
      rewrite Qred_correct. rewrite Hr. reflexivity.
Qed.

Lemma pow2_53_lt_1024 : inject_Z (2 ^ 53) < pow2 1024.
Proof.
  rewrite <- pow2_inject by lia.
  apply Qpower_lt_compat_l; [lia | reflexivity].
Qed.

(** [float(n)] is exact up to [2^53]. *)
Lemma float_of_int_exact n :
  (Z.abs n <= 2 ^ 53)%Z ->
  exists q, float_of_int n = Ok (FFin q) /\ q == inject_Z n.
Proof.
  intros Hn. unfold float_of_int.
  destruct (Z.compare_spec n 0) as [E|L|G].
  - subst n. exists 0. split; reflexivity.
  - assert (A : inject_Z n < 0) by (change 0 with (inject_Z 0); rewrite <- Zlt_Qlt; lia).
    assert (R : round_mag (- inject_Z n) == inject_Z (- n)).
    { rewrite <- inject_Z_opp. apply round_mag_int. lia. }
    destruct (binary64_round_neg (inject_Z n) (inject_Z (- n)) A R) as [q [Hq Eq]].
    + change 0 with (inject_Z 0). rewrite <- Zlt_Qlt. lia.
    + eapply Qle_lt_trans; [|exact pow2_53_lt_1024]. rewrite <- Zle_Qle. lia.
    + exists q. rewrite Hq. split; [reflexivity|].
      rewrite Eq. rewrite inject_Z_opp. ring.
  - assert (A : 0 < inject_Z n) by (change 0 with (inject_Z 0); rewrite <- Zlt_Qlt; lia).
    assert (R : round_mag (inject_Z n) == inject_Z n) by (apply round_mag_int; lia).
    destruct (binary64_round_pos (inject_Z n) (inject_Z n) A R) as [q [Hq Eq]].
    + eapply Qle_lt_trans; [|exact pow2_53_lt_1024]. rewrite <- Zle_Qle. lia.
    + exists q. rewrite Hq. split; [reflexivity | exact Eq].
Qed.

(** Rounding is monotone: below a value that rounds to a finite double,
    a positive rational rounds to a finite double that is no larger. *)
Lemma binary64_round_mono a b qb :
  0 < a -> a <= b -> binary64_round b = FFin qb ->
  exists qa, binary64_round a = FFin qa /\ 0 <= qa /\ qa <= qb.
Proof.
  intros Ha Hab Hb.
  assert (Pb : 0 < b) by lra.
  pose proof (round_mag_mono a b Ha Hab) as M.
  pose proof (round_mag_nonneg a Ha) as N.
  assert (Cb : Qcompare b 0 = Gt) by (apply Qgt_alt; exact Pb).
  unfold binary64_round in Hb. rewrite Cb in Hb.
  destruct (Qle_bool (pow2 1024) (round_mag b)) eqn:B; [discriminate|].
  assert (Eb : Qred (round_mag b) = qb) by congruence. subst qb.
  assert (Lb : round_mag b < pow2 1024).
  { apply Qnot_le_lt. rewrite <- Qle_bool_iff. congruence. }
  destruct (binary64_round_pos a (round_mag a) Ha (Qeq_refl _)) as [qa [Hqa Eqa]]; [lra|].
  exists qa. split; [exact Hqa|].
  pose proof (Qred_correct (round_mag b)) as Rb. split; lra.
Qed.

Lemma binary64_round_mono_lower a b qa :
  0 < a -> a <= b -> binary64_round a = FFin qa ->
  match binary64_round b with
  | FFin qb => qa <= qb
  | FInf s => s = false
  | _ => False
  end.
Proof.
  intros Ha Hab Hqa.
  assert (Pb : 0 < b) by lra.
  pose proof (round_mag_mono a b Ha Hab) as M.
  assert (Ca : Qcompare a 0 = Gt) by (apply Qgt_alt; exact Ha).
  assert (Cb : Qcompare b 0 = Gt) by (apply Qgt_alt; exact Pb).
  unfold binary64_round in *.
  rewrite Cb. rewrite Ca in Hqa.
  destruct (Qle_bool (pow2 1024) (round_mag a)); [discriminate|].
  assert (Ea : Qred (round_mag a) = qa) by congruence. subst qa.
  destruct (Qle_bool (pow2 1024) (round_mag b)); [reflexivity|].
  pose proof (Qred_correct (round_mag a)) as Ra.
  pose proof (Qred_correct (round_mag b)) as Rb. lra.
Qed.

End Binary64.
(** ** The model of doubles is [SpecFloat] at binary64 *)

(** ** The right shift of [SpecFloat] *)

Lemma iter_pos_nat {A : Type} (f : A -> A) p x :
  iter_pos f p x = Nat.iter (Pos.to_nat p) f x.
Proof.
  revert x. induction p as [p IH|p IH|]; intros x; cbn [iter_pos].
  - rewrite !IH. rewrite Pos2Nat.inj_xI.
    replace (S (2 * Pos.to_nat p)) with (Pos.to_nat p + Pos.to_nat p + 1)%nat by lia.
    rewrite !Nat.iter_add. reflexivity.
  - rewrite !IH. rewrite Pos2Nat.inj_xO.
    replace (2 * Pos.to_nat p)%nat with (Pos.to_nat p + Pos.to_nat p)%nat by lia.
    rewrite Nat.iter_add. reflexivity.
  - reflexivity.
Qed.

Lemma shr_nat mrs e n :
  0 <= n -> shr mrs e n = (Nat.iter (Z.to_nat n) shr_1 mrs, e + n).
Proof.
  intros Hn. destruct n as [|p|p]; [| |lia].
  - cbn. rewrite Z.add_0_r. reflexivity.
  - unfold shr. rewrite iter_pos_nat. reflexivity.
Qed.

Lemma shr_1_nonneg m r s :
  0 <= m ->
  shr_1 {| shr_m := m; shr_r := r; shr_s := s |}
  = {| shr_m := m / 2; shr_r := Z.odd m; shr_s := r || s |}.
Proof.
  intros Hm. rewrite <- Z.div2_div.
  destruct m as [|p|p]; [reflexivity | | lia].
  destruct p; reflexivity.
Qed.

Lemma shr_record_of_loc_m m l : shr_m (shr_record_of_loc m l) = m.
Proof. destruct l as [|[]]; reflexivity. Qed.

Lemma loc_of_shr_record_of_loc m l :
  loc_of_shr_record (shr_record_of_loc m l) = l.
Proof. destruct l as [|[]]; reflexivity. Qed.

Lemma digits2_size m : digits2_pos m = Pos.size m.
Proof. induction m as [m IH|m IH|]; cbn; rewrite ?IH; reflexivity. Qed.

Lemma digits2_log2 m : Zpos (digits2_pos m) = Z.log2 (Zpos m) + 1.
Proof. rewrite digits2_size. destruct m; cbn; lia. Qed.

Section Location.

Local Open Scope Q_scope.

Lemma loc_of_frac_comp f g : f == g -> loc_of_frac f = loc_of_frac g.
Proof.
  intros E. unfold loc_of_frac.
  rewrite (Qeqb_comp _ _ E 0 0 (Qeq_refl 0)).
  rewrite (Qcompare_comp _ _ E (1 # 2) (1 # 2) (Qeq_refl _)). reflexivity.
Qed.

Lemma loc_of_frac_zero f : f == 0 -> loc_of_frac f = loc_Exact.
Proof. intros E. rewrite (loc_of_frac_comp f 0 E). reflexivity. Qed.

Lemma loc_of_frac_half f : f == 1 # 2 -> loc_of_frac f = loc_Inexact Eq.
Proof. intros E. rewrite (loc_of_frac_comp f (1 # 2) E). reflexivity. Qed.

Lemma Qeq_bool_pos f : 0 < f -> Qeq_bool f 0 = false.
Proof.
  intros P. destruct (Qeq_bool f 0) eqn:E; [|reflexivity].
  apply Qeq_bool_iff in E. rewrite E in P. discriminate P.
Qed.

Lemma loc_of_frac_below f : 0 < f -> f < 1 # 2 -> loc_of_frac f = loc_Inexact Lt.
Proof.
  intros P H. unfold loc_of_frac. rewrite (Qeq_bool_pos f P).
  assert (C : Qcompare f (1 # 2) = Lt) by (apply Qlt_alt; exact H).
  rewrite C. reflexivity.
Qed.

Lemma loc_of_frac_above f : 1 # 2 < f -> loc_of_frac f = loc_Inexact Gt.
Proof.
  intros H. unfold loc_of_frac.
  assert (P : 0 < f) by (eapply Qlt_trans; [|exact H]; reflexivity).
  rewrite (Qeq_bool_pos f P).
  assert (C : Qcompare f (1 # 2) = Gt) by (apply Qgt_alt; exact H).
  rewrite C. reflexivity.
Qed.

Lemma sticky_of_loc m r s f :
  loc_of_shr_record {| shr_m := m; shr_r := r; shr_s := s |} = loc_of_frac f ->
  r || s = negb (Qeq_bool f 0).
Proof.
  unfold loc_of_frac, loc_of_shr_record.
  destruct (Qeq_bool f 0), r, s; cbn; intros H; try discriminate H; reflexivity.
Qed.

Lemma Qpos_of_nonzero f : 0 <= f -> Qeq_bool f 0 = false -> 0 < f.
Proof.
  intros F0 E. apply Qeq_bool_neq in E.
  destruct (Qlt_le_dec 0 f) as [L|G]; [exact L|].
  exfalso. apply E. apply Qle_antisym; assumption.
Qed.

(** One step of the shift halves the fraction and adds the bit it
    discards. *)
Lemma shr_1_frac m r s f :
  (0 <= m)%Z -> 0 <= f -> f < 1 ->
  loc_of_shr_record {| shr_m := m; shr_r := r; shr_s := s |} = loc_of_frac f ->
  loc_of_shr_record (shr_1 {| shr_m := m; shr_r := r; shr_s := s |})
  = loc_of_frac ((f + inject_Z (m mod 2)) / 2).
Proof.
  intros Hm F0 F1 H. rewrite (shr_1_nonneg m r s Hm).
  rewrite (sticky_of_loc m r s f H). rewrite Zmod_odd.
  unfold loc_of_shr_record.
  destruct (Z.odd m); destruct (Qeq_bool f 0) eqn:E; cbn [negb].
  - apply Qeq_bool_iff in E. symmetry. apply loc_of_frac_half.
    rewrite E. reflexivity.
  - apply (Qpos_of_nonzero f F0) in E. symmetry. apply loc_of_frac_above.
    change (inject_Z 1) with 1.
    apply Qlt_shift_div_l; [reflexivity|].
    assert (H2 : (1 # 2) * 2 == 1) by reflexivity. lra.
  - apply Qeq_bool_iff in E. symmetry. apply loc_of_frac_zero.
    rewrite E. reflexivity.
  - apply (Qpos_of_nonzero f F0) in E. symmetry.
    change (inject_Z 0) with 0. apply loc_of_frac_below.
    + apply Qlt_shift_div_l; [reflexivity|]. lra.
    + apply Qlt_shift_div_r; [reflexivity|].
      assert (H2 : (1 # 2) * 2 == 1) by reflexivity. lra.
Qed.

Lemma inject_Z_pos z : (0 < z)%Z -> 0 < inject_Z z.
Proof. intros H. change 0 with (inject_Z 0). rewrite <- Zlt_Qlt. exact H. Qed.

Lemma inject_Z_nonneg z : (0 <= z)%Z -> 0 <= inject_Z z.
Proof. intros H. change 0 with (inject_Z 0). rewrite <- Zle_Qle. exact H. Qed.

Lemma inject_Z_nz z : (0 < z)%Z -> ~ inject_Z z == 0.
Proof. intros H C. apply inject_Z_pos in H. rewrite C in H. discriminate H. Qed.

(** The fraction left by a remainder [rem] of a step [P] and a fraction
    [f] below it. *)
Lemma frac_bounds rem P f :
  (0 <= rem < P)%Z -> 0 <= f -> f < 1 ->
  0 <= (inject_Z rem + f) / inject_Z P /\ (inject_Z rem + f) / inject_Z P < 1.
Proof.
  intros [R0 R1] F0 F1.
  assert (PP : 0 < inject_Z P) by (apply inject_Z_pos; lia).
  assert (I0 : 0 <= inject_Z rem) by (apply inject_Z_nonneg; exact R0).
  assert (I1 : inject_Z rem + 1 <= inject_Z P).
  { change 1 with (inject_Z 1). rewrite <- inject_Z_plus, <- Zle_Qle. lia. }
  split.
  - apply Qle_shift_div_l; [exact PP|]. lra.
  - apply Qlt_shift_div_r; [exact PP|]. lra.
Qed.

(** After [k] steps the record holds the quotient by [2^k], and the
    location of what was discarded. *)
Lemma shr_iter m0 f k :
  (0 <= m0)%Z -> 0 <= f -> f < 1 ->
  let rec := Nat.iter k shr_1 (shr_record_of_loc m0 (loc_of_frac f)) in
  shr_m rec = (m0 / 2 ^ Z.of_nat k)%Z /\
  loc_of_shr_record rec
  = loc_of_frac ((inject_Z (m0 mod 2 ^ Z.of_nat k) + f) / inject_Z (2 ^ Z.of_nat k)).
Proof.
  intros Hm F0 F1. induction k as [|k [IHm IHl]].
  - cbv zeta. cbn [Nat.iter nat_rect]. rewrite shr_record_of_loc_m, loc_of_shr_record_of_loc.
    change (2 ^ Z.of_nat 0)%Z with 1%Z. rewrite Z.div_1_r, Z.mod_1_r.
    split; [reflexivity|]. apply loc_of_frac_comp.
    change (inject_Z 0) with 0. change (inject_Z 1) with 1. field.
  - cbv zeta in *. rewrite Nat.iter_succ.
    destruct (Nat.iter k shr_1 _) as [m r s]. cbn [shr_m] in IHm.
    assert (P : (0 < 2 ^ Z.of_nat k)%Z) by (apply Z.pow_pos_nonneg; lia).
    assert (Hm' : (0 <= m)%Z) by (rewrite IHm; apply Z.div_pos; lia).
    pose proof (Z.mod_pos_bound m0 (2 ^ Z.of_nat k) P) as B.
    destruct (frac_bounds _ _ f B F0 F1) as [G0 G1].
    rewrite (shr_1_frac m r s _ Hm' G0 G1 IHl).
    rewrite (shr_1_nonneg m r s Hm'). cbn [shr_m].
    rewrite Nat2Z.inj_succ, Z.pow_succ_r by lia.
    split.
    + rewrite IHm. rewrite Z.div_div by lia. f_equal. lia.
    + apply loc_of_frac_comp.
      rewrite (Z.mul_comm 2), Z.rem_mul_r by lia. rewrite <- IHm.
      rewrite !inject_Z_plus, !inject_Z_mult.
      change (inject_Z 2) with 2. field.
      apply inject_Z_nz. exact P.
Qed.

Lemma Qfloor_unique z x : inject_Z z <= x -> x < inject_Z z + 1 -> Qfloor x = z.
Proof.
  intros H1 H2.
  pose proof (Qfloor_resp_le _ _ H1) as L. rewrite Qfloor_Z in L.
  pose proof (Qfloor_le x) as U.
  assert (U' : inject_Z (Qfloor x) < inject_Z (z + 1)).
  { rewrite inject_Z_plus. change (inject_Z 1) with 1. lra. }
  rewrite <- Zlt_Qlt in U'. lia.
Qed.

(** Rounding to nearest even by the location is [round_half_even] on the
    exact value. *)
Lemma round_nearest_even_frac M f :
  0 <= f -> f < 1 ->
  round_nearest_even M (loc_of_frac f) = round_half_even (inject_Z M + f).
Proof.
  intros F0 F1. unfold round_half_even.
  rewrite (Qfloor_unique M (inject_Z M + f)) by lra.
  assert (E : inject_Z M + f - inject_Z M == f) by ring.
  rewrite (Qcompare_comp _ _ E (1 # 2) (1 # 2) (Qeq_refl _)).
  unfold loc_of_frac, round_nearest_even.
  destruct (Qeq_bool f 0) eqn:Z0.
  - apply Qeq_bool_iff in Z0.
    rewrite (Qcompare_comp _ _ Z0 (1 # 2) (1 # 2) (Qeq_refl _)). reflexivity.
  - destruct (Qcompare f (1 # 2)); reflexivity.
Qed.

End Location.

Section RoundAux.

Local Open Scope Q_scope.

Lemma binary64_round_comp p p' : p == p' -> binary64_round p = binary64_round p'.
Proof.
  intros E. unfold binary64_round.
  rewrite (Qcompare_comp _ _ E 0 0 (Qeq_refl _)).
  destruct (Qcompare_spec p' 0) as [Z0|L|G].
  - reflexivity.
  - assert (P : 0 < - p) by lra.
    assert (E' : - p == - p') by (rewrite E; reflexivity).
    pose proof (round_mag_comp _ _ P E') as R.
    rewrite (Qleb_comp _ _ (Qeq_refl (pow2 1024)) _ _ R).
    rewrite (Qeqb_comp _ _ R 0 0 (Qeq_refl 0)).
    rewrite (Qred_complete _ _ (Qopp_comp _ _ R)). reflexivity.
  - assert (P : 0 < p) by lra.
    pose proof (round_mag_comp _ _ P E) as R.
    rewrite (Qleb_comp _ _ (Qeq_refl (pow2 1024)) _ _ R).
    rewrite (Qred_complete _ _ R). reflexivity.
Qed.

Lemma mantissa_value_pos m e : 0 < inject_Z (Zpos m) * pow2 e.
Proof.
  pose proof (pow2_pos e). assert (0 < inject_Z (Zpos m)) by reflexivity. nra.
Qed.

(** The significand that [round_mag] computes has at most 54 bits, and at
    least 53 outside the subnormal range. *)
Lemma round_significand_bounds a :
  0 < a ->
  (0 <= round_half_even (a / pow2 (ulp_exp a)) <= 2 ^ 53)%Z /\
  ((-1074 < ulp_exp a)%Z -> (2 ^ 52 <= round_half_even (a / pow2 (ulp_exp a)))%Z).
Proof.
  intros Pa. destruct (qlog2_spec a Pa) as [A1 A2].
  set (u := ulp_exp a). pose proof (pow2_pos u) as Pu.
  assert (Hdiv : forall x y, x <= y -> x / pow2 u <= y / pow2 u).
  { intros x y H. apply Qmult_le_compat_r; [exact H|].
    apply Qlt_le_weak, Qinv_lt_0_compat, Pu. }
  split; [split|].
  - apply round_half_even_nonneg. apply Qlt_le_weak, Qlt_shift_div_l; [exact Pu | lra].
  - assert (Hb : a <= pow2 (u + 53)).
    { apply Qlt_le_weak. eapply Qlt_le_trans; [exact A2|].
      apply pow2_le. unfold u, ulp_exp. lia. }
    apply Hdiv, round_half_even_mono in Hb.
    rewrite scaled_pow2 in Hb. replace (u + 53 - u)%Z with 53%Z in Hb by lia.
    rewrite (pow2_inject 53) in Hb by lia. rewrite round_half_even_inject in Hb. exact Hb.
  - intros Hn.
    assert (Hb : pow2 (u + 52) <= a).
    { eapply Qle_trans; [|exact A1]. apply pow2_le. unfold u, ulp_exp in *. lia. }
    apply Hdiv, round_half_even_mono in Hb.
    rewrite scaled_pow2 in Hb. replace (u + 52 - u)%Z with 52%Z in Hb by lia.
    rewrite (pow2_inject 52) in Hb by lia. rewrite round_half_even_inject in Hb. exact Hb.
Qed.

Lemma binary64_round_pos_value q :
  0 < q ->
  binary64_round q =
  if Qle_bool (pow2 1024) (round_mag q) then FInf false
  else FFin (Qred (round_mag q)).
Proof.
  intros P. unfold binary64_round.
  assert (C : Qcompare q 0 = Gt) by (apply Qgt_alt; exact P).
  rewrite C. reflexivity.
Qed.

Lemma binary64_round_neg_value q :
  0 < q ->
  binary64_round (- q) =
  if Qle_bool (pow2 1024) (round_mag q) then FInf true
  else if Qeq_bool (round_mag q) 0 then FNegZero
  else FFin (Qred (- round_mag q)).
Proof.
  intros P. unfold binary64_round.
  assert (L : - q < 0) by lra.
  assert (C : Qcompare (- q) 0 = Lt) by (apply Qlt_alt; exact L).
  rewrite C.
  assert (P' : 0 < - - q) by lra.
  pose proof (round_mag_comp (- - q) q P' (Qopp_involutive q)) as R.
  rewrite (Qleb_comp _ _ (Qeq_refl (pow2 1024)) _ _ R).
  rewrite (Qeqb_comp _ _ R 0 0 (Qeq_refl 0)).
  rewrite (Qred_complete _ _ (Qopp_comp _ _ R)). reflexivity.
Qed.

(** The first shift of [binary_round_aux] brings the significand [m0],
    followed by the fraction [f], to the exponent of the unit in the last
    place of the exact value [x]; what it discards decides the rounding. *)
Lemma first_shift m0 e f x :
  (0 <= m0)%Z -> 0 <= f -> f < 1 ->
  x == (inject_Z m0 + f) * pow2 e ->
  fexp 53 1024 (Zdigits2 m0 + e) = ulp_exp x ->
  (e <= ulp_exp x)%Z ->
  exists rec,
    shr_fexp 53 1024 m0 e (loc_of_frac f) = (rec, ulp_exp x) /\
    round_nearest_even (shr_m rec) (loc_of_shr_record rec)
    = round_half_even (x / pow2 (ulp_exp x)).
Proof.
  intros Hm F0 F1 Hx Hf Hn. unfold shr_fexp. rewrite Hf.
  set (u := ulp_exp x) in *.
  assert (N0 : (0 <= u - e)%Z) by lia.
  rewrite (shr_nat _ _ _ N0).
  destruct (shr_iter m0 f (Z.to_nat (u - e)) Hm F0 F1) as [Em El].
  cbv zeta in Em, El. rewrite Z2Nat.id in Em, El by lia.
  eexists. split; [f_equal; lia|].
  rewrite Em, El.
  assert (P : (0 < 2 ^ (u - e))%Z) by (apply Z.pow_pos_nonneg; lia).
  pose proof (Z.mod_pos_bound m0 (2 ^ (u - e)) P) as B.
  destruct (frac_bounds _ _ f B F0 F1) as [G0 G1].
  rewrite (round_nearest_even_frac _ _ G0 G1).
  apply round_half_even_comp. rewrite Hx.
  rewrite (Z_div_mod_eq_full m0 (2 ^ (u - e))) at 3.
  rewrite inject_Z_plus, inject_Z_mult.
  rewrite <- (pow2_inject (u - e)) by lia. rewrite pow2_sub.
  field. split; apply pow2_nz.
Qed.

(** The second shift acts only when the rounding carried into a 54th
    bit. *)
Lemma second_shift M u :
  (-1074 <= u)%Z -> (0 <= M <= 2 ^ 53)%Z ->
  shr_fexp 53 1024 M u loc_Exact =
  if (M =? 2 ^ 53)%Z
  then ({| shr_m := 2 ^ 52; shr_r := false; shr_s := false |}, (u + 1)%Z)
  else ({| shr_m := M; shr_r := false; shr_s := false |}, u).
Proof.
  intros Hu HM. unfold shr_fexp. cbn [shr_record_of_loc].
  destruct (Z.eqb_spec M (2 ^ 53)) as [E|N].
  - subst M. change (Zdigits2 (2 ^ 53)) with 54%Z.
    replace (fexp 53 1024 (54 + u) - u)%Z with 1%Z by (unfold fexp, emin; lia).
    reflexivity.
  - assert (D : (Zdigits2 M <= 53)%Z).
    { destruct M as [|p|p]; [cbn; lia | | lia].
      cbn [Zdigits2]. rewrite digits2_log2.
      assert (Z.log2 (Zpos p) < 53)%Z by (apply Z.log2_lt_pow2; lia). lia. }
    assert (S : (fexp 53 1024 (Zdigits2 M + u) - u <= 0)%Z)
      by (unfold fexp, emin; lia).
    destruct (fexp 53 1024 (Zdigits2 M + u) - u)%Z; [reflexivity | lia | reflexivity].
Qed.

Lemma significand_below m u :
  (m < 2 ^ 53)%Z -> (u <= 971)%Z -> inject_Z m * pow2 u < pow2 1024.
Proof.
  intros Hm Hu. pose proof (pow2_pos u) as Pu.
  assert (H1 : inject_Z m < pow2 53).
  { rewrite (pow2_inject 53) by lia. rewrite <- Zlt_Qlt. exact Hm. }
  assert (H2 : pow2 (53 + u) <= pow2 1024) by (apply pow2_le; lia).
  rewrite pow2_add in H2.
  eapply Qlt_le_trans; [|exact H2]. apply Qmult_lt_compat_r; assumption.
Qed.

Lemma significand_above m u :
  (2 ^ 52 <= m)%Z -> (972 <= u)%Z -> pow2 1024 <= inject_Z m * pow2 u.
Proof.
  intros Hm Hu. pose proof (pow2_pos u) as Pu.
  assert (H1 : pow2 52 <= inject_Z m).
  { rewrite (pow2_inject 52) by lia. rewrite <- Zle_Qle. exact Hm. }
  assert (H2 : pow2 1024 <= pow2 (52 + u)) by (apply pow2_le; lia).
  rewrite pow2_add in H2.
  eapply Qle_trans; [exact H2|].
  apply Qmult_le_compat_r; [exact H1 | apply Qlt_le_weak; exact Pu].
Qed.

(** The value of a result of [SpecFloat] and the sign it carries. *)
Lemma of_spec_finite s m e r :
  r == inject_Z (Zpos m) * pow2 e ->
  of_spec_float (S754_finite s m e) = FFin (Qred (if s then - r else r)).
Proof.
  intros E. unfold of_spec_float. f_equal. apply Qred_complete.
  destruct s; rewrite E; ring.
Qed.

(** [binary_round_aux] of [SpecFloat] at binary64 is [binary64_round]: on
    a significand [m0] followed by a fraction [f], it gives the double
    nearest to the exact value [x], ties to even. *)
Lemma binary_round_aux_frac (s : bool) m0 e f x :
  (0 <= m0)%Z -> 0 <= f -> f < 1 -> 0 < x ->
  x == (inject_Z m0 + f) * pow2 e ->
  fexp 53 1024 (Zdigits2 m0 + e) = ulp_exp x ->
  (e <= ulp_exp x)%Z ->
  of_spec_float (binary_round_aux 53 1024 s m0 e (loc_of_frac f))
  = binary64_round ((if s then -1 else 1) * x).
Proof.
  intros Hm0 F0 F1 Pq Hx Hf Hn.
  destruct (first_shift m0 e f x Hm0 F0 F1 Hx Hf Hn) as [rec [Hshr HM]].
  set (u := ulp_exp x) in *.
  set (M := round_half_even (x / pow2 u)) in *.
  destruct (round_significand_bounds x Pq) as [[M0 M1] M2]. fold u M in M0, M1, M2.
  assert (Hu : (-1074 <= u)%Z) by (unfold u, ulp_exp; lia).
  assert (R : round_mag x = inject_Z M * pow2 u) by reflexivity.
  pose proof (pow2_pos u) as Pu.
  (* the result of the model *)
  assert (Model :
    binary64_round ((if s then -1 else 1) * x) =
    if Qle_bool (pow2 1024) (inject_Z M * pow2 u) then FInf s
    else if (M =? 0)%Z then signed_zero s
    else FFin (Qred (if s then - (inject_Z M * pow2 u) else inject_Z M * pow2 u))).
  { destruct s.
    - rewrite (binary64_round_comp (-1 * x) (- x)) by ring.
      rewrite (binary64_round_neg_value x Pq), R.
      destruct (Qle_bool (pow2 1024) (inject_Z M * pow2 u)); [reflexivity|].
      destruct (Z.eqb_spec M 0) as [E|N].
      + rewrite E. reflexivity.
      + destruct (Qeq_bool (inject_Z M * pow2 u) 0) eqn:B; [|reflexivity].
        apply Qeq_bool_iff in B. exfalso.
        assert (0 < inject_Z M) by (apply inject_Z_pos; lia).
        nra.
    - rewrite (binary64_round_comp (1 * x) x) by ring.
      rewrite (binary64_round_pos_value x Pq), R.
      destruct (Qle_bool (pow2 1024) (inject_Z M * pow2 u)); [reflexivity|].
      destruct (Z.eqb_spec M 0) as [E|N]; [|reflexivity].
      rewrite E. reflexivity. }
  rewrite Model. clear Model.
  (* the result of SpecFloat *)
  unfold binary_round_aux. rewrite Hshr, HM.
  rewrite (second_shift M u Hu (conj M0 M1)).
  destruct (Z.eqb_spec M (2 ^ 53)) as [E53|N53].
  - cbn [shr_m]. change (2 ^ 52)%Z with 4503599627370496%Z.
    change (1024 - 53)%Z with 971%Z.
    assert (V : inject_Z M * pow2 u == inject_Z 4503599627370496 * pow2 (u + 1)).
    { rewrite E53, pow2_add.
      change (inject_Z (2 ^ 53)) with (inject_Z 4503599627370496 * pow2 1).
      ring. }
    destruct (Z.leb_spec (u + 1) 971) as [L|G].
    + assert (B : Qle_bool (pow2 1024) (inject_Z M * pow2 u) = false).
      { destruct (Qle_bool _ _) eqn:B; [|reflexivity]. apply Qle_bool_iff in B.
        pose proof (significand_below 4503599627370496 (u + 1) ltac:(lia) L). lra. }
      rewrite B. rewrite E53. change (2 ^ 53 =? 0)%Z with false. cbn iota.
      rewrite <- E53. apply of_spec_finite. exact V.
    + assert (B : Qle_bool (pow2 1024) (inject_Z M * pow2 u) = true).
      { apply Qle_bool_iff. rewrite V. apply significand_above; lia. }
      rewrite B. reflexivity.
  - cbn [shr_m]. change (1024 - 53)%Z with 971%Z.
    destruct M as [|pm|pm]; [| |lia].
    + assert (B : Qle_bool (pow2 1024) (inject_Z 0 * pow2 u) = false).
      { destruct (Qle_bool _ _) eqn:B; [|reflexivity]. apply Qle_bool_iff in B.
        change (inject_Z 0) with 0 in B. rewrite Qmult_0_l in B.
        pose proof (pow2_pos 1024). lra. }
      rewrite B. reflexivity.
    + destruct (Z.leb_spec u 971) as [L|G].
      * assert (B : Qle_bool (pow2 1024) (inject_Z (Zpos pm) * pow2 u) = false).
        { destruct (Qle_bool _ _) eqn:B; [|reflexivity]. apply Qle_bool_iff in B.
          pose proof (significand_below (Zpos pm) u ltac:(lia) L). lra. }
        rewrite B. cbn [Z.eqb]. apply of_spec_finite. reflexivity.
      * assert (B : Qle_bool (pow2 1024) (inject_Z (Zpos pm) * pow2 u) = true).
        { apply Qle_bool_iff. apply significand_above; lia. }
        rewrite B. reflexivity.
Qed.

Lemma qlog2_mantissa m e :
  qlog2 (inject_Z (Zpos m) * pow2 e) = (Z.log2 (Zpos m) + e)%Z.
Proof.
  destruct (Z.log2_spec (Zpos m) ltac:(lia)) as [L1 L2].
  pose proof (Z.log2_nonneg (Zpos m)) as L0.
  pose proof (pow2_pos e) as Pe.
  apply qlog2_unique.
  - rewrite pow2_add, (pow2_inject (Z.log2 (Zpos m))) by lia.
    apply Qmult_le_compat_r; [|apply Qlt_le_weak; exact Pe].
    rewrite <- Zle_Qle. exact L1.
  - replace (Z.log2 (Zpos m) + e + 1)%Z with (Z.succ (Z.log2 (Zpos m)) + e)%Z by lia.
    rewrite pow2_add, (pow2_inject (Z.succ (Z.log2 (Zpos m)))) by lia.
    apply Qmult_lt_compat_r; [exact Pe|].
    rewrite <- Zlt_Qlt. exact L2.
Qed.

Lemma ulp_exp_mantissa m e :
  ulp_exp (inject_Z (Zpos m) * pow2 e) = fexp 53 1024 (Zpos (digits2_pos m) + e).
Proof.
  unfold ulp_exp, fexp, emin. rewrite qlog2_mantissa, digits2_log2. lia.
Qed.

(** The case of an exact significand. *)
Lemma binary_round_aux_exact s m e :
  (e <= fexp 53 1024 (Zpos (digits2_pos m) + e))%Z ->
  of_spec_float (binary_round_aux 53 1024 s (Zpos m) e loc_Exact)
  = binary64_round (spec_value s m e).
Proof.
  intros Hn. rewrite <- ulp_exp_mantissa in Hn.
  change loc_Exact with (loc_of_frac 0). unfold spec_value.
  apply binary_round_aux_frac.
  - lia.
  - apply Qle_refl.
  - reflexivity.
  - apply mantissa_value_pos.
  - ring.
  - symmetry. apply ulp_exp_mantissa.
  - exact Hn.
Qed.

End RoundAux.

Section SpecValue.

Local Open Scope Q_scope.

Lemma fvalue_of_spec s m e :
  fvalue (of_spec_float (S754_finite s m e)) == spec_value s m e.
Proof.
  unfold of_spec_float, fvalue, spec_value. rewrite Qred_correct. ring.
Qed.

Lemma spec_value_sign (s : bool) m e :
  if s then spec_value s m e < 0 else 0 < spec_value s m e.
Proof.
  pose proof (mantissa_value_pos m e) as P. unfold spec_value.
  destruct s; lra.
Qed.

Lemma spec_value_nz s m e : ~ spec_value s m e == 0.
Proof.
  pose proof (spec_value_sign s m e) as S. intros C. destruct s; lra.
Qed.

Lemma Qneg_bool_neg q : q < 0 -> Qneg_bool q = true.
Proof.
  intros H. unfold Qneg_bool. destruct (Qle_bool 0 q) eqn:E; [|reflexivity].
  apply Qle_bool_iff in E. lra.
Qed.

Lemma Qneg_bool_pos q : 0 <= q -> Qneg_bool q = false.
Proof.
  intros H. unfold Qneg_bool. apply Qle_bool_iff in H. rewrite H. reflexivity.
Qed.

Lemma fsign_of_spec s m e : fsign (of_spec_float (S754_finite s m e)) = s.
Proof.
  pose proof (fvalue_of_spec s m e) as V.
  pose proof (spec_value_sign s m e) as S.
  unfold of_spec_float in *. cbn [fsign fvalue] in *.
  destruct s; [apply Qneg_bool_neg | apply Qneg_bool_pos]; lra.
Qed.

Lemma fis_zero_of_spec s m e :
  fis_zero (of_spec_float (S754_finite s m e)) = false.
Proof.
  pose proof (fvalue_of_spec s m e) as V.
  pose proof (spec_value_nz s m e) as S.
  unfold of_spec_float in *. cbn [fis_zero fvalue] in *.
  destruct (Qeq_bool _ 0) eqn:E; [|reflexivity].
  apply Qeq_bool_iff in E. exfalso. apply S. rewrite <- V. exact E.
Qed.

Lemma fsign_signed_zero s : fsign (signed_zero s) = s.
Proof. destruct s; reflexivity. Qed.

Lemma fis_zero_signed_zero s : fis_zero (signed_zero s) = true.
Proof. destruct s; reflexivity. Qed.

Lemma fvalue_signed_zero s : fvalue (signed_zero s) = 0.
Proof. destruct s; reflexivity. Qed.

Lemma spec_value_mul sx mx ex sy my ey :
  spec_value sx mx ex * spec_value sy my ey
  == spec_value (xorb sx sy) (mx * my) (ex + ey).
Proof.
  unfold spec_value. rewrite pow2_add.
  rewrite Pos2Z.inj_mul, inject_Z_mult.
  destruct sx, sy; cbn [xorb]; ring.
Qed.

Lemma spec_value_div sx mx ex sy my ey :
  spec_value sx mx ex / spec_value sy my ey
  == (if xorb sx sy then -1 else 1)
     * (inject_Z (Zpos mx) * pow2 ex / (inject_Z (Zpos my) * pow2 ey)).
Proof.
  unfold spec_value.
  assert (N1 : ~ inject_Z (Zpos my) == 0) by (apply inject_Z_nz; lia).
  pose proof (pow2_nz ey) as N2.
  destruct sx, sy; cbn [xorb]; field; split; assumption.
Qed.

Lemma fmul_finite_nonzero qx qy p :
  qx * qy == p -> ~ p == 0 ->
  fmul (FFin qx) (FFin qy) = binary64_round p.
Proof.
  intros E N. unfold fmul. cbn [fvalue].
  destruct (Qeq_bool (qx * qy) 0) eqn:B.
  - apply Qeq_bool_iff in B. rewrite E in B. contradiction.
  - apply binary64_round_comp. exact E.
Qed.

Lemma fmul_zero_l s y :
  fis_finite y = true -> fmul (signed_zero s) y = signed_zero (xorb s (fsign y)).
Proof.
  intros F. destruct y as [q| | |]; try discriminate F.
  - unfold fmul. rewrite fvalue_signed_zero, fsign_signed_zero.
    assert (E : Qeq_bool (0 * fvalue (FFin q)) 0 = true)
      by (apply Qeq_bool_iff; ring).
    rewrite E. destruct s; reflexivity.
  - destruct s; reflexivity.
Qed.

Lemma fmul_zero_r x s :
  fis_finite x = true -> fmul x (signed_zero s) = signed_zero (xorb (fsign x) s).
Proof.
  intros F. destruct x as [q| | |]; try discriminate F.
  - unfold fmul. rewrite fvalue_signed_zero, fsign_signed_zero.
    assert (E : Qeq_bool (fvalue (FFin q) * 0) 0 = true)
      by (apply Qeq_bool_iff; ring).
    rewrite E. destruct s; reflexivity.
  - destruct s; reflexivity.
Qed.

End SpecValue.

(** ** Multiplication *)

Lemma bounded_canonical m e :
  bounded 53 1024 m e = true ->
  Zpos (digits2_pos m) <= 53 /\ -1074 <= e /\
  (Zpos (digits2_pos m) < 53 -> e = -1074).
Proof.
  unfold bounded, canonical_mantissa, fexp, emin. intros H.
  apply andb_true_iff in H. destruct H as [H _].
  apply Z.eqb_eq in H. lia.
Qed.

Lemma product_exponent mx ex my ey :
  bounded 53 1024 mx ex = true -> bounded 53 1024 my ey = true ->
  ex + ey <= fexp 53 1024 (Zpos (digits2_pos (mx * my)) + (ex + ey)).
Proof.
  intros Hx Hy.
  apply bounded_canonical in Hx. apply bounded_canonical in Hy.
  rewrite !digits2_log2 in *.
  pose proof (Z.log2_mul_below (Zpos mx) (Zpos my) eq_refl eq_refl) as L.
  rewrite <- Pos2Z.inj_mul in L.
  pose proof (Z.log2_nonneg (Zpos mx)). pose proof (Z.log2_nonneg (Zpos my)).
  unfold fexp, emin. lia.
Qed.

(** X23: multiplication of doubles, as in [percent * length], is the
    multiplication of [SpecFloat] at binary64. *)
Theorem fmul_SFmul x y :
  valid_binary 53 1024 x = true -> valid_binary 53 1024 y = true ->
  fmul (of_spec_float x) (of_spec_float y) = of_spec_float (SFmul 53 1024 x y).
Proof.
  intros Vx Vy.
  destruct x as [sx|sx| |sx mx ex], y as [sy|sy| |sy my ey];
    try reflexivity;
    try (destruct sx, sy; reflexivity); try (destruct sx; reflexivity);
    try (destruct sy; reflexivity).
  - cbn [SFmul]. change (of_spec_float (S754_zero sx)) with (signed_zero sx).
    rewrite fmul_zero_l by reflexivity. rewrite fsign_of_spec. reflexivity.
  - cbn [SFmul]. pose proof (fsign_of_spec sy my ey) as S.
    pose proof (fis_zero_of_spec sy my ey) as Z.
    unfold of_spec_float in *. unfold fmul. rewrite Z, S. reflexivity.
  - cbn [SFmul]. change (of_spec_float (S754_zero sy)) with (signed_zero sy).
    rewrite fmul_zero_r by reflexivity. rewrite fsign_of_spec. reflexivity.
  - cbn [SFmul]. pose proof (fsign_of_spec sx mx ex) as S.
    pose proof (fis_zero_of_spec sx mx ex) as Z.
    unfold of_spec_float in *. unfold fmul. rewrite Z, S.
    rewrite xorb_comm. reflexivity.
  - cbn [SFmul valid_binary] in *.
    rewrite (binary_round_aux_exact _ _ _ (product_exponent _ _ _ _ Vx Vy)).
    apply fmul_finite_nonzero.
    + rewrite <- spec_value_mul, <- !fvalue_of_spec. reflexivity.
    + apply spec_value_nz.
Qed.

(** ** Conversion of an integer *)

Lemma shift_pos_value d m : Zpos (shift_pos d m) = Zpos m * 2 ^ Zpos d.
Proof. rewrite shift_pos_correct, Z.pow_pos_fold. lia. Qed.

Lemma binary_round_spec s m e :
  of_spec_float (binary_round 53 1024 s m e) = binary64_round (spec_value s m e).
Proof.
  unfold binary_round, shl_align.
  destruct (fexp 53 1024 (Zpos (digits2_pos m) + e) - e) as [|p|d] eqn:D.
  - apply binary_round_aux_exact. lia.
  - apply binary_round_aux_exact. lia.
  - fold (shift_pos d m).
    assert (V : Zpos (shift_pos d m) = Zpos m * 2 ^ Zpos d) by apply shift_pos_value.
    assert (G : Zpos (digits2_pos (shift_pos d m)) = Zpos (digits2_pos m) + Zpos d).
    { rewrite !digits2_log2, V, Z.log2_mul_pow2 by lia. lia. }
    rewrite binary_round_aux_exact.
    + apply binary64_round_comp. unfold spec_value.
      set (F := fexp 53 1024 (Zpos (digits2_pos m) + e)) in *.
      assert (Ee : (pow2 e == pow2 F * pow2 (Zpos d))%Q).
      { rewrite <- pow2_add. replace (F + Zpos d) with e by lia. reflexivity. }
      rewrite V, inject_Z_mult, <- (pow2_inject (Zpos d)) by lia.
      rewrite Ee. ring.
    + rewrite G.
      replace (Zpos (digits2_pos m) + Zpos d
               + fexp 53 1024 (Zpos (digits2_pos m) + e))
        with (Zpos (digits2_pos m) + e + (fexp 53 1024 (Zpos (digits2_pos m) + e) - e + Zpos d)) by lia.
      rewrite D. replace (Z.neg d + Zpos d) with 0 by lia.
      rewrite Z.add_0_r. lia.
Qed.

(** The double nearest to an integer is the one [binary_normalize] of
    [SpecFloat] gives. *)
Theorem binary64_round_int_normalize n :
  binary64_round (inject_Z n) = of_spec_float (binary_normalize 53 1024 n 0 false).
Proof.
  destruct n as [|m|m]; cbn [binary_normalize].
  - reflexivity.
  - rewrite binary_round_spec. apply binary64_round_comp.
    unfold spec_value. change (pow2 0) with 1%Q. ring.
  - rewrite binary_round_spec. apply binary64_round_comp.
    unfold spec_value. change (pow2 0) with 1%Q.
    change (inject_Z (Z.neg m)) with (- inject_Z (Zpos m))%Q. ring.
Qed.

(** ** Division *)

Lemma Qcompare_half rem step :
  0 < step -> Qcompare (inject_Z rem / inject_Z step) (1 # 2) = (2 * rem ?= step).
Proof.
  intros H. destruct step as [|p|p]; try lia.
  unfold Qdiv, Qinv, Qmult, Qcompare, inject_Z. cbn [Qnum Qden].
  rewrite Pos.mul_1_l. f_equal; lia.
Qed.

(** The location [SpecFloat] computes for a remainder [r] of a division
    by [nb] is that of the fraction [r / nb]. *)
Lemma new_location_frac nb r :
  0 <= r < nb -> new_location nb r = loc_of_frac (inject_Z r / inject_Z nb).
Proof.
  intros [R0 R1]. assert (P : 0 < nb) by lia.
  unfold new_location, loc_of_frac.
  destruct (Z.eqb_spec r 0) as [E|N].
  - subst r. destruct (Z.even nb); reflexivity.
  - assert (F : (0 < inject_Z r / inject_Z nb)%Q).
    { apply Qlt_shift_div_l; [apply inject_Z_pos; exact P|].
      rewrite Qmult_0_l. apply inject_Z_pos. lia. }
    rewrite (Qeq_bool_pos _ F), (Qcompare_half r nb P).
    apply Z.eqb_neq in N.
    destruct (Z.even nb) eqn:Ev.
    + unfold new_location_even. rewrite N. reflexivity.
    + unfold new_location_odd. rewrite N. f_equal.
      rewrite <- Z.negb_odd in Ev. apply negb_false_iff in Ev.
      apply Z.odd_spec in Ev. destruct Ev as [k Ek].
      destruct (Z.compare_spec (2 * r + 1) nb), (Z.compare_spec (2 * r) nb);
        try reflexivity; lia.
Qed.

Section Quotient.

Local Open Scope Q_scope.

Variables (m1 m2 : positive) (e1 e2 : Z).

Let d1 := Zdigits2 (Zpos m1).
Let d2 := Zdigits2 (Zpos m2).
Let e' := Z.min (fexp 53 1024 (d1 + e1 - (d2 + e2))) (e1 - e2).
Let s := (e1 - e2 - e')%Z.
Let m' := (Zpos m1 * 2 ^ s)%Z.
Let q := (m' / Zpos m2)%Z.
Let r := (m' mod Zpos m2)%Z.
Let f := inject_Z r / inject_Z (Zpos m2).
Let x := inject_Z (Zpos m1) * pow2 e1 / (inject_Z (Zpos m2) * pow2 e2).

Lemma quotient_shift : (0 <= s)%Z.
Proof. unfold s, e'. lia. Qed.

Lemma quotient_core :
  SFdiv_core_binary 53 1024 (Zpos m1) e1 (Zpos m2) e2 = (q, e', loc_of_frac f).
Proof.
  pose proof quotient_shift as S0.
  unfold SFdiv_core_binary. fold d1 d2. cbv zeta. fold e'. fold s.
  assert (M : match s with
              | 0%Z => Zpos m1
              | Zpos _ => Z.shiftl (Zpos m1) s
              | Zneg _ => 0%Z
              end = m').
  { unfold m'. destruct s as [|p|p] eqn:E; [lia | | lia].
    rewrite Z.shiftl_mul_pow2 by lia. reflexivity. }
  rewrite M.
  pose proof (Z.mod_pos_bound m' (Zpos m2) eq_refl) as B. fold r in B.
  unfold Z.div, Z.modulo in q, r.
  unfold f. rewrite <- (new_location_frac (Zpos m2) r B).
  unfold q, r. destruct (Z.div_eucl m' (Zpos m2)) as [q0 r0]. reflexivity.
Qed.

Lemma quotient_pos : 0 < x.
Proof.
  unfold x. apply Qlt_shift_div_l; [apply mantissa_value_pos|].
  rewrite Qmult_0_l. apply mantissa_value_pos.
Qed.

Lemma quotient_nonneg : (0 <= q)%Z.
Proof.
  unfold q. apply Z.div_pos; [|reflexivity].
  unfold m'. pose proof quotient_shift.
  assert (0 < 2 ^ s)%Z by (apply Z.pow_pos_nonneg; lia). lia.
Qed.

Lemma quotient_frac : 0 <= f /\ f < 1.
Proof.
  pose proof (Z.mod_pos_bound m' (Zpos m2) eq_refl) as B. fold r in B.
  assert (P : 0 < inject_Z (Zpos m2)) by reflexivity.
  unfold f. split.
  - apply Qle_shift_div_l; [exact P|]. rewrite Qmult_0_l.
    apply inject_Z_nonneg. lia.
  - apply Qlt_shift_div_r; [exact P|]. rewrite Qmult_1_l.
    rewrite <- Zlt_Qlt. lia.
Qed.

Lemma quotient_value : x == (inject_Z q + f) * pow2 e'.
Proof.
  pose proof quotient_shift as S0.
  assert (E : inject_Z q + f == inject_Z m' / inject_Z (Zpos m2)).
  { unfold f. rewrite (Z_div_mod_eq_full m' (Zpos m2)) at 1. fold q r.
    rewrite inject_Z_plus, inject_Z_mult. field. discriminate. }
  rewrite E. unfold m', x.
  rewrite inject_Z_mult, <- (pow2_inject s) by exact S0.
  assert (P : pow2 e1 == pow2 s * pow2 e' * pow2 e2).
  { rewrite <- !pow2_add. replace (s + e' + e2)%Z with e1 by (unfold s; lia).
    reflexivity. }
  rewrite P. field. repeat split; first [apply pow2_nz | discriminate].
Qed.

(** Outside the subnormal range the quotient has at least 53 bits. *)
Lemma quotient_large : (e' <= -1074)%Z \/ (2 ^ 52 <= q)%Z.
Proof.
  destruct (Z.le_gt_cases e' (-1074)) as [L|G]; [left; exact L | right].
  pose proof quotient_shift as S0.
  assert (D1 : d1 = (Z.log2 (Zpos m1) + 1)%Z) by apply digits2_log2.
  assert (D2 : d2 = (Z.log2 (Zpos m2) + 1)%Z) by apply digits2_log2.
  destruct (Z.log2_spec (Zpos m1) eq_refl) as [A1 _].
  destruct (Z.log2_spec (Zpos m2) eq_refl) as [_ B2].
  pose proof (Z.log2_nonneg (Zpos m1)) as L1.
  pose proof (Z.log2_nonneg (Zpos m2)) as L2.
  assert (Hs : (52 + d2 <= d1 - 1 + s)%Z).
  { unfold s. unfold e', fexp, emin in *. lia. }
  rewrite D1, D2 in Hs.
  assert (P1 : (2 ^ (52 + (Z.log2 (Zpos m2) + 1))
                <= 2 ^ (Z.log2 (Zpos m1) + 1 - 1 + s))%Z)
    by (apply Z.pow_le_mono_r; lia).
  replace (Z.log2 (Zpos m1) + 1 - 1 + s)%Z with (Z.log2 (Zpos m1) + s)%Z in P1 by lia.
  rewrite !Z.pow_add_r in P1 by lia.
  assert (Ps : (0 < 2 ^ s)%Z) by (apply Z.pow_pos_nonneg; lia).
  assert (Hm : (2 ^ 52 * 2 ^ Z.succ (Z.log2 (Zpos m2)) <= m')%Z).
  { unfold m'. replace (Z.succ (Z.log2 (Zpos m2))) with (Z.log2 (Zpos m2) + 1)%Z by lia.
    rewrite Z.pow_add_r by lia. nia. }
  pose proof (Z.mod_pos_bound m' (Zpos m2) eq_refl) as B. fold r in B.
  pose proof (Z_div_mod_eq_full m' (Zpos m2)) as Dm. fold q r in Dm.
  pose proof quotient_nonneg as Q0.
  set (b2 := (2 ^ Z.succ (Z.log2 (Zpos m2)))%Z) in *.
  assert (Hq : (2 ^ 52 * b2 < (q + 1) * b2)%Z) by nia.
  assert (Pb : (0 < b2)%Z) by lia.
  apply Z.mul_lt_mono_pos_r in Hq; [lia | exact Pb].
Qed.

Lemma quotient_log2 : (0 < q)%Z -> qlog2 x = (Z.log2 q + e')%Z.
Proof.
  intros Q0. destruct quotient_frac as [F0 F1].
  destruct (Z.log2_spec q Q0) as [L1 L2].
  pose proof (Z.log2_nonneg q) as L0.
  pose proof (pow2_pos e') as Pe.
  apply qlog2_unique; rewrite quotient_value.
  - rewrite pow2_add, (pow2_inject (Z.log2 q)) by lia.
    apply Qmult_le_compat_r; [|apply Qlt_le_weak; exact Pe].
    rewrite Zle_Qle in L1. lra.
  - replace (Z.log2 q + e' + 1)%Z with (Z.succ (Z.log2 q) + e')%Z by lia.
    rewrite pow2_add, (pow2_inject (Z.succ (Z.log2 q))) by lia.
    apply Qmult_lt_compat_r; [exact Pe|].
    assert (L3 : (q + 1 <= 2 ^ Z.succ (Z.log2 q))%Z) by lia.
    rewrite Zle_Qle, inject_Z_plus in L3. change (inject_Z 1) with 1 in L3. lra.
Qed.

Lemma quotient_small : q = 0%Z -> (qlog2 x < e')%Z.
Proof.
  intros Q0. destruct quotient_frac as [F0 F1].
  destruct (qlog2_spec x quotient_pos) as [L1 _].
  pose proof (pow2_pos e') as Pe.
  apply pow2_lt_inv. eapply Qle_lt_trans; [exact L1|].
  rewrite quotient_value, Q0. change (inject_Z 0) with 0.
  rewrite Qplus_0_l. rewrite <- (Qmult_1_l (pow2 e')) at 2.
  apply Qmult_lt_compat_r; assumption.
Qed.

Lemma quotient_exponent :
  fexp 53 1024 (Zdigits2 q + e') = ulp_exp x /\ (e' <= ulp_exp x)%Z.
Proof.
  pose proof quotient_nonneg as Q0.
  pose proof quotient_large as QL.
  unfold ulp_exp, fexp, emin.
  destruct (Z.eq_dec q 0) as [Z0|NZ].
  - pose proof (quotient_small Z0) as S. rewrite Z0 in *. cbn [Zdigits2].
    assert (e' <= -1074)%Z by (destruct QL as [L|L]; [exact L | lia]).
    lia.
  - assert (P : (0 < q)%Z) by lia.
    rewrite (quotient_log2 P).
    assert (D : Zdigits2 q = (Z.log2 q + 1)%Z).
    { destruct q as [|p|p]; [lia | apply digits2_log2 | lia]. }
    rewrite D.
    assert (e' <= -1074 \/ 52 <= Z.log2 q)%Z.
    { destruct QL as [L|L]; [left; exact L | right].
      apply Z.log2_le_pow2; [exact P | exact L]. }
    lia.
Qed.

(** The division of two significands by [SpecFloat], rounded, is the
    double nearest to the exact quotient. *)
Lemma quotient_rounded (sg : bool) :
  of_spec_float
    (let '(mz, ez, lz) := SFdiv_core_binary 53 1024 (Zpos m1) e1 (Zpos m2) e2 in
     binary_round_aux 53 1024 sg mz ez lz)
  = binary64_round ((if sg then -1 else 1) * x).
Proof.
  rewrite quotient_core.
  destruct quotient_frac as [F0 F1]. destruct quotient_exponent as [E1 E2].
  apply binary_round_aux_frac.
  - exact quotient_nonneg.
  - exact F0.
  - exact F1.
  - exact quotient_pos.
  - exact quotient_value.
  - exact E1.
  - exact E2.
Qed.

End Quotient.

(** X24: division of doubles, as in [result /= 1024.0], is the division
    of [SpecFloat] at binary64, but for the exception Python raises where
    IEEE 754 gives an infinity or a NaN. *)
Theorem fdiv_SFdiv x y :
  fdiv (of_spec_float x) (of_spec_float y) =
  match y with
  | S754_zero _ => Raise ZeroDivisionError
  | _ => Ok (of_spec_float (SFdiv 53 1024 x y))
  end.
Proof.
  destruct y as [sy|sy| |sy my ey].
  - unfold fdiv. change (of_spec_float (S754_zero sy)) with (signed_zero sy).
    rewrite fis_zero_signed_zero. reflexivity.
  - destruct x as [sx|sx| |sx mx ex]; try reflexivity.
    + destruct sx; reflexivity.
    + unfold fdiv. pose proof (fsign_of_spec sx mx ex) as S.
      unfold of_spec_float in *. cbn [fis_zero]. rewrite S. reflexivity.
  - destruct x as [sx|sx| |sx mx ex]; try reflexivity.
    destruct sx; reflexivity.
  - unfold fdiv. rewrite fis_zero_of_spec.
    destruct x as [sx|sx| |sx mx ex].
    + change (of_spec_float (S754_zero sx)) with (signed_zero sx).
      pose proof (fsign_of_spec sy my ey) as S.
      unfold of_spec_float in *. cbn [fsign] in S.
      destruct sx; cbn [signed_zero fis_zero fsign]; rewrite S; reflexivity.
    + pose proof (fsign_of_spec sy my ey) as S.
      unfold of_spec_float in *. rewrite S. reflexivity.
    + reflexivity.
    + rewrite fis_zero_of_spec. cbn [SFdiv].
      rewrite (quotient_rounded mx my ex ey (xorb sx sy)).
      unfold of_spec_float. f_equal. apply binary64_round_comp.
      cbn [fvalue]. rewrite <- spec_value_div, <- !fvalue_of_spec. reflexivity.
Qed.

(** [float(n)] is the conversion [binary_normalize] of [SpecFloat], but
    for the exception Python raises where IEEE 754 gives an infinity. *)
Theorem float_of_int_normalize n :
  float_of_int n =
  match of_spec_float (binary_normalize 53 1024 n 0 false) with
  | FInf _ => Raise OverflowError
  | f => Ok f
  end.
Proof.
  unfold float_of_int. rewrite binary64_round_int_normalize. reflexivity.
Qed.

Lemma normalize_exact n :
  n <> 0 -> Z.abs n <= 2 ^ 53 ->
  exists s m e,
    binary_normalize 53 1024 n 0 false = S754_finite s m e /\
    (spec_value s m e == inject_Z n)%Q.
Proof.
  intros N B. destruct (float_of_int_exact n B) as [q [E V]].
  rewrite float_of_int_normalize in E.
  destruct (binary_normalize 53 1024 n 0 false) as [s|s| |s m e] eqn:D.
  - exfalso. destruct s; cbn in E; [discriminate E|].
    injection E as <-. apply N. apply eq_sym, inject_Z_injective. exact V.
  - discriminate E.
  - discriminate E.
  - exists s, m, e. split; [reflexivity|].
    rewrite <- fvalue_of_spec.
    destruct (of_spec_float (S754_finite s m e)) as [q'| | |] eqn:F;
      try discriminate E.
    injection E as <-. exact V.
Qed.

(** X25: true division of two ints that are doubles, as in
    [used_mem / total_mem], is the division of [SpecFloat]: the conversions
    lose nothing, so that one rounding of the exact quotient is all there
    is. *)
Theorem int_truediv_SFdiv a b :
  a <> 0 -> b <> 0 -> Z.abs a <= 2 ^ 53 -> Z.abs b <= 2 ^ 53 ->
  int_truediv a b =
  match of_spec_float (SFdiv 53 1024 (binary_normalize 53 1024 a 0 false)
                                      (binary_normalize 53 1024 b 0 false)) with
  | FInf _ => Raise OverflowError
  | f => Ok f
  end.
Proof.
  intros Na Nb Ba Bb.
  destruct (normalize_exact a Na Ba) as [sa [ma [ea [Ea Va]]]].
  destruct (normalize_exact b Nb Bb) as [sb [mb [eb [Eb Vb]]]].
  rewrite Ea, Eb. cbn [SFdiv].
  rewrite (quotient_rounded ma mb ea eb (xorb sa sb)).
  unfold int_truediv.
  apply Z.eqb_neq in Na, Nb. rewrite Na, Nb.
  rewrite (binary64_round_comp (inject_Z a / inject_Z b)
             ((if xorb sa sb then -1 else 1)
              * (inject_Z (Zpos ma) * pow2 ea / (inject_Z (Zpos mb) * pow2 eb)))%Q).
  - reflexivity.
  - rewrite <- spec_value_div, Va, Vb. reflexivity.
Qed.


(** ** Strings *)

Lemma length_append s t :
  String.length (s ++ t) = (String.length s + String.length t)%nat.
Proof. induction s as [|c s IH]; simpl; [reflexivity | rewrite IH; reflexivity]. Qed.

Lemma length_str_times c n : String.length (str_times (String c "") n) = n.
Proof. induction n as [|n IH]; simpl; [reflexivity | rewrite IH; reflexivity]. Qed.

Lemma count_char_append c s t :
  count_char c (s ++ t) = (count_char c s + count_char c t)%nat.
Proof.
  induction s as [|c' s IH]; simpl; [reflexivity|].
  destruct (Ascii.eqb c' c); simpl; rewrite IH; reflexivity.
Qed.

Lemma count_char_str_times_same c n : count_char c (str_times (String c "") n) = n.
Proof.
  induction n as [|n IH]; simpl; [reflexivity|].
  rewrite Ascii.eqb_refl, IH. reflexivity.
Qed.

Lemma count_char_str_times_other c d n :
  Ascii.eqb d c = false -> count_char c (str_times (String d "") n) = O.
Proof.
  intros H. induction n as [|n IH]; simpl; [reflexivity|].
  rewrite H. exact IH.
Qed.

Lemma all_chars_append p s t :
  all_chars p (s ++ t) = all_chars p s && all_chars p t.
Proof.
  induction s as [|c s IH]; simpl; [reflexivity|].
  rewrite IH, andb_assoc. reflexivity.
Qed.

Lemma all_chars_str_times p c n :
  p c = true -> all_chars p (str_times (String c "") n) = true.
Proof.
  intros H. induction n as [|n IH]; simpl; [reflexivity|].
  rewrite H, IH. reflexivity.
Qed.

(** ** The bar of [percent_to_graph] *)

Lemma percent_to_graph_num_hashes percent length :
  percent_to_graph percent length =
  (n <- num_hashes percent length ;; Ok (bar_of n length)).
Proof.
  unfold percent_to_graph, num_hashes.
  destruct (fmul_int percent length); reflexivity.
Qed.

Lemma bar_length n length :
  Z.of_nat (String.length (bar_of n length)) = Z.max n 0 + Z.max (length - n) 0.
Proof.
  unfold bar_of, str_mul. rewrite length_append, !length_str_times. lia.
Qed.

Lemma bar_count n length :
  Z.of_nat (count_char "#" (bar_of n length)) = Z.max n 0.
Proof.
  unfold bar_of, str_mul.
  rewrite count_char_append, count_char_str_times_same.
  rewrite count_char_str_times_other by reflexivity. lia.
Qed.

Lemma bar_chars n length : all_chars bar_char (bar_of n length) = true.
Proof.
  unfold bar_of, str_mul.
  rewrite all_chars_append, !all_chars_str_times by reflexivity. reflexivity.
Qed.

Section Fill.

Local Open Scope Q_scope.

Lemma py_round_finite v :
  fis_finite v = true -> py_round v = Ok (round_half_even (fvalue v)).
Proof. destruct v; simpl; intros H; try discriminate; reflexivity. Qed.

Lemma binary64_round_int n :
  (0 < n <= 2 ^ 53)%Z ->
  exists q, binary64_round (inject_Z n) = FFin q /\ q == inject_Z n.
Proof.
  intros Hn.
  apply binary64_round_pos.
  - change 0 with (inject_Z 0). rewrite <- Zlt_Qlt. lia.
  - apply round_mag_int. exact Hn.
  - eapply Qle_lt_trans; [|exact pow2_53_lt_1024]. rewrite <- Zle_Qle. lia.
Qed.

Lemma fmul_finite x l :
  fis_finite x = true ->
  fmul x (FFin l) =
  if Qeq_bool (fvalue x * l) 0 then signed_zero (xorb (fsign x) (Qneg_bool l))
  else binary64_round (fvalue x * l).
Proof. destruct x; simpl; intros H; try discriminate; reflexivity. Qed.

Lemma signed_zero_finite s : fis_finite (signed_zero s) = true /\ fvalue (signed_zero s) = 0.
Proof. destruct s; split; reflexivity. Qed.

(** The product of a fraction of the unit interval and a length up to
    [2^53] is a finite double between 0 and the length, and it grows with
    the fraction. *)
Lemma fmul_unit x y l L :
  in_unit_interval x -> in_unit_interval y -> fvalue x <= fvalue y ->
  l == inject_Z L -> (0 <= L <= 2 ^ 53)%Z ->
  fis_finite (fmul x (FFin l)) = true /\
  fis_finite (fmul y (FFin l)) = true /\
  0 <= fvalue (fmul x (FFin l)) /\
  fvalue (fmul x (FFin l)) <= fvalue (fmul y (FFin l)) /\
  fvalue (fmul y (FFin l)) <= inject_Z L.
Proof.
  intros [Fx [X0 X1]] [Fy [Y0 Y1]] Hxy Hl HL.
  assert (L0 : 0 <= l) by (rewrite Hl; change 0 with (inject_Z 0); rewrite <- Zle_Qle; lia).
  rewrite (fmul_finite x l Fx), (fmul_finite y l Fy).
  set (px := fvalue x * l). set (py := fvalue y * l).
  assert (Hpx : 0 <= px) by (unfold px; nra).
  assert (Hpxy : px <= py) by (unfold px, py; nra).
  assert (Hpy : py <= l) by (unfold py; nra).
  destruct (Qeq_bool py 0) eqn:By.
  - apply Qeq_bool_iff in By.
    assert (Bx : Qeq_bool px 0 = true) by (apply Qeq_bool_iff; lra).
    rewrite Bx.
    destruct (signed_zero_finite (xorb (fsign x) (Qneg_bool l))) as [-> ->].
    destruct (signed_zero_finite (xorb (fsign y) (Qneg_bool l))) as [-> ->].
    repeat split; lra.
  - apply Qeq_bool_neq in By.
    assert (Ppy : 0 < py) by lra.
    assert (PL : (0 < L)%Z).
    { apply Z.gt_lt. destruct (Z.eq_dec L 0) as [E|N]; [|lia].
      exfalso. subst L. change (inject_Z 0) with 0 in Hl. lra. }
    destruct (binary64_round_int L ltac:(lia)) as [qL [HqL EL]].
    assert (Hpy' : py <= inject_Z L) by lra.
    destruct (binary64_round_mono py (inject_Z L) qL Ppy Hpy' HqL) as [qy [Hqy [Y2 Y3]]].
    rewrite Hqy.
    destruct (Qeq_bool px 0) eqn:Bx.
    + destruct (signed_zero_finite (xorb (fsign x) (Qneg_bool l))) as [-> ->].
      simpl. repeat split; lra.
    + apply Qeq_bool_neq in Bx.
      assert (Ppx : 0 < px) by lra.
      destruct (binary64_round_mono px py qy Ppx Hpxy Hqy) as [qx [Hqx [X2 X3]]].
      rewrite Hqx. simpl. repeat split; lra.
Qed.

End Fill.

(** [float(length)] is exact up to [2^53], so [percent * length] is the
    double nearest to the exact product. *)
Lemma num_hashes_unit x y length :
  in_unit_interval x -> in_unit_interval y -> (fvalue x <= fvalue y)%Q ->
  0 <= length <= 2 ^ 53 ->
  exists n m,
    num_hashes x length = Ok n /\ num_hashes y length = Ok m /\
    0 <= n /\ n <= m /\ m <= length.
Proof.
  intros Hx Hy Hxy HL.
  destruct (float_of_int_exact length ltac:(lia)) as [l [Hl El]].
  destruct (fmul_unit x y l length Hx Hy Hxy El HL) as [Fx [Fy [B0 [B1 B2]]]].
  unfold num_hashes, fmul_int. rewrite Hl. simpl.
  rewrite (py_round_finite _ Fx), (py_round_finite _ Fy).
  do 2 eexists. split; [reflexivity|]. split; [reflexivity|].
  split; [|split].
  - apply round_half_even_nonneg. exact B0.
  - apply round_half_even_mono. exact B1.
  - apply round_half_even_mono in B2.
    rewrite round_half_even_inject in B2. exact B2.
Qed.

(** ** The readers of [/proc/meminfo] *)

Lemma scan_mem_total_absent lines :
  label_absent "MemTotal:" lines -> scan_mem_total lines = Ok None.
Proof.
  induction 1 as [|line rest H _ IH]; simpl; [reflexivity|].
  rewrite H. exact IH.
Qed.

Lemma scan_mem_total_first pre line post :
  label_absent "MemTotal:" pre -> startswith line "MemTotal:" = true ->
  scan_mem_total (pre ++ line :: post)%list =
  (tok <- list_index (split line) 1 ;; n <- int_of_str tok ;; Ok (Some n)).
Proof.
  intros Hpre Hline. induction Hpre as [|l rest H _ IH]; simpl.
  - rewrite Hline. reflexivity.
  - rewrite H. exact IH.
Qed.

Lemma scan_mem_available_absent lines :
  label_absent "MemAvailable:" lines -> scan_mem_available lines = Ok (-1).
Proof.
  induction 1 as [|line rest H _ IH]; simpl; [reflexivity|].
  rewrite H. exact IH.
Qed.

Lemma scan_mem_available_first pre line post :
  label_absent "MemAvailable:" pre -> startswith line "MemAvailable:" = true ->
  scan_mem_available (pre ++ line :: post)%list =
  (tok <- list_index (split line) 1 ;; int_of_str tok).
Proof.
  intros Hpre Hline. induction Hpre as [|l rest H _ IH]; simpl.
  - rewrite Hline. reflexivity.
  - rewrite H. exact IH.
Qed.

(** ** Whitespace: [strip] and [split] *)

Lemma lstrip_all_space s : all_chars is_space s = true -> lstrip s = "".
Proof.
  induction s as [|c s IH]; simpl; [reflexivity|].
  intros H. apply andb_prop in H as [Hc Hs]. rewrite Hc. apply IH, Hs.
Qed.

Lemma all_space_lstrip s : all_chars is_space (lstrip s) = true -> all_chars is_space s = true.
Proof.
  induction s as [|c s IH]; simpl; [reflexivity|].
  destruct (is_space c) eqn:Hc; simpl.
  - exact IH.
  - rewrite Hc. discriminate.
Qed.

Lemma all_space_rstrip s : all_chars is_space (rstrip s) = true -> all_chars is_space s = true.
Proof.
  induction s as [|c s IH]; simpl; [reflexivity|].
  destruct (is_space c) eqn:Hc; simpl.
  - destruct (is_empty (rstrip s)) eqn:He; simpl.
    + intros _. apply IH. destruct (rstrip s); [reflexivity | discriminate].
    + rewrite Hc. exact IH.
  - rewrite Hc. discriminate.
Qed.

Lemma split_from_nil s tok :
  split_from s tok = [] -> tok = "" /\ all_chars is_space s = true.
Proof.
  revert tok. induction s as [|c s IH]; simpl; intros tok H.
  - destruct tok; [split; reflexivity | discriminate].
  - destruct (is_space c) eqn:Hc.
    + destruct tok; simpl in H; [|discriminate].
      destruct (IH _ H) as [_ Hs]. split; [reflexivity | exact Hs].
    + destruct (IH _ H) as [Habs _]. destruct tok; discriminate.
Qed.

(** The resolver answers the empty list exactly when [pidof] prints
    nothing but whitespace. *)
Lemma pids_of_prog_nil e app_name :
  pids_of_prog e app_name = [] <->
  all_chars is_space (popen e ("pidof " ++ app_name)) = true.
Proof.
  unfold pids_of_prog. set (out := popen e ("pidof " ++ app_name)). split.
  - intros H. apply all_space_lstrip, all_space_rstrip. fold (strip out).
    destruct (is_empty (strip out)) eqn:He.
    + destruct (strip out); [reflexivity | discriminate].
    + apply split_from_nil in H. apply H.
  - intros H. unfold strip. rewrite (lstrip_all_space _ H). reflexivity.
Qed.

(** ** The main program *)

Lemma fold_add_acc xs acc : fold_left Z.add xs acc = acc + fold_left Z.add xs 0.
Proof.
  revert acc. induction xs as [|x xs IH]; intros acc; simpl; [lia|].
  rewrite (IH (acc + x)), (IH x). lia.
Qed.

Lemma sum_app xs ys : sum (xs ++ ys)%list = sum xs + sum ys.
Proof. unfold sum. rewrite fold_left_app. apply fold_add_acc. Qed.

Lemma sum_cons x xs : sum (x :: xs) = x + sum xs.
Proof. unfold sum. simpl. apply fold_add_acc. Qed.

(** The system-wide mode prints the line of the subject "Memory" with
    [used = total - available]. *)
Lemma run_system e a total avail :
  no_program a = true ->
  get_sys_mem e = Ok (Some total) -> get_avail_mem e = Ok avail ->
  run e a = print_result (report_line a "Memory        " (total - avail) total).
Proof.
  intros Hp Ht Ha. unfold run, main. rewrite Hp.
  cbv [io_bind lift print]. rewrite Ht, Ha.
  cbv [as_int report_line render_line bind print_result].
  destruct (int_truediv (total - avail) total) as [fraction| |]; try reflexivity.
  destruct (percent_to_graph fraction (args_length a)); try reflexivity.
  destruct (amount_str a (total - avail)); try reflexivity.
  destruct (amount_str a total); reflexivity.
Qed.

(** One turn of the loop over the pids: the line of the process, or the
    failure that ends the run. *)
Lemma report_pids_cons e a total pid rest rss_totals total_str out :
  report_pids e a (Some total) (pid :: rest) rss_totals total_str out =
  match rss_mem_of_pid e pid with
  | Ok rss =>
      match report_line a (ljust pid 15) rss total with
      | Ok line =>
          report_pids e a (Some total) rest (rss_totals ++ [rss])%list
            (match amount_str a total with Ok s => s | _ => "" end)
            (out ++ [line])%list
      | Raise ex => (out, Raise ex)
      | OutOfFuel => (out, OutOfFuel)
      end
  | Raise ex => (out, Raise ex)
  | OutOfFuel => (out, OutOfFuel)
  end.
Proof.
  cbn [report_pids]. cbv [io_bind lift print as_int report_line render_line bind].
  destruct (rss_mem_of_pid e pid) as [rss| |]; try reflexivity.
  destruct (int_truediv rss total) as [fraction| |]; try reflexivity.
  destruct (percent_to_graph fraction (args_length a)); try reflexivity.
  destruct (amount_str a rss); try reflexivity.
  destruct (amount_str a total); reflexivity.
Qed.

Lemma report_line_total_str a label amount total line :
  report_line a label amount total = Ok line ->
  exists s, amount_str a total = Ok s.
Proof.
  unfold report_line, render_line, bind. intros H.
  destruct (int_truediv amount total); try discriminate.
  destruct (percent_to_graph _ _); try discriminate.
  destruct (amount_str a amount); try discriminate.
  destruct (amount_str a total) as [s| |]; try discriminate.
  exists s. reflexivity.
Qed.

(** The loop over the pids ends normally exactly when every process can be
    read and every line rendered; it has then printed the lines in order and
    collected the resident memory values. *)
Lemma report_pids_sound e a total pids :
  forall rss_totals total_str out out' st,
    report_pids e a (Some total) pids rss_totals total_str out = (out', Ok st) ->
    exists rss_list lines,
      pid_lines e a total pids rss_list lines /\
      out' = (out ++ lines)%list /\
      fst st = (rss_totals ++ rss_list)%list /\
      (pids <> [] -> amount_str a total = Ok (snd st)).
Proof.
  induction pids as [|pid rest IH]; intros rss_totals total_str out out' st H.
  - cbv [report_pids lift] in H. injection H as <- <-.
    exists [], []. rewrite !app_nil_r.
    split; [constructor | split; [reflexivity | split; [reflexivity | congruence]]].
  - rewrite report_pids_cons in H.
    destruct (rss_mem_of_pid e pid) as [rss| |] eqn:Hrss; try discriminate.
    destruct (report_line a (ljust pid 15) rss total) as [line| |] eqn:Hline;
      try discriminate.
    destruct (report_line_total_str _ _ _ _ _ Hline) as [s Hs].
    rewrite Hs in H.
    destruct (IH _ _ _ _ _ H) as [rss_list [lines [Hpl [Hout [Hfst Hsnd]]]]].
    exists (rss :: rss_list), (line :: lines).
    split; [econstructor; eassumption|].
    split; [rewrite Hout, <- app_assoc; reflexivity|].
    split; [rewrite Hfst, <- app_assoc; reflexivity|].
    intros _. destruct rest as [|pid' rest'].
    + cbv [report_pids lift] in H. injection H as _ <-. exact Hs.
    + apply Hsnd. discriminate.
Qed.

Lemma report_pids_complete e a total pids rss_list lines :
  pid_lines e a total pids rss_list lines ->
  forall rss_totals total_str out,
  exists st,
    report_pids e a (Some total) pids rss_totals total_str out
      = ((out ++ lines)%list, Ok st) /\
    fst st = (rss_totals ++ rss_list)%list.
Proof.
  induction 1 as [|pid pids rss rss_list line lines Hrss Hline _ IH];
    intros rss_totals total_str out.
  - exists (rss_totals, total_str). rewrite !app_nil_r. split; reflexivity.
  - rewrite report_pids_cons, Hrss, Hline.
    destruct (IH (rss_totals ++ [rss])%list
                 (match amount_str a total with Ok s => s | _ => "" end)
                 (out ++ [line])%list) as [st [Hst Hfst]].
    exists st. rewrite Hst, <- !app_assoc. split; [reflexivity|].
    rewrite Hfst, <- app_assoc. reflexivity.
Qed.

Lemma no_program_named a name :
  args_program a = Some name -> name <> "" -> no_program a = false.
Proof.
  intros H N. unfold no_program. rewrite H. destruct name; [congruence | reflexivity].
Qed.

(** The per-program mode when nothing is resolved. *)
Lemma run_no_pids e a name total_mem :
  args_program a = Some name -> name <> "" ->
  get_sys_mem e = Ok total_mem -> pids_of_prog e name = [] ->
  run e a = (["No processes found for " ++ name], Raise (SystemExit 1)).
Proof.
  intros Hp Hn Ht Hpids. unfold run, main.
  rewrite (no_program_named a name Hp Hn), Hp.
  cbv [io_bind lift]. rewrite Ht, Hpids. reflexivity.
Qed.

(** The aggregate line reuses [total_str] of the loop. *)
Lemma aggregate_line_uses_total_str a label rss total s :
  amount_str a total = Ok s ->
  report_line a label rss total =
  (fraction <- int_truediv rss total ;;
   bar <- percent_to_graph fraction (args_length a) ;;
   amount_s <- amount_str a rss ;;
   pct <- percent_str fraction ;;
   Ok (label ++ " [" ++ bar ++ "| " ++ pct ++ "%] " ++ amount_s ++ "/" ++ s)).
Proof.
  intros Hs. unfold report_line, render_line. rewrite Hs.
  cbv [bind].
  destruct (int_truediv rss total); reflexivity.
Qed.

(** The per-program mode when some process is resolved: the lines of the
    loop, then the aggregate line when there is more than one pid. *)
Lemma run_program e a name total pid rest :
  args_program a = Some name -> name <> "" ->
  get_sys_mem e = Ok (Some total) -> pids_of_prog e name = pid :: rest ->
  run e a =
  match report_pids e a (Some total) (pid :: rest) [] "" [] with
  | (out, Ok st) =>
      if 1 <? len (pid :: rest) then
        match report_line a (ljust name 15) (sum (fst st)) total with
        | Ok agg => ((out ++ [agg])%list, Ok tt)
        | Raise ex => (out, Raise ex)
        | OutOfFuel => (out, OutOfFuel)
        end
      else (out, Ok tt)
  | (out, Raise ex) => (out, Raise ex)
  | (out, OutOfFuel) => (out, OutOfFuel)
  end.
Proof.
  intros Hp Hn Ht Hpids. unfold run, main.
  rewrite (no_program_named a name Hp Hn), Hp.
  cbv [io_bind lift]. rewrite Ht, Hpids.
  destruct (report_pids e a (Some total) (pid :: rest) [] "" []) as [out [st| |]] eqn:Hloop;
    try reflexivity.
  destruct (1 <? len (pid :: rest)); [|reflexivity].
  destruct (report_pids_sound _ _ _ _ _ _ _ _ _ Hloop) as [_ [_ [_ [_ [_ Hs]]]]].
  specialize (Hs ltac:(discriminate)).
  rewrite (aggregate_line_uses_total_str a _ _ _ _ Hs).
  cbv [as_int print bind].
  destruct (int_truediv (sum (fst st)) total) as [fraction| |]; try reflexivity.
  destruct (percent_to_graph fraction (args_length a)); try reflexivity.
  destruct (amount_str a (sum (fst st))); reflexivity.
Qed.

(** ** The overshoot of the sentinel *)

Section Overshoot.

Local Open Scope Q_scope.

Lemma Qle_div_int (x : Q) (a b : Z) :
  (0 < b)%Z -> x * inject_Z b <= inject_Z a -> x <= inject_Z a / inject_Z b.
Proof.
  intros Hb H. apply Qle_shift_div_l; [|exact H].
  change 0 with (inject_Z 0). rewrite <- Zlt_Qlt. exact Hb.
Qed.

Lemma Qdiv_int_le (x : Q) (a b : Z) :
  (0 < b)%Z -> inject_Z a <= x * inject_Z b -> inject_Z a / inject_Z b <= x.
Proof.
  intros Hb H. apply Qle_shift_div_r; [|exact H].
  change 0 with (inject_Z 0). rewrite <- Zlt_Qlt. exact Hb.
Qed.

Lemma Qmake_mul_le_int n d T a :
  (n * T <= a * Zpos d)%Z -> (n # d) * inject_Z T <= inject_Z a.
Proof.
  intros H. unfold Qle, Qmult, inject_Z. cbn [Qnum Qden].
  rewrite Pos.mul_1_r. lia.
Qed.

Lemma int_le_Qmake_mul n d T a :
  (a * Zpos d <= n * T)%Z -> inject_Z a <= (n # d) * inject_Z T.
Proof.
  intros H. unfold Qle, Qmult, inject_Z. cbn [Qnum Qden].
  rewrite Pos.mul_1_r. lia.
Qed.

(** [(T + 1) / T] as a double: never below 1.0, above it exactly when
    [T < 2^53]. *)
Lemma truediv_overshoot T :
  (0 < T)%Z ->
  exists f, int_truediv (T + 1) T = Ok (FFin f) /\ 1 <= f /\
    ((T < 2 ^ 53)%Z -> 1 < f) /\ ((2 ^ 53 <= T)%Z -> f == 1).
Proof.
  intros HT. unfold int_truediv.
  destruct (Z.eqb_spec T 0) as [E|_]; [lia|].
  destruct (Z.eqb_spec (T + 1) 0) as [E|_]; [lia|].
  set (q := inject_Z (T + 1) / inject_Z T).
  assert (Q1 : 1 <= q).
  { apply Qle_div_int; [exact HT|]. rewrite Qmult_1_l, <- Zle_Qle. lia. }
  assert (Q2 : q <= 2).
  { apply Qdiv_int_le; [exact HT|].
    change 2 with (inject_Z 2). rewrite <- inject_Z_mult, <- Zle_Qle. lia. }
  assert (R2 : binary64_round 2 = FFin 2) by (vm_compute; reflexivity).
  assert (R1 : binary64_round 1 = FFin 1) by (vm_compute; reflexivity).
  assert (Q0 : 0 < q) by lra.
  assert (P1 : 0 < 1) by reflexivity.
  destruct (binary64_round_mono q 2 2 Q0 Q2 R2) as [f [Hf [F0 F2]]].
  pose proof (binary64_round_mono_lower 1 q 1 P1 Q1 R1) as L1.
  rewrite Hf in L1 |- *.
  exists f. split; [reflexivity|]. split; [exact L1|]. split.
  - intros Hlt.
    assert (Ra : binary64_round (9007199254740992 # 9007199254740991)
                 = FFin (4503599627370497 # 4503599627370496))
      by (vm_compute; reflexivity).
    assert (Qa : (9007199254740992 # 9007199254740991) <= q).
    { apply Qle_div_int; [exact HT|]. apply Qmake_mul_le_int. lia. }
    assert (Pa : 0 < (9007199254740992 # 9007199254740991)) by reflexivity.
    pose proof (binary64_round_mono_lower _ q _ Pa Qa Ra) as La.
    rewrite Hf in La.
    eapply Qlt_le_trans; [|exact La]. reflexivity.
  - intros Hge.
    assert (Rb : binary64_round (9007199254740993 # 9007199254740992) = FFin 1)
      by (vm_compute; reflexivity).
    assert (Qb : q <= (9007199254740993 # 9007199254740992)).
    { apply Qdiv_int_le; [exact HT|]. apply int_le_Qmake_mul. lia. }
    destruct (binary64_round_mono q _ 1 Q0 Qb Rb) as [f' [Hf' [_ F1]]].
    assert (f' = f) by congruence. subst f'. lra.
Qed.

End Overshoot.

Lemma pid_lines_length e a total pids rss_list lines :
  pid_lines e a total pids rss_list lines ->
  List.length rss_list = List.length pids /\ List.length lines = List.length pids.
Proof.
  induction 1 as [|? ? ? ? ? ? _ _ _ [IH1 IH2]]; simpl; [split; reflexivity|].
  rewrite IH1, IH2. split; reflexivity.
Qed.

Lemma several_pids (pid pid' : string) (rest : list string) :
  (1 <? len (pid :: pid' :: rest)) = true.
Proof. unfold len. apply Z.ltb_lt. simpl List.length. lia. Qed.

(** ** Doubles and the division by 1024 *)

Section Doubles.

Local Open Scope Q_scope.

Lemma round_mag_one : round_mag 1 == 1.
Proof. apply (round_mag_int 1). lia. Qed.

Lemma round_mag_ge_one a : 1 <= a -> 1 <= round_mag a.
Proof.
  intros Ha. rewrite <- round_mag_one.
  apply round_mag_mono; [reflexivity | exact Ha].
Qed.

(** What [round_mag] returns is a double. *)
Lemma round_mag_double a :
  1 <= a -> round_mag a < pow2 1024 -> positive_double (round_mag a).
Proof.
  intros Ha Hlt.
  assert (Pa : 0 < a) by lra.
  pose proof (round_mag_ge_one a Ha) as Hge.
  destruct (qlog2_spec a Pa) as [_ A2].
  unfold round_mag in *.
  set (u := ulp_exp a) in *. set (M := round_half_even (a / pow2 u)) in *.
  pose proof (pow2_pos u) as Pu.
  assert (HM0 : (0 < M)%Z).
  { apply Z.gt_lt. destruct (Z_gt_le_dec M 0) as [G|L]; [exact G|]. exfalso.
    assert (inject_Z M <= 0) by (change 0 with (inject_Z 0); rewrite <- Zle_Qle; exact L).
    nra. }
  assert (HM1 : (M <= 2 ^ 53)%Z).
  { assert (Hb : a <= pow2 (u + 53)).
    { apply Qlt_le_weak. eapply Qlt_le_trans; [exact A2|].
      apply pow2_le. unfold u, ulp_exp. lia. }
    assert (Hs : a / pow2 u <= pow2 (u + 53) / pow2 u).
    { apply Qmult_le_compat_r; [exact Hb|]. apply Qlt_le_weak, Qinv_lt_0_compat, Pu. }
    apply round_half_even_mono in Hs. fold M in Hs.
    rewrite scaled_pow2 in Hs. replace (u + 53 - u)%Z with 53%Z in Hs by lia.
    rewrite pow2_inject in Hs by lia. rewrite round_half_even_inject in Hs. exact Hs. }
  assert (Hu : (-1074 <= u)%Z) by (unfold u, ulp_exp; lia).
  destruct (Z.eq_dec M (2 ^ 53)) as [E|N].
  - exists (2 ^ 52)%Z, (u + 1)%Z.
    split; [|split; [lia | split; [lia | exact Hlt]]].
    rewrite E, pow2_add. change (inject_Z (2 ^ 53)) with (inject_Z (2 ^ 52) * pow2 1).
    ring.
  - exists M, u.
    split; [reflexivity | split; [lia | split; [lia | exact Hlt]]].
Qed.

Lemma positive_double_comp q q' : q == q' -> positive_double q -> positive_double q'.
Proof.
  intros E [m [u [Hq [Hm [Hu Hlt]]]]]. exists m, u.
  split; [rewrite <- E; exact Hq | split; [lia | split; [lia | rewrite <- E; exact Hlt]]].
Qed.

Lemma positive_double_pos q : positive_double q -> 0 < q.
Proof.
  intros [m [u [Hq [Hm [Hu Hlt]]]]].
  pose proof (pow2_pos u).
  assert (0 < inject_Z m) by (change 0 with (inject_Z 0); rewrite <- Zlt_Qlt; lia).
  rewrite Hq. nra.
Qed.

(** Dividing a double that is at least 1024 by 1024.0 is exact. *)
Lemma fdiv_1024 q :
  positive_double q -> 1024 <= q ->
  exists q1, fdiv (FFin q) (FFin 1024) = Ok (FFin q1) /\ q1 == q / 1024 /\
    positive_double q1.
Proof.
  intros Hd Hge. pose proof Hd as [m [u [Hq [Hm [Hu Hlt]]]]].
  pose proof (pow2_pos u) as Pu.
  assert (Hm2 : inject_Z m < pow2 53).
  { rewrite pow2_inject by lia. rewrite <- Zlt_Qlt. lia. }
  assert (Hm1 : 0 < inject_Z m) by (change 0 with (inject_Z 0); rewrite <- Zlt_Qlt; lia).
  assert (Hu' : (-1074 <= u - 10)%Z).
  { assert (H : pow2 (10 - 53) < pow2 u).
    { rewrite pow2_sub. apply Qlt_shift_div_r; [apply pow2_pos|].
      change (pow2 10) with 1024. nra. }
    apply pow2_lt_inv in H. lia. }
  assert (E : q / 1024 == inject_Z m * pow2 (u - 10)).
  { rewrite pow2_sub, Hq. change (pow2 10) with 1024. field. }
  assert (P : 0 < q / 1024) by (apply Qlt_shift_div_l; lra).
  assert (R : round_mag (q / 1024) == q / 1024).
  { rewrite (round_mag_comp _ _ P E), E. apply round_mag_exact; lia. }
  assert (L : q / 1024 < pow2 1024).
  { apply Qlt_shift_div_r; [reflexivity|]. pose proof (pow2_pos 1024). nra. }
  destruct (binary64_round_pos (q / 1024) (q / 1024) P R L) as [q1 [Hq1 E1]].
  exists q1. split; [|split].
  - unfold fdiv. cbn [fis_zero fvalue].
    assert (Z0 : Qeq_bool q 0 = false).
    { destruct (Qeq_bool q 0) eqn:B; [|reflexivity].
      apply Qeq_bool_iff in B. lra. }
    rewrite Z0. change (Qeq_bool 1024 0) with false. cbn iota. rewrite Hq1. reflexivity.
  - exact E1.
  - exists m, (u - 10)%Z.
    split; [rewrite E1; exact E | split; [lia | split; [lia | rewrite E1; exact L]]].
Qed.

(** [float(k)] for [k >= 1]: a positive double, no smaller than any
    double below [k]. *)
Lemma float_of_int_positive k x :
  (1 <= k)%Z -> float_of_int k = Ok x ->
  exists q, x = FFin q /\ positive_double q /\ q == round_mag (inject_Z k).
Proof.
  intros Hk H. unfold float_of_int, binary64_round in H.
  assert (P : 0 < inject_Z k) by (change 0 with (inject_Z 0); rewrite <- Zlt_Qlt; lia).
  assert (C : Qcompare (inject_Z k) 0 = Gt) by (apply Qgt_alt; exact P).
  rewrite C in H.
  destruct (Qle_bool (pow2 1024) (round_mag (inject_Z k))) eqn:B; [discriminate|].
  assert (L : round_mag (inject_Z k) < pow2 1024).
  { apply Qnot_le_lt. rewrite <- Qle_bool_iff. congruence. }
  exists (Qred (round_mag (inject_Z k))).
  split; [congruence|].
  pose proof (Qred_correct (round_mag (inject_Z k))) as E.
  split; [|exact E].
  apply (positive_double_comp (round_mag (inject_Z k))); [symmetry; exact E|].
  apply round_mag_double; [|exact L].
  change 1 with (inject_Z 1). rewrite <- Zle_Qle. exact Hk.
Qed.

Lemma float_of_int_ge_1024 k q :
  (1024 <= k)%Z -> float_of_int k = Ok (FFin q) -> 1024 <= q.
Proof.
  intros Hk H.
  destruct (float_of_int_positive k _ ltac:(lia) H) as [q' [Eq [_ Hq]]].
  assert (q' = q) by congruence. subst q'. rewrite Hq.
  assert (R : round_mag 1024 == 1024) by (apply (round_mag_int 1024); lia).
  rewrite <- R at 1. apply round_mag_mono; [reflexivity|].
  change 1024 with (inject_Z 1024). rewrite <- Zle_Qle. exact Hk.
Qed.

(** [float(k)] for [k <= 0]: zero or a negative double. *)
Lemma float_of_int_nonpositive k x :
  (k <= 0)%Z -> float_of_int k = Ok x -> exists q, x = FFin q /\ q <= 0.
Proof.
  intros Hk H. unfold float_of_int, binary64_round in H.
  destruct (Z.eq_dec k 0) as [E|N].
  - subst k. exists 0. split; [vm_compute in H; congruence | discriminate].
  - assert (P : inject_Z k < 0) by (change 0 with (inject_Z 0); rewrite <- Zlt_Qlt; lia).
    assert (C : Qcompare (inject_Z k) 0 = Lt) by (apply Qlt_alt; exact P).
    rewrite C in H.
    assert (G : 1 <= round_mag (- inject_Z k)).
    { apply round_mag_ge_one. rewrite <- inject_Z_opp.
      change 1 with (inject_Z 1). rewrite <- Zle_Qle. lia. }
    destruct (Qle_bool (pow2 1024) (round_mag (- inject_Z k))); [discriminate|].
    destruct (Qeq_bool (round_mag (- inject_Z k)) 0) eqn:Z0.
    + apply Qeq_bool_iff in Z0. exfalso. lra.
    + exists (Qred (- round_mag (- inject_Z k))). split; [congruence|].
      pose proof (Qred_correct (- round_mag (- inject_Z k))). lra.
Qed.

End Doubles.

(** ** Fixed-point digits *)





Lemma string_of_uint_digits d :
  all_chars is_digit (NilEmpty.string_of_uint d) = true.
Proof. induction d; simpl; try assumption; reflexivity. Qed.

(** The decimal digits of a natural number: a non-empty run of digits. *)
Lemma str_of_int_digits n :
  0 <= n -> str_of_int n <> "" /\ all_chars is_digit (str_of_int n) = true.
Proof.
  intros Hn. unfold str_of_int.
  destruct n as [|p|p]; [split; [discriminate | reflexivity] | | lia].
  cbn [Z.to_int NilZero.string_of_int]. unfold NilZero.string_of_uint.
  pose proof (string_of_uint_digits (Pos.to_uint p)) as D.
  destruct (Pos.to_uint p); (split; [discriminate | exact D || reflexivity]).
Qed.


Section FixedPoint.

Local Open Scope Q_scope.

Lemma Qneg_bool_comp q q' : q == q' -> Qneg_bool q = Qneg_bool q'.
Proof. intros E. unfold Qneg_bool. rewrite E. reflexivity. Qed.

Lemma scaled_digits_comp q q' dp : q == q' -> scaled_digits q dp = scaled_digits q' dp.
Proof. intros E. unfold scaled_digits. rewrite E. reflexivity. Qed.

Lemma fixed_point_comp q q' dp : q == q' -> fixed_point q dp = fixed_point q' dp.
Proof.
  intros E. unfold fixed_point.
  rewrite (Qneg_bool_comp q q' E), (scaled_digits_comp q q' dp E). reflexivity.
Qed.



End FixedPoint.


(** ** The loop of [bytes_to_human_r] *)

Lemma len_app {A : Type} (xs ys : list A) : len (xs ++ ys)%list = len xs + len ys.
Proof. unfold len. rewrite length_app. lia. Qed.

Lemma len_cons {A : Type} (x : A) (xs : list A) : len (x :: xs) = 1 + len xs.
Proof. unfold len. cbn [List.length]. lia. Qed.

Lemma len_nonneg {A : Type} (xs : list A) : 0 <= len xs.
Proof. unfold len. lia. Qed.

Lemma nth_error_len {A : Type} (pre : list A) (x : A) (post : list A) :
  nth_error (pre ++ x :: post)%list (Z.to_nat (len pre)) = Some x.
Proof.
  unfold len. rewrite Nat2Z.id.
  rewrite nth_error_app2 by lia. rewrite Nat.sub_diag. reflexivity.
Qed.

Lemma while_loop_step {S : Type} fuel (cond : S -> bool) body (s : S) :
  while_loop (Datatypes.S fuel) cond body s =
  if cond s then (s' <- body s ;; while_loop fuel cond body s') else Ok s.
Proof. reflexivity. Qed.

(** The loop condition is false from the start for an amount below 1024:
    the loop never runs, whatever the fuel. *)
Lemma scale_loop_small fuel k :
  k < 1024 ->
  while_loop fuel scale_cond scale_body (NInt k, 0) = Ok (NInt k, 0).
Proof.
  intros H.
  assert (C : scale_cond (NInt k, 0) = false).
  { unfold scale_cond. cbn [fst snd num_ge].
    destruct (Z.leb_spec 1024 k); [lia | reflexivity]. }
  destruct fuel; cbn [while_loop]; rewrite C; reflexivity.
Qed.

Section ScaleLoop.

Local Open Scope Q_scope.

Lemma scale_spec_cons v suffix next rest :
  scale_spec v suffix (next :: rest) =
  if Qle_bool 1024 v then scale_spec (v / 1024) next rest else (v, suffix).
Proof. reflexivity. Qed.

Lemma scale_spec_comp larger :
  forall v v' suffix, v == v' ->
    fst (scale_spec v suffix larger) == fst (scale_spec v' suffix larger) /\
    snd (scale_spec v suffix larger) = snd (scale_spec v' suffix larger).
Proof.
  induction larger as [|next rest IH]; intros v v' suffix E; cbn [scale_spec].
  - split; [exact E | reflexivity].
  - rewrite E. destruct (Qle_bool 1024 v').
    + apply IH. rewrite E. reflexivity.
    + split; [exact E | reflexivity].
Qed.

(** Once [result] is a double, the loop follows [scale_spec] exactly: every
    division by 1024.0 is exact.  [pre] holds the suffixes already passed. *)
Lemma scale_loop_float larger :
  forall pre suffix q fuel,
    suffixes = (pre ++ suffix :: larger)%list ->
    positive_double q ->
    (List.length larger < fuel)%nat ->
    exists q' j,
      while_loop fuel scale_cond scale_body (NFloat (FFin q), len pre)
        = Ok (NFloat (FFin q'), j) /\
      q' == fst (scale_spec q suffix larger) /\
      nth_error suffixes (Z.to_nat j) = Some (snd (scale_spec q suffix larger)).
Proof.
  induction larger as [|next rest IH]; intros pre suffix q fuel Hs Hd Hfuel.
  - exists q, (len pre).
    assert (C : scale_cond (NFloat (FFin q), len pre) = false).
    { unfold scale_cond. cbn [fst snd]. rewrite Hs, len_app, len_cons.
      change (len (@nil string)) with 0%Z.
      destruct (Z.ltb_spec (len pre) (len pre + (1 + 0) - 1)); [lia|].
      apply andb_false_r. }
    split; [|split].
    + destruct fuel; cbn [while_loop]; rewrite C; reflexivity.
    + reflexivity.
    + rewrite Hs. apply nth_error_len.
  - destruct fuel as [|fuel]; [cbn in Hfuel; lia|].
    cbn [List.length] in Hfuel.
    assert (C : scale_cond (NFloat (FFin q), len pre) = Qle_bool 1024 q).
    { unfold scale_cond. cbn [fst snd num_ge float_ge_int].
      rewrite Hs, len_app, !len_cons.
      pose proof (len_nonneg rest).
      destruct (Z.ltb_spec (len pre) (len pre + (1 + (1 + len rest)) - 1)); [|lia].
      apply andb_true_r. }
    rewrite while_loop_step, C, scale_spec_cons.
    destruct (Qle_bool 1024 q) eqn:B.
    + apply Qle_bool_iff in B.
      destruct (fdiv_1024 q Hd B) as [q1 [Hq1 [E1 D1]]].
      unfold scale_body at 1, num_div_float. cbn [fst snd num_to_float bind].
      rewrite Hq1. cbn [bind].
      assert (Hs' : suffixes = ((pre ++ [suffix]) ++ next :: rest)%list).
      { rewrite <- app_assoc. exact Hs. }
      destruct (IH (pre ++ [suffix])%list next q1 fuel Hs' D1 ltac:(lia))
        as [q' [j [Hloop [Eq' Hj]]]].
      rewrite len_app in Hloop. change (len [suffix]) with 1%Z in Hloop.
      exists q', j. split; [exact Hloop|].
      destruct (scale_spec_comp rest q1 (q / 1024) next E1) as [F1 F2].
      split; [rewrite Eq'; exact F1 | rewrite Hj, F2; reflexivity].
    + exists q, (len pre). split; [reflexivity|]. split; [reflexivity|].
      rewrite Hs. apply nth_error_len.
Qed.

(** [float(k)] for [k < 1024] is below 1024. *)
Lemma float_of_int_small k x :
  (k < 1024)%Z -> float_of_int k = Ok x ->
  exists q, x = FFin q /\ Qle_bool 1024 q = false.
Proof.
  intros Hk H.
  destruct (Z_le_gt_dec k 0) as [L|G].
  - destruct (float_of_int_nonpositive k x L H) as [q [-> Hq]].
    exists q. split; [reflexivity|].
    destruct (Qle_bool 1024 q) eqn:B; [|reflexivity].
    apply Qle_bool_iff in B. lra.
  - destruct (float_of_int_exact k ltac:(lia)) as [q [Hq Eq]].
    exists q. split; [congruence|].
    destruct (Qle_bool 1024 q) eqn:B; [|reflexivity].
    apply Qle_bool_iff in B. rewrite Eq in B.
    change 1024 with (inject_Z 1024) in B. rewrite <- Zle_Qle in B. lia.
Qed.

End ScaleLoop.

(** [bytes_to_human_r] against the specification: the amount, converted by
    [float()], is scaled as the specification says and written in fixed
    point; the loop has fuel to spare. *)
Lemma bytes_to_human_r_spec k dp x :
  0 <= dp -> float_of_int k = Ok x ->
  bytes_to_human_r k dp = Ok (human_readable_spec (fvalue x) dp).
Proof.
  intros Hdp Hx. unfold bytes_to_human_r, human_readable_spec.
  assert (Hdp' : (dp <? 0) = false) by (apply Z.ltb_ge; exact Hdp).
  destruct (Z_lt_le_dec k 1024) as [Hsmall|Hbig].
  - rewrite (scale_loop_small _ k Hsmall). cbn [bind fst snd].
    destruct (float_of_int_small k x Hsmall Hx) as [q [-> Hq]].
    unfold format_num, format_float. rewrite Hdp'. cbn [num_to_float].
    rewrite Hx. cbn [bind fvalue]. rewrite scale_spec_cons, Hq. reflexivity.
  - destruct (float_of_int_positive k x ltac:(lia) Hx) as [q0 [-> [D0 _]]].
    pose proof (float_of_int_ge_1024 k q0 Hbig Hx) as G0.
    destruct (fdiv_1024 q0 D0 G0) as [q1 [Hq1 [E1 D1]]].
    assert (C : scale_cond (NInt k, 0) = true).
    { unfold scale_cond. cbn [fst snd num_ge].
      destruct (Z.leb_spec 1024 k); [reflexivity | lia]. }
    change (List.length suffixes) with 5%nat.
    rewrite while_loop_step, C.
    unfold scale_body at 1, num_div_float. cbn [fst snd num_to_float].
    rewrite Hx. cbn [bind]. rewrite Hq1. cbn [bind].
    destruct (scale_loop_float ["GiB"; "TiB"; "PiB"] ["KiB"] "MiB" q1 4 eq_refl D1
                ltac:(cbn; lia)) as [q' [j [Hloop [Eq' Hj]]]].
    change (len ["KiB"]) with (0 + 1) in Hloop. rewrite Hloop. cbn [bind fst snd].
    unfold format_num, format_float. rewrite Hdp'. cbn [num_to_float bind].
    unfold list_index. rewrite Hj. cbn [fvalue].
    assert (B : Qle_bool 1024 q0 = true) by (apply Qle_bool_iff; exact G0).
    rewrite (scale_spec_cons q0 "KiB"), B. cbn [bind].
    destruct (scale_spec_comp ["GiB"; "TiB"; "PiB"] q1 (q0 / 1024) "MiB" E1) as [F1 F2].
    rewrite <- F2.
    rewrite (fixed_point_comp q' (fst (scale_spec (q0 / 1024) "MiB" ["GiB"; "TiB"; "PiB"])) dp).
    + reflexivity.
    + rewrite Eq'. exact F1.
Qed.



(** ** The range of [float()] *)

Section FloatRange.

Local Open Scope Q_scope.

(** The overflow test on the rounded magnitude decides [float(n)]. *)
Lemma float_of_int_cases n :
  n <> 0%Z ->
  if Qle_bool (pow2 1024) (round_mag (inject_Z (Z.abs n)))
  then float_of_int n = Raise OverflowError
  else exists q, float_of_int n = Ok (FFin q).
Proof.
  intros Hn. unfold float_of_int, binary64_round.
  destruct (Z_lt_le_dec n 0) as [L|G].
  - assert (P : inject_Z n < 0) by (change 0 with (inject_Z 0); rewrite <- Zlt_Qlt; lia).
    assert (C : Qcompare (inject_Z n) 0 = Lt) by (apply Qlt_alt; exact P).
    rewrite C. replace (Z.abs n) with (- n)%Z by lia.
    change (inject_Z (- n)) with (- inject_Z n).
    assert (G : 1 <= round_mag (- inject_Z n)).
    { apply round_mag_ge_one. rewrite <- inject_Z_opp.
      change 1 with (inject_Z 1). rewrite <- Zle_Qle. lia. }
    destruct (Qle_bool (pow2 1024) (round_mag (- inject_Z n))); [reflexivity|].
    destruct (Qeq_bool (round_mag (- inject_Z n)) 0) eqn:B; [|eexists; reflexivity].
    apply Qeq_bool_iff in B. exfalso. lra.
  - assert (P : 0 < inject_Z n) by (change 0 with (inject_Z 0); rewrite <- Zlt_Qlt; lia).
    assert (C : Qcompare (inject_Z n) 0 = Gt) by (apply Qgt_alt; exact P).
    rewrite C. replace (Z.abs n) with n by lia.
    destruct (Qle_bool (pow2 1024) (round_mag (inject_Z n))); [reflexivity|].
    eexists; reflexivity.
Qed.

End FloatRange.

(** [float(n)] exists exactly below [2^1024 - 2^970], the midpoint between
    the largest double and [2^1024]. *)
Lemma float_of_int_range n :
  (Z.abs n < 2 ^ 1024 - 2 ^ 970 -> exists q, float_of_int n = Ok (FFin q)) /\
  (2 ^ 1024 - 2 ^ 970 <= Z.abs n -> float_of_int n = Raise OverflowError).
Proof.
  destruct (Z.eq_dec n 0) as [E|N].
  - subst n. split; [intros _; exists 0%Q; reflexivity | cbn [Z.abs]; lia].
  - pose proof (float_of_int_cases n N) as H.
    assert (Pn : (0 < inject_Z (Z.abs n))%Q).
    { change 0%Q with (inject_Z 0). rewrite <- Zlt_Qlt. lia. }
    split; intros Hr.
    + destruct (Qle_bool (pow2 1024) (round_mag (inject_Z (Z.abs n)))) eqn:B;
        [|exact H].
      exfalso. apply Qle_bool_iff in B.
      assert (K : (round_mag (inject_Z (2 ^ 1024 - 2 ^ 970 - 1)) < pow2 1024)%Q)
        by (vm_compute; reflexivity).
      assert (M : (round_mag (inject_Z (Z.abs n))
                   <= round_mag (inject_Z (2 ^ 1024 - 2 ^ 970 - 1)))%Q).
      { apply round_mag_mono; [exact Pn|]. rewrite <- Zle_Qle. lia. }
      lra.
    + destruct (Qle_bool (pow2 1024) (round_mag (inject_Z (Z.abs n)))) eqn:B;
        [exact H|].
      exfalso.
      assert (B' : ~ (pow2 1024 <= round_mag (inject_Z (Z.abs n)))%Q).
      { rewrite <- Qle_bool_iff. congruence. }
      assert (K : (pow2 1024 <= round_mag (inject_Z (2 ^ 1024 - 2 ^ 970)))%Q)
        by (vm_compute; discriminate).
      assert (M : (round_mag (inject_Z (2 ^ 1024 - 2 ^ 970))
                   <= round_mag (inject_Z (Z.abs n)))%Q).
      { apply round_mag_mono; [reflexivity|]. rewrite <- Zle_Qle. lia. }
      apply B'. lra.
Qed.




(** * The claims *)

(** ** The bar renderer *)



(** C6, counterexample: the fraction 1.0 with a width of [2^53 + 3].  The
    width is not a double: [float()] rounds it up to [2^53 + 4], and that
    many fill characters are produced. *)
Lemma percent_to_graph_wide_bar :
  in_unit_interval (FFin 1) /\
  exists bar, percent_to_graph (FFin 1) 9007199254740995 = Ok bar /\
    Z.of_nat (count_char "#" bar) = 9007199254740996 /\
    Z.of_nat (String.length bar) = 9007199254740996.
Proof.
  split.
  - split; [reflexivity | split; discriminate].
  - assert (H : num_hashes (FFin 1) 9007199254740995 = Ok 9007199254740996)
      by (vm_compute; reflexivity).
    exists (bar_of 9007199254740996 9007199254740995).
    rewrite percent_to_graph_num_hashes, H, bar_count, bar_length.
    split; [reflexivity | split; lia].
Qed.

(** C6, amended: for all fractions between 0.0 and 1.0 and every length
    from 0 to [2^53], the bar has exactly [length] characters, each of them
    the fill character or the blank, and the number of fill characters does
    not decrease when the fraction grows. *)
Theorem percent_to_graph_unit_interval :
  forall (x y : pyfloat) (length : Z),
    in_unit_interval x -> in_unit_interval y -> (fvalue x <= fvalue y)%Q ->
    0 <= length <= 2 ^ 53 ->
    exists bar_x bar_y,
      percent_to_graph x length = Ok bar_x /\
      percent_to_graph y length = Ok bar_y /\
      Z.of_nat (String.length bar_x) = length /\
      Z.of_nat (String.length bar_y) = length /\
      all_chars bar_char bar_x = true /\
      all_chars bar_char bar_y = true /\
      (count_char "#" bar_x <= count_char "#" bar_y)%nat.
Proof.
  intros x y length Hx Hy Hxy HL.
  destruct (num_hashes_unit x y length Hx Hy Hxy HL) as [n [m [Hn [Hm [H0 [H1 H2]]]]]].
  exists (bar_of n length), (bar_of m length).
  rewrite !percent_to_graph_num_hashes, Hn, Hm, !bar_length, !bar_chars.
  repeat split; try reflexivity; try lia.
  apply Nat2Z.inj_le. rewrite !bar_count. lia.
Qed.

Lemma percent_to_graph_unit_interval_witness :
  exists bar_x bar_y,
    percent_to_graph (FFin (1 # 4)) 20 = Ok bar_x /\
    percent_to_graph (FFin (3 # 4)) 20 = Ok bar_y /\
    Z.of_nat (String.length bar_x) = 20 /\
    Z.of_nat (String.length bar_y) = 20 /\
    all_chars bar_char bar_x = true /\
    all_chars bar_char bar_y = true /\
    (count_char "#" bar_x <= count_char "#" bar_y)%nat.
Proof.
  apply (percent_to_graph_unit_interval (FFin (1 # 4)) (FFin (3 # 4)) 20).
  - split; [reflexivity | split; discriminate].
  - split; [reflexivity | split; discriminate].
  - discriminate.
  - lia.
Defined.

(** ** The system-wide report *)

(** C2: in system-wide mode the one line printed is the report line of
    [used = total - available] over [total], whose fraction is
    [used / total].  With a total of 16,000,000 KiB, 4,000,000 KiB
    available and a bar of length 20: [used] is 12,000,000, the fraction is
    0.75, the bar holds exactly 15 fill characters and the percentage
    printed is 75. *)
Theorem system_report_fraction :
  forall (e : env) (a : args) (total avail : Z),
    no_program a = true ->
    get_sys_mem e = Ok (Some total) -> get_avail_mem e = Ok avail ->
    run e a = print_result (report_line a "Memory        " (total - avail) total) /\
    (total = 16000000 -> avail = 4000000 -> args_length a = 20 ->
     total - avail = 12000000 /\
     int_truediv (total - avail) total = Ok (FFin (3 # 4)) /\
     percent_to_graph (FFin (3 # 4)) 20 = Ok "###############     " /\
     count_char "#" "###############     " = 15%nat /\
     percent_str (FFin (3 # 4)) = Ok "75" /\
     exists used_s total_s,
       amount_str a 12000000 = Ok used_s /\
       amount_str a 16000000 = Ok total_s /\
       run e a =
       (["Memory         [###############     | 75%] " ++ used_s ++ "/" ++ total_s],
        Ok tt)).
Proof.
  intros e a total avail Hp Ht Ha.
  pose proof (run_system e a total avail Hp Ht Ha) as Hrun.
  split; [exact Hrun|].
  intros -> -> Hlen. rewrite Hrun. clear Hrun Hp Ht Ha.
  destruct a as [len hr prog]. simpl in Hlen. subst len.
  split; [reflexivity|].
  split; [vm_compute; reflexivity|].
  split; [vm_compute; reflexivity|].
  split; [reflexivity|].
  split; [vm_compute; reflexivity|].
  destruct hr.
  - exists "11.44 GiB", "15.26 GiB". repeat split; vm_compute; reflexivity.
  - exists "12000000", "16000000". repeat split; vm_compute; reflexivity.
Qed.

Lemma system_report_fraction_witness :
  run (system_with meminfo_16m) (example_args 20 false None)
  = (["Memory         [###############     | 75%] 12000000/16000000"], Ok tt).
Proof.
  destruct (system_report_fraction (system_with meminfo_16m)
              (example_args 20 false None) 16000000 4000000)
    as [H _]; [reflexivity | vm_compute; reflexivity | vm_compute; reflexivity |].
  rewrite H. vm_compute. reflexivity.
Defined.

(** ** The per-program report *)

(** C3: in per-program mode with at least one pid resolved, the run ends
    normally exactly when every process is read and every line rendered.
    It then prints one line per pid, in order, and, when more than one pid
    was resolved, exactly one more line: that of the program name, whose
    fraction is the sum of the resident memory values of all the processes
    divided by the same system total.  With a single pid no aggregate line
    is printed. *)
Theorem aggregate_line_fraction :
  forall (e : env) (a : args) (name : string) (total : Z)
         (pid : string) (rest : list string) (out : list string),
    args_program a = Some name -> name <> "" ->
    get_sys_mem e = Ok (Some total) ->
    pids_of_prog e name = pid :: rest ->
    (run e a = (out, Ok tt) <->
     exists rss_list lines,
       pid_lines e a total (pid :: rest) rss_list lines /\
       match rest with
       | [] => out = lines
       | _ :: _ =>
           exists fraction agg,
             int_truediv (sum rss_list) total = Ok fraction /\
             render_line a (ljust name 15) fraction (sum rss_list) total = Ok agg /\
             out = (lines ++ [agg])%list
       end) /\
    (run e a = (out, Ok tt) ->
     List.length out =
     (List.length (pid :: rest) + match rest with [] => 0 | _ :: _ => 1 end)%nat).
Proof.
  intros e a name total pid rest out Hp Hn Ht Hpids.
  assert (Hiff :
    run e a = (out, Ok tt) <->
    exists rss_list lines,
      pid_lines e a total (pid :: rest) rss_list lines /\
      match rest with
      | [] => out = lines
      | _ :: _ =>
          exists fraction agg,
            int_truediv (sum rss_list) total = Ok fraction /\
            render_line a (ljust name 15) fraction (sum rss_list) total = Ok agg /\
            out = (lines ++ [agg])%list
      end).
  { rewrite (run_program e a name total pid rest Hp Hn Ht Hpids). split.
    - intros H.
      destruct (report_pids e a (Some total) (pid :: rest) [] "" [])
        as [out0 [st| |]] eqn:Hloop; try discriminate.
      destruct (report_pids_sound _ _ _ _ _ _ _ _ _ Hloop)
        as [rss_list [lines [Hpl [Hout [Hfst _]]]]].
      simpl in Hout, Hfst. subst out0. rewrite Hfst in H.
      exists rss_list, lines. split; [exact Hpl|].
      destruct rest as [|pid' rest'].
      + cbn in H. congruence.
      + rewrite several_pids in H. unfold report_line in H.
        destruct (int_truediv (sum rss_list) total) as [fraction| |] eqn:Hf;
          try discriminate.
        cbn [bind] in H.
        destruct (render_line a (ljust name 15) fraction (sum rss_list) total)
          as [agg| |] eqn:Hagg; try discriminate.
        exists fraction, agg. repeat split; congruence.
    - intros [rss_list [lines [Hpl Hrest]]].
      destruct (report_pids_complete _ _ _ _ _ _ Hpl [] "" []) as [st [Hloop Hfst]].
      rewrite Hloop. simpl in Hfst. rewrite Hfst. simpl app.
      destruct rest as [|pid' rest'].
      + cbn. congruence.
      + destruct Hrest as [fraction [agg [Hf [Hagg ->]]]].
        rewrite several_pids. unfold report_line. rewrite Hf. cbn [bind].
        rewrite Hagg. reflexivity. }
  split; [exact Hiff|].
  intros H. apply Hiff in H. destruct H as [rss_list [lines [Hpl Hrest]]].
  destruct (pid_lines_length _ _ _ _ _ _ Hpl) as [_ Hlen].
  destruct rest as [|pid' rest'].
  - subst out. rewrite Hlen. simpl. lia.
  - destruct Hrest as [fraction [agg [_ [_ ->]]]].
    rewrite length_app, Hlen. reflexivity.
Qed.

Lemma aggregate_line_fraction_witness :
  run (system_with meminfo_16m) (example_args 10 false (Some "foo"))
  = (["12              [#         | 13%] 2000100/16000000";
      "345             [##        | 25%] 4000000/16000000";
      "foo             [####      | 38%] 6000100/16000000"], Ok tt).
Proof.
  apply (aggregate_line_fraction (system_with meminfo_16m)
           (example_args 10 false (Some "foo")) "foo" 16000000 "12" ["345"]).
  - reflexivity.
  - discriminate.
  - vm_compute. reflexivity.
  - vm_compute. reflexivity.
  - exists [2000100; 4000000].
    exists ["12              [#         | 13%] 2000100/16000000";
            "345             [##        | 25%] 4000000/16000000"].
    split.
    + repeat (econstructor; try (vm_compute; reflexivity)).
    + eexists. exists "foo             [####      | 38%] 6000100/16000000".
      split; [vm_compute; reflexivity|].
      split; vm_compute; reflexivity.
Defined.

(** ** Reading the memory information *)

(** C4: when no line of a readable [/proc/meminfo] begins with
    [MemTotal:], [get_sys_mem] raises nothing: it falls off its loop and
    returns [None], although it is declared to return an int.  The caller
    is not told: the system-wide report then fails with a [TypeError] at
    [total_mem - avail_mem], the per-program report fails with a
    [TypeError] at the first division once a process has been read, and a
    per-program run that resolves no process ends as if nothing were
    wrong. *)
Theorem get_sys_mem_without_total :
  forall (e : env) (lines : list string),
    files e "/proc/meminfo" = Some lines ->
    label_absent "MemTotal:" lines ->
    get_sys_mem e = Ok None /\
    (forall a avail, no_program a = true -> get_avail_mem e = Ok avail ->
       run e a = ([], Raise TypeError)) /\
    (forall a name, args_program a = Some name -> name <> "" ->
       pids_of_prog e name = [] ->
       run e a = (["No processes found for " ++ name], Raise (SystemExit 1))) /\
    (forall a name pid rest rss, args_program a = Some name -> name <> "" ->
       pids_of_prog e name = pid :: rest -> rss_mem_of_pid e pid = Ok rss ->
       run e a = ([], Raise TypeError)).
Proof.
  intros e lines Hfile Habs.
  assert (Hnone : get_sys_mem e = Ok None).
  { unfold get_sys_mem, open_lines. rewrite Hfile. cbn [bind].
    apply scan_mem_total_absent, Habs. }
  split; [exact Hnone|]. split; [|split].
  - intros a avail Hp Ha. unfold run, main. rewrite Hp.
    cbv [io_bind lift]. rewrite Hnone, Ha. reflexivity.
  - intros a name Hp Hn Hpids. exact (run_no_pids e a name None Hp Hn Hnone Hpids).
  - intros a name pid rest rss Hp Hn Hpids Hrss. unfold run, main.
    rewrite (no_program_named a name Hp Hn), Hp.
    cbv [io_bind lift]. rewrite Hnone, Hpids.
    cbn [report_pids]. cbv [io_bind lift]. rewrite Hrss. reflexivity.
Qed.

Lemma get_sys_mem_without_total_witness :
  get_sys_mem (system_with meminfo_no_total) = Ok None /\
  run (system_with meminfo_no_total) (example_args 20 false None)
    = ([], Raise TypeError) /\
  run (system_with meminfo_no_total) (example_args 20 false (Some "bar"))
    = (["No processes found for bar"], Raise (SystemExit 1)) /\
  run (system_with meminfo_no_total) (example_args 20 false (Some "foo"))
    = ([], Raise TypeError).
Proof.
  destruct (get_sys_mem_without_total (system_with meminfo_no_total) meminfo_no_total)
    as [H1 [H2 [H3 H4]]].
  - reflexivity.
  - repeat constructor.
  - split; [exact H1|]. split; [|split].
    + apply (H2 _ 4000000); vm_compute; reflexivity.
    + apply (H3 _ "bar"); [reflexivity | discriminate | vm_compute; reflexivity].
    + apply (H4 _ "foo" "12" ["345"] 2000100);
        [reflexivity | discriminate | vm_compute; reflexivity | vm_compute; reflexivity].
Defined.

(** C8: when no line of [/proc/meminfo] begins with [MemAvailable:],
    [get_avail_mem] returns the sentinel -1 and raises nothing; otherwise it
    returns the second whitespace-separated token of the first such line,
    parsed as an integer (and raises as [line.split()[1]] or [int()] do when
    the line has no such token or the token is no integer). *)
Theorem get_avail_mem_sentinel :
  forall (e : env) (lines : list string),
    files e "/proc/meminfo" = Some lines ->
    (label_absent "MemAvailable:" lines -> get_avail_mem e = Ok (-1)) /\
    (forall pre line post,
       lines = (pre ++ line :: post)%list ->
       label_absent "MemAvailable:" pre ->
       startswith line "MemAvailable:" = true ->
       get_avail_mem e = (tok <- list_index (split line) 1 ;; int_of_str tok) /\
       (forall tok n, nth_error (split line) 1 = Some tok -> int_of_str tok = Ok n ->
          get_avail_mem e = Ok n)).
Proof.
  intros e lines Hfile.
  unfold get_avail_mem, open_lines. rewrite Hfile. cbn [bind]. split.
  - apply scan_mem_available_absent.
  - intros pre line post -> Hpre Hline.
    rewrite (scan_mem_available_first pre line post Hpre Hline).
    split; [reflexivity|].
    intros tok n Htok Hn. unfold list_index. rewrite Htok. exact Hn.
Qed.

Lemma get_avail_mem_sentinel_witness :
  get_avail_mem (system_with meminfo_no_available) = Ok (-1) /\
  get_avail_mem (system_with meminfo_16m) = Ok 4000000.
Proof.
  split.
  - apply (get_avail_mem_sentinel (system_with meminfo_no_available)
             meminfo_no_available); [reflexivity|].
    repeat constructor.
  - destruct (get_avail_mem_sentinel (system_with meminfo_16m) meminfo_16m eq_refl)
      as [_ H].
    destruct (H ["MemTotal:       16000000 kB" ++ nl; "MemFree:         1000000 kB" ++ nl]
                ("MemAvailable:    4000000 kB" ++ nl) [] eq_refl) as [_ H2].
    + repeat constructor.
    + reflexivity.
    + apply (H2 "4000000"); vm_compute; reflexivity.
Defined.

(** ** No matching process *)

(** C5: the resolver returns the empty list, and no error, exactly when
    [pidof] prints nothing but whitespace.  For every program name that
    resolves to no pid, once the total memory has been read, the program
    prints exactly "No processes found for <name>" and ends with exit
    status 1. *)
Theorem no_processes_found :
  forall (e : env) (a : args) (name : string) (total_mem : option Z),
    args_program a = Some name -> name <> "" ->
    get_sys_mem e = Ok total_mem ->
    (pids_of_prog e name = [] <->
     all_chars is_space (popen e ("pidof " ++ name)) = true) /\
    (pids_of_prog e name = [] ->
     run e a = (["No processes found for " ++ name], Raise (SystemExit 1)) /\
     exit_status (snd (run e a)) = 1).
Proof.
  intros e a name total_mem Hp Hn Ht. split.
  - apply pids_of_prog_nil.
  - intros Hpids. rewrite (run_no_pids e a name total_mem Hp Hn Ht Hpids).
    split; reflexivity.
Qed.

Lemma no_processes_found_witness :
  run (system_with meminfo_16m) (example_args 20 false (Some "bar"))
    = (["No processes found for bar"], Raise (SystemExit 1)) /\
  exit_status (snd (run (system_with meminfo_16m) (example_args 20 false (Some "bar")))) = 1.
Proof.
  apply (no_processes_found (system_with meminfo_16m)
           (example_args 20 false (Some "bar")) "bar" (Some 16000000)).
  - reflexivity.
  - discriminate.
  - vm_compute. reflexivity.
  - vm_compute. reflexivity.
Defined.

(** ** The sentinel in the system-wide report *)

(** C9, counterexample: with a total of [2^53] KiB and no [MemAvailable:]
    line, [used] is [2^53 + 1] and the fraction [used / total] is exactly
    1.0: the quotient lies halfway between 1.0 and the next double, and
    rounds to 1.0. *)
Lemma sentinel_fraction_not_above_one :
  get_sys_mem (system_with meminfo_huge_total) = Ok (Some 9007199254740992) /\
  get_avail_mem (system_with meminfo_huge_total) = Ok (-1) /\
  int_truediv (9007199254740992 - -1) 9007199254740992 = Ok (FFin 1) /\
  run (system_with meminfo_huge_total) (example_args 20 false None)
  = (["Memory         [####################| 100%] 9007199254740993/9007199254740992"],
     Ok tt).
Proof. repeat split; vm_compute; reflexivity. Qed.

(** C9, amended: when [get_avail_mem] returns the sentinel -1 and
    [get_sys_mem] returns [T > 0], the system-wide report computes
    [used = T + 1] with no guard and renders the line from the fraction
    [(T + 1) / T] as it is.  That fraction is a double that is never below
    1.0; it is strictly greater than 1.0 when [T < 2^53], and exactly 1.0
    from [T = 2^53] on. *)
Theorem sentinel_overshoot :
  forall (e : env) (a : args) (T : Z),
    no_program a = true ->
    get_sys_mem e = Ok (Some T) -> get_avail_mem e = Ok (-1) -> 0 < T ->
    exists f,
      T - -1 = T + 1 /\ T < T - -1 /\
      int_truediv (T - -1) T = Ok (FFin f) /\
      (1 <= f)%Q /\ (T < 2 ^ 53 -> (1 < f)%Q) /\ (2 ^ 53 <= T -> (f == 1)%Q) /\
      run e a = print_result (render_line a "Memory        " (FFin f) (T - -1) T).
Proof.
  intros e a T Hp Ht Ha HT.
  destruct (truediv_overshoot T HT) as [f [Hf [F1 [F2 F3]]]].
  exists f. replace (T - -1) with (T + 1) by lia.
  split; [reflexivity|]. split; [lia|]. split; [exact Hf|].
  split; [exact F1|]. split; [exact F2|]. split; [exact F3|].
  rewrite (run_system e a T (-1) Hp Ht Ha).
  replace (T - -1) with (T + 1) by lia.
  unfold report_line. rewrite Hf. reflexivity.
Qed.

Lemma sentinel_overshoot_witness :
  exists f,
    16000000 - -1 = 16000000 + 1 /\ 16000000 < 16000000 - -1 /\
    int_truediv (16000000 - -1) 16000000 = Ok (FFin f) /\
    (1 <= f)%Q /\ (16000000 < 2 ^ 53 -> (1 < f)%Q) /\
    (2 ^ 53 <= 16000000 -> (f == 1)%Q) /\
    run (system_with meminfo_no_available) (example_args 20 false None)
    = print_result
        (render_line (example_args 20 false None) "Memory        " (FFin f)
           (16000000 - -1) 16000000).
Proof.
  apply (sentinel_overshoot (system_with meminfo_no_available)
           (example_args 20 false None) 16000000).
  - reflexivity.
  - vm_compute. reflexivity.
  - vm_compute. reflexivity.
  - lia.
Defined.

(** ** The unit formatter *)






(** * Further lemmas *)

(** ** Strings: tokens, [split], [strip] *)

Lemma append_nil_r s : s ++ "" = s.
Proof. induction s as [|c s IH]; cbn; [reflexivity | rewrite IH; reflexivity]. Qed.

Lemma append_assoc (s t u : string) : (s ++ t) ++ u = s ++ t ++ u.
Proof. induction s as [|c s IH]; cbn; [reflexivity | rewrite IH; reflexivity]. Qed.

Lemma is_empty_true s : is_empty s = true <-> s = "".
Proof. destruct s; cbn; split; intros H; try reflexivity; discriminate H. Qed.

Lemma is_empty_append_char tok c : is_empty (tok ++ String c "") = false.
Proof. destruct tok; reflexivity. Qed.

Lemma no_space_append s t : no_space (s ++ t) = no_space s && no_space t.
Proof. apply all_chars_append. Qed.

Lemma no_space_cons c s : no_space (String c s) = negb (is_space c) && no_space s.
Proof. reflexivity. Qed.

(** [split] reads a run of characters that are not whitespace into the
    token it is building. *)
Lemma split_from_token t :
  forall s tok, no_space t = true -> split_from (t ++ s) tok = split_from s (tok ++ t).
Proof.
  induction t as [|c t IH]; intros s tok H.
  - cbn. rewrite append_nil_r. reflexivity.
  - rewrite no_space_cons in H. apply andb_true_iff in H. destruct H as [Hc Ht].
    apply negb_true_iff in Hc. cbn [append split_from]. rewrite Hc.
    rewrite (IH s _ Ht). rewrite append_assoc. reflexivity.
Qed.

(** Whitespace before a token is skipped. *)
Lemma split_from_spaces sp :
  forall s, all_chars is_space sp = true -> split_from (sp ++ s) "" = split_from s "".
Proof.
  induction sp as [|c sp IH]; intros s H; [reflexivity|].
  cbn [all_chars] in H. apply andb_true_iff in H. destruct H as [Hc Hs].
  cbn [append split_from]. rewrite Hc. cbn [is_empty]. apply IH. exact Hs.
Qed.

(** Whitespace after a token ends it. *)
Lemma split_from_end_token sp s tok :
  sp <> "" -> all_chars is_space sp = true -> tok <> "" ->
  split_from (sp ++ s) tok = tok :: split_from s "".
Proof.
  intros N H T. destruct sp as [|c sp]; [contradiction|].
  cbn [all_chars] in H. apply andb_true_iff in H. destruct H as [Hc Hs].
  cbn [append split_from]. rewrite Hc.
  destruct tok as [|d tok]; [contradiction|]. cbn [is_empty].
  rewrite (split_from_spaces sp s Hs). reflexivity.
Qed.

Lemma split_from_all_space s :
  all_chars is_space s = true -> split_from s "" = [].
Proof.
  intros H. rewrite <- (append_nil_r s). rewrite (split_from_spaces s "" H). reflexivity.
Qed.

Lemma all_chars_str_times_space n : all_chars is_space (str_times " " n) = true.
Proof. apply all_chars_str_times. reflexivity. Qed.

(** Every token that [split] gives is not empty and holds no whitespace. *)
Lemma split_from_tokens s :
  forall tok, no_space tok = true -> Forall is_token (split_from s tok).
Proof.
  induction s as [|c s IH]; intros tok H; cbn [split_from].
  - destruct (is_empty tok) eqn:E; [constructor|].
    constructor; [|constructor]. split; [|exact H].
    intros C. rewrite C in E. discriminate E.
  - destruct (is_space c) eqn:Hc.
    + destruct (is_empty tok) eqn:E.
      * apply IH. reflexivity.
      * constructor; [|apply IH; reflexivity]. split; [|exact H].
        intros C. rewrite C in E. discriminate E.
    + apply IH. rewrite no_space_append, H. cbn. rewrite Hc. reflexivity.
Qed.

Lemma split_tokens s : Forall is_token (split s).
Proof. apply split_from_tokens. reflexivity. Qed.

(** [strip] changes nothing for [split]. *)
Lemma split_from_lstrip s : split_from (lstrip s) "" = split_from s "".
Proof.
  induction s as [|c s IH]; [reflexivity|].
  cbn [lstrip]. destruct (is_space c) eqn:Hc.
  - rewrite IH. cbn [split_from]. rewrite Hc. reflexivity.
  - reflexivity.
Qed.

Lemma rstrip_empty_all_space s : rstrip s = "" -> all_chars is_space s = true.
Proof.
  intros H. apply all_space_rstrip. rewrite H. reflexivity.
Qed.

Lemma split_from_rstrip s : forall tok, split_from (rstrip s) tok = split_from s tok.
Proof.
  induction s as [|c s IH]; intros tok; [reflexivity|].
  cbn [rstrip]. destruct (is_space c) eqn:Hc; cbn [andb].
  - destruct (is_empty (rstrip s)) eqn:E.
    + apply is_empty_true in E.
      pose proof (rstrip_empty_all_space s E) as A.
      cbn [split_from]. rewrite Hc, (split_from_all_space s A).
      destruct (is_empty tok); reflexivity.
    + cbn [split_from]. rewrite Hc, !IH. reflexivity.
  - cbn [split_from]. rewrite Hc. apply IH.
Qed.

Lemma split_strip s : split (strip s) = split s.
Proof. unfold split, strip. rewrite split_from_rstrip, split_from_lstrip. reflexivity. Qed.

(** A string with no whitespace is its own [strip]. *)
Lemma lstrip_no_space s : no_space s = true -> lstrip s = s.
Proof.
  destruct s as [|c s]; [reflexivity|]. rewrite no_space_cons. intros H.
  apply andb_true_iff in H. destruct H as [Hc _]. apply negb_true_iff in Hc.
  cbn [lstrip]. rewrite Hc. reflexivity.
Qed.

Lemma rstrip_no_space s : no_space s = true -> rstrip s = s.
Proof.
  induction s as [|c s IH]; [reflexivity|]. rewrite no_space_cons. intros H.
  apply andb_true_iff in H. destruct H as [Hc Hs]. apply negb_true_iff in Hc.
  cbn [rstrip]. rewrite Hc, (IH Hs). reflexivity.
Qed.

Lemma strip_no_space s : no_space s = true -> strip s = s.
Proof.
  intros H. unfold strip. rewrite (lstrip_no_space s H). apply rstrip_no_space, H.
Qed.

Lemma prefix_append p s : String.prefix p (p ++ s) = true.
Proof.
  induction p as [|c p IH]; cbn.
  - destruct s; reflexivity.
  - destruct (ascii_dec c c) as [_|N]; [exact IH | contradiction].
Qed.

Lemma startswith_append p s : startswith (p ++ s) p = true.
Proof. apply prefix_append. Qed.

(** [" ".join(xs)] followed by an end of line is split into [xs] again. *)
Lemma split_from_join xs :
  Forall is_token xs -> split_from (join " " xs ++ nl) "" = xs.
Proof.
  induction xs as [|x rest IH]; intros H; [reflexivity|].
  inversion H as [|x' rest' [Nx Sx] Hrest]; subst.
  destruct rest as [|y rest].
  - cbn [join]. rewrite (split_from_token x nl "" Sx). cbn [append].
    unfold nl. cbn [split_from]. change (is_space (ascii_of_nat 10)) with true.
    cbv iota. destruct x; [contradiction | reflexivity].
  - change (join " " (x :: y :: rest)) with (x ++ " " ++ join " " (y :: rest)).
    rewrite !append_assoc. rewrite (split_from_token x _ "" Sx).
    change ("" ++ x) with x.
    rewrite (split_from_end_token " " _ x); [| discriminate | reflexivity | exact Nx].
    rewrite (IH Hrest). reflexivity.
Qed.

(** ** Numerals: [str] and [int] *)

Lemma all_chars_impl (p q : ascii -> bool) s :
  (forall c, p c = true -> q c = true) ->
  all_chars p s = true -> all_chars q s = true.
Proof.
  intros I. induction s as [|c s IH]; cbn [all_chars]; [reflexivity|].
  intros H. apply andb_true_iff in H. destruct H as [Hc Hs].
  rewrite (I c Hc), (IH Hs). reflexivity.
Qed.

Lemma digit_not_space c : is_digit c = true -> negb (is_space c) = true.
Proof.
  unfold is_digit, digit_value, is_space.
  set (n := Z.of_N (N_of_ascii c)). intros D.
  destruct (Z.leb_spec 48 n) as [L1|L1], (Z.leb_spec n 57) as [L2|L2];
    cbn [andb] in D; try discriminate D.
  destruct (Z.leb_spec 9 n), (Z.leb_spec n 13), (Z.leb_spec 28 n), (Z.leb_spec n 32);
    cbn; try reflexivity; lia.
Qed.

Lemma digits_no_space s : all_chars is_digit s = true -> no_space s = true.
Proof. apply all_chars_impl. exact digit_not_space. Qed.

(** [int()] reads the digits of a numeral as its value. *)
Lemma parse_digits_uint d :
  forall acc b, d <> Decimal.Nil \/ b = true ->
    parse_digits (NilEmpty.string_of_uint d) acc b = Some (uint_value d acc).
Proof.
  induction d as [|d IH|d IH|d IH|d IH|d IH|d IH|d IH|d IH|d IH|d IH];
    intros acc b H;
    try (cbn [NilEmpty.string_of_uint parse_digits uint_value];
         change (digit_value _) with (Some 0) || change (digit_value _) with (Some 1)
         || change (digit_value _) with (Some 2) || change (digit_value _) with (Some 3)
         || change (digit_value _) with (Some 4) || change (digit_value _) with (Some 5)
         || change (digit_value _) with (Some 6) || change (digit_value _) with (Some 7)
         || change (digit_value _) with (Some 8) || change (digit_value _) with (Some 9);
         cbv iota; rewrite ?Z.add_0_r; apply IH; right; reflexivity).
  destruct H as [H|H]; [contradiction|]. subst b. reflexivity.
Qed.

Lemma uint_value_acc d :
  forall p, uint_value d (Zpos p) = Zpos (Pos.of_uint_acc d p).
Proof.
  induction d as [|d IH|d IH|d IH|d IH|d IH|d IH|d IH|d IH|d IH|d IH];
    intros p; cbn [uint_value Pos.of_uint_acc]; [reflexivity|..];
    rewrite <- IH; f_equal; lia.
Qed.

Lemma uint_value_0 d : uint_value d 0 = Z.of_N (Pos.of_uint d).
Proof.
  induction d as [|d IH|d IH|d IH|d IH|d IH|d IH|d IH|d IH|d IH|d IH];
    cbn [uint_value Pos.of_uint]; [reflexivity | exact IH | ..];
    cbn [Z.mul Z.add Z.of_N]; apply uint_value_acc.
Qed.

Lemma uint_value_pos p : uint_value (Pos.to_uint p) 0 = Zpos p.
Proof. rewrite uint_value_0, Unsigned.of_to. reflexivity. Qed.

Lemma str_of_int_pos p :
  str_of_int (Zpos p) = NilEmpty.string_of_uint (Pos.to_uint p).
Proof.
  unfold str_of_int. cbn [Z.to_int NilZero.string_of_int].
  pose proof (Unsigned.to_uint_nonnil p) as N.
  destruct (Pos.to_uint p); [contradiction | reflexivity..].
Qed.

Lemma str_of_int_neg p :
  str_of_int (Zneg p) = String "-" (NilEmpty.string_of_uint (Pos.to_uint p)).
Proof.
  unfold str_of_int. cbn [Z.to_int NilZero.string_of_int].
  pose proof (Unsigned.to_uint_nonnil p) as N.
  destruct (Pos.to_uint p); [contradiction | reflexivity..].
Qed.

(** A numeral holds no whitespace and is not empty. *)
Lemma str_of_int_token n : is_token (str_of_int n).
Proof.
  destruct n as [|p|p].
  - split; [discriminate | reflexivity].
  - destruct (str_of_int_digits (Zpos p) ltac:(lia)) as [N D].
    split; [exact N | apply digits_no_space, D].
  - rewrite str_of_int_neg. split; [discriminate|].
    rewrite no_space_cons. apply andb_true_iff. split; [reflexivity|].
    apply digits_no_space, string_of_uint_digits.
Qed.

(** [int()] on digits alone: no sign to read. *)
Lemma int_of_str_digits s :
  s <> "" -> all_chars is_digit s = true ->
  int_of_str s =
  match parse_digits s 0 false with
  | Some n => Ok n
  | None => Raise ValueError
  end.
Proof.
  intros N D. unfold int_of_str. rewrite (strip_no_space s (digits_no_space s D)).
  destruct s as [|c s]; [contradiction|].
  cbn [all_chars] in D. apply andb_true_iff in D. destruct D as [Dc _].
  destruct c as [[] [] [] [] [] [] [] []]; try reflexivity; cbv in Dc; discriminate Dc.
Qed.

(** Round trip: [int(str(n)) == n] for every int. *)
Lemma int_of_str_of_int n : int_of_str (str_of_int n) = Ok n.
Proof.
  destruct n as [|p|p].
  - reflexivity.
  - destruct (str_of_int_digits (Zpos p) ltac:(lia)) as [N D].
    rewrite (int_of_str_digits _ N D), str_of_int_pos.
    rewrite parse_digits_uint by (left; apply Unsigned.to_uint_nonnil).
    rewrite uint_value_pos. reflexivity.
  - rewrite str_of_int_neg. unfold int_of_str.
    rewrite strip_no_space.
    + rewrite parse_digits_uint by (left; apply Unsigned.to_uint_nonnil).
      rewrite uint_value_pos. reflexivity.
    + rewrite no_space_cons. apply andb_true_iff. split; [reflexivity|].
      apply digits_no_space, string_of_uint_digits.
Qed.

(** ** Lines of [/proc/meminfo] and of [smaps] *)

Lemma str_times_nonempty s n : s <> "" -> (1 <= n)%nat -> str_times s n <> "".
Proof.
  intros N H. destruct n as [|n]; [lia|]. cbn [str_times].
  destruct s; [contradiction | discriminate].
Qed.

(** The three tokens of a line written by the kernel. *)
Lemma split_field_line label pad n :
  is_token label -> (1 <= pad)%nat ->
  split (field_line label pad n) = [label; str_of_int n; "kB"].
Proof.
  intros [Nl Sl] Hp. destruct (str_of_int_token n) as [Nn Sn].
  unfold split, field_line.
  rewrite (split_from_token label _ "" Sl). change ("" ++ label) with label.
  rewrite (split_from_end_token (str_times " " pad) _ label);
    [| apply str_times_nonempty; [discriminate | exact Hp]
     | apply all_chars_str_times_space | exact Nl].
  rewrite (split_from_token (str_of_int n) _ "" Sn).
  change ("" ++ str_of_int n) with (str_of_int n).
  change (" kB" ++ nl) with (" " ++ ("kB" ++ nl)).
  rewrite (split_from_end_token " " ("kB" ++ nl) (str_of_int n));
    [| discriminate | reflexivity | exact Nn].
  reflexivity.
Qed.

Lemma second_token_field_line label pad n :
  is_token label -> (1 <= pad)%nat ->
  second_token_is (field_line label pad n) n.
Proof.
  intros T Hp. exists (str_of_int n). rewrite (split_field_line label pad n T Hp).
  split; [reflexivity | apply int_of_str_of_int].
Qed.

Lemma startswith_field_line label pad n :
  startswith (field_line label pad n) label = true.
Proof. apply startswith_append. Qed.

Lemma second_token_read line v :
  second_token_is line v ->
  (tok <- list_index (split line) 1 ;; int_of_str tok) = Ok v.
Proof.
  intros [tok [H1 H2]]. unfold list_index. rewrite H1. cbn [bind]. exact H2.
Qed.

(** [int()] raises nothing but [ValueError]. *)
Lemma int_of_str_outcome s :
  (exists n, int_of_str s = Ok n) \/ int_of_str s = Raise ValueError.
Proof.
  unfold int_of_str.
  destruct (match strip s with
            | String "+" rest => parse_digits rest 0 false
            | String "-" rest => option_map Z.opp (parse_digits rest 0 false)
            | _ => parse_digits (strip s) 0 false
            end) as [n|]; [left; exists n; reflexivity | right; reflexivity].
Qed.

(** ** The resident memory of a process *)

Lemma scan_rss_acc lines :
  forall acc, scan_rss lines acc = (r <- scan_rss lines 0 ;; Ok (acc + r)).
Proof.
  induction lines as [|line rest IH]; intros acc; cbn [scan_rss].
  - cbn [bind]. rewrite Z.add_0_r. reflexivity.
  - destruct (startswith line "Rss:").
    + destruct (list_index (split line) 1) as [tok| |]; cbn [bind]; try reflexivity.
      destruct (int_of_str tok) as [n| |]; cbn [bind]; try reflexivity.
      rewrite (IH (acc + n)), (IH (0 + n)).
      destruct (scan_rss rest 0) as [r| |]; cbn [bind]; try reflexivity.
      f_equal. lia.
    + apply IH.
Qed.

Lemma scan_rss_app l1 l2 :
  forall acc, scan_rss (l1 ++ l2)%list acc = (a <- scan_rss l1 acc ;; scan_rss l2 a).
Proof.
  induction l1 as [|line rest IH]; intros acc; cbn [scan_rss List.app].
  - reflexivity.
  - destruct (startswith line "Rss:").
    + destruct (list_index (split line) 1) as [tok| |]; cbn [bind]; try reflexivity.
      destruct (int_of_str tok) as [n| |]; cbn [bind]; try reflexivity.
      apply IH.
    + apply IH.
Qed.

Lemma scan_rss_values lines :
  forall values acc,
    Forall2 second_token_is (filter is_rss_line lines) values ->
    scan_rss lines acc = Ok (acc + sum values).
Proof.
  induction lines as [|line rest IH]; intros values acc H; cbn [filter] in H.
  - inversion H; subst. cbn [scan_rss]. unfold sum. cbn. rewrite Z.add_0_r. reflexivity.
  - cbn [scan_rss]. unfold is_rss_line in H at 1.
    destruct (startswith line "Rss:").
    + inversion H as [|l v ls vs Hv Hrest]; subst.
      destruct Hv as [tok [H1 H2]]. unfold list_index. rewrite H1. cbn [bind].
      rewrite H2. cbn [bind]. rewrite (IH vs _ Hrest), sum_cons. f_equal. lia.
    + apply IH. exact H.
Qed.

Lemma scan_rss_no_rss lines :
  filter is_rss_line lines = [] -> scan_rss lines 0 = Ok 0.
Proof.
  intros H. apply (scan_rss_values lines [] 0). rewrite H. constructor.
Qed.

(** ** The bar at particular fractions *)

Section Fractions.

Local Open Scope Q_scope.




(** [float(n)] of an int that is not 0 is not a zero. *)
Lemma float_of_int_nonzero n y :
  n <> 0%Z -> float_of_int n = Ok y ->
  exists q, y = FFin q /\ (if (n <? 0)%Z then q <= -1 else 1 <= q).
Proof.
  intros N H. unfold float_of_int in H.
  destruct (Z.ltb_spec n 0) as [L|G].
  - assert (P : 0 < inject_Z (- n)) by (apply inject_Z_pos; lia).
    assert (E : inject_Z n == - inject_Z (- n)) by (rewrite inject_Z_opp; ring).
    rewrite (binary64_round_comp _ _ E), (binary64_round_neg_value _ P) in H.
    assert (R : 1 <= round_mag (inject_Z (- n))).
    { apply round_mag_ge_one. change 1 with (inject_Z 1). rewrite <- Zle_Qle. lia. }
    destruct (Qle_bool (pow2 1024) (round_mag (inject_Z (- n)))); [discriminate H|].
    destruct (Qeq_bool (round_mag (inject_Z (- n))) 0) eqn:B.
    + apply Qeq_bool_iff in B. exfalso. lra.
    + exists (Qred (- round_mag (inject_Z (- n)))). split; [congruence|].
      pose proof (Qred_correct (- round_mag (inject_Z (- n)))) as C. lra.
  - assert (P : 0 < inject_Z n) by (apply inject_Z_pos; lia).
    rewrite (binary64_round_pos_value _ P) in H.
    assert (R : 1 <= round_mag (inject_Z n)).
    { apply round_mag_ge_one. change 1 with (inject_Z 1). rewrite <- Zle_Qle. lia. }
    destruct (Qle_bool (pow2 1024) (round_mag (inject_Z n))); [discriminate H|].
    exists (Qred (round_mag (inject_Z n))). split; [congruence|].
    pose proof (Qred_correct (round_mag (inject_Z n))) as C. lra.
Qed.


Lemma round_half_even_half L :
  round_half_even (inject_Z L / 2) =
  if Z.even L then (L / 2)%Z
  else if Z.even (L / 2) then (L / 2)%Z else (L / 2 + 1)%Z.
Proof.
  pose proof (Z.div_mod L 2 ltac:(lia)) as D. rewrite Zmod_even in D.
  destruct (Z.even L) eqn:E.
  - transitivity (round_half_even (inject_Z (L / 2)));
      [|apply round_half_even_inject].
    apply round_half_even_comp. rewrite D at 1.
    rewrite Z.add_0_r, inject_Z_mult. change (inject_Z 2) with 2. field.
  - assert (V : inject_Z L / 2 == inject_Z (L / 2) + (1 # 2)).
    { rewrite D at 1. rewrite inject_Z_plus, inject_Z_mult.
      change (inject_Z 2) with 2. change (inject_Z 1) with 1. field. }
    rewrite (round_half_even_comp _ _ V). unfold round_half_even.
    assert (P2 : 0 < 1 # 2) by reflexivity.
    assert (H2 : (1 # 2) < 1) by reflexivity.
    rewrite (Qfloor_unique (L / 2)) by lra.
    assert (C : inject_Z (L / 2) + (1 # 2) - inject_Z (L / 2) == 1 # 2) by ring.
    rewrite (Qcompare_comp _ _ C (1 # 2) (1 # 2) (Qeq_refl _)). reflexivity.
Qed.

(** Half of a length up to [2^53] is a double. *)
Lemma binary64_round_half L :
  (0 < L <= 2 ^ 53)%Z ->
  exists q, binary64_round (inject_Z L / 2) = FFin q /\ q == inject_Z L / 2.
Proof.
  intros HL.
  assert (PL : 0 < inject_Z L) by (apply inject_Z_pos; lia).
  assert (Pa : 0 < inject_Z L / 2).
  { apply Qlt_shift_div_l; [reflexivity | lra]. }
  assert (B : inject_Z L / 2 < pow2 1024).
  { pose proof pow2_53_lt_1024 as T.
    assert (inject_Z L <= inject_Z (2 ^ 53)) by (rewrite <- Zle_Qle; lia).
    apply Qlt_shift_div_r; [reflexivity|].
    pose proof (pow2_pos 1024). lra. }
  apply binary64_round_pos; [exact Pa | | exact B].
  destruct (Z.eq_dec L (2 ^ 53)) as [E|N].
  - subst L.
    assert (R : inject_Z (2 ^ 53) / 2 == inject_Z (2 ^ 52)) by reflexivity.
    rewrite (round_mag_comp _ _ Pa R), (round_mag_int (2 ^ 52)) by lia.
    symmetry. exact R.
  - assert (R : inject_Z L / 2 == inject_Z L * pow2 (-1)).
    { change (pow2 (-1)) with (/ 2). reflexivity. }
    rewrite (round_mag_comp _ _ Pa R), (round_mag_exact L (-1)) by lia.
    symmetry. exact R.
Qed.

(** A quotient of ints between 0 and 1 is a double between 0.0 and 1.0,
    and it grows with the numerator. *)
Lemma truediv_unit a1 a2 b :
  (0 <= a1 <= a2)%Z -> (a2 <= b)%Z -> (0 < b)%Z ->
  exists q1 q2,
    int_truediv a1 b = Ok (FFin q1) /\ int_truediv a2 b = Ok (FFin q2) /\
    0 <= q1 /\ q1 <= q2 /\ q2 <= 1.
Proof.
  intros Ha Hb Pb.
  assert (PB : 0 < inject_Z b) by (apply inject_Z_pos; exact Pb).
  assert (One : binary64_round 1 = FFin 1) by (vm_compute; reflexivity).
  assert (Frac : forall a, (0 < a <= b)%Z ->
            0 < inject_Z a / inject_Z b /\ inject_Z a / inject_Z b <= 1).
  { intros a [A0 A1]. split.
    - apply Qlt_shift_div_l; [exact PB|]. rewrite Qmult_0_l. apply inject_Z_pos. exact A0.
    - apply Qle_shift_div_r; [exact PB|]. rewrite Qmult_1_l. rewrite <- Zle_Qle. exact A1. }
  assert (Nb : (b =? 0)%Z = false) by (apply Z.eqb_neq; lia).
  assert (Sb : (b <? 0)%Z = false) by (apply Z.ltb_ge; lia).
  unfold int_truediv. rewrite Nb, Sb.
  destruct (Z.eqb_spec a2 0) as [E2|N2].
  - assert (E1 : a1 = 0%Z) by lia. subst a1 a2. cbn.
    exists 0, 0. repeat split; try reflexivity; discriminate.
  - destruct (Frac a2 ltac:(lia)) as [F2 G2].
    destruct (binary64_round_mono _ 1 1 F2 G2 One) as [q2 [H2 [L2 U2]]].
    rewrite H2.
    destruct (Z.eqb_spec a1 0) as [E1|N1].
    + exists 0, q2. cbn. repeat split; try reflexivity; try assumption. discriminate.
    + destruct (Frac a1 ltac:(lia)) as [F1 G1].
      assert (M : inject_Z a1 / inject_Z b <= inject_Z a2 / inject_Z b).
      { apply Qmult_le_compat_r; [rewrite <- Zle_Qle; lia|].
        apply Qlt_le_weak, Qinv_lt_0_compat, PB. }
      destruct (binary64_round_mono _ _ q2 F1 M H2) as [q1 [H1 [L1 U1]]].
      rewrite H1. exists q1, q2. repeat split; try reflexivity; assumption.
Qed.

End Fractions.

Section NegativeLength.

Local Open Scope Q_scope.

(** With a negative length the product is between the length and 0. *)
Lemma num_hashes_negative_length x L :
  in_unit_interval x -> (- 2 ^ 53 <= L < 0)%Z ->
  exists n, num_hashes x L = Ok n /\ (L <= n <= 0)%Z.
Proof.
  intros [Fx [X0 X1]] HL.
  destruct (float_of_int_exact L ltac:(lia)) as [l [Hl El]].
  assert (NL : inject_Z L < 0).
  { change 0 with (inject_Z 0). rewrite <- Zlt_Qlt. lia. }
  unfold num_hashes, fmul_int. rewrite Hl. cbn [bind].
  rewrite (fmul_finite x l Fx).
  set (p := fvalue x * l).
  assert (P0 : p <= 0) by (unfold p; nra).
  assert (P1 : inject_Z L <= p) by (unfold p; nra).
  destruct (Qeq_bool p 0) eqn:B.
  - destruct (signed_zero_finite (xorb (fsign x) (Qneg_bool l))) as [F V].
    rewrite (py_round_finite _ F), V. exists 0%Z. split; [reflexivity | lia].
  - apply Qeq_bool_neq in B.
    assert (Pa : 0 < - p) by lra.
    assert (E : p == - - p) by ring.
    rewrite (binary64_round_comp _ _ E), (binary64_round_neg_value _ Pa).
    assert (PL : 0 < inject_Z (- L)) by (apply inject_Z_pos; lia).
    assert (M : round_mag (- p) <= inject_Z (- L)).
    { rewrite <- (round_mag_int (- L)) by lia.
      apply round_mag_mono; [exact Pa|]. rewrite inject_Z_opp. lra. }
    pose proof (round_mag_nonneg _ Pa) as R0.
    destruct (Qle_bool (pow2 1024) (round_mag (- p))) eqn:O.
    + apply Qle_bool_iff in O. exfalso.
      pose proof pow2_53_lt_1024 as T.
      assert (inject_Z (- L) <= inject_Z (2 ^ 53)) by (rewrite <- Zle_Qle; lia).
      lra.
    + destruct (Qeq_bool (round_mag (- p)) 0).
      * exists 0%Z. split; [reflexivity | lia].
      * cbn [py_round]. eexists. split; [reflexivity|].
        pose proof (Qred_correct (- round_mag (- p))) as C.
        split.
        -- rewrite <- (round_half_even_inject L). apply round_half_even_mono.
           rewrite inject_Z_opp in M. lra.
        -- rewrite <- (round_half_even_inject 0). apply round_half_even_mono.
           change (inject_Z 0) with 0. lra.
Qed.

End NegativeLength.

(** ** The percentage *)

Section Percentage.

Local Open Scope Q_scope.

Lemma fixed_point_whole v :
  0 <= v -> fixed_point v 0 = str_of_int (round_half_even v).
Proof.
  intros H. unfold fixed_point, fixed_digits, scaled_digits.
  rewrite (Qneg_bool_pos v H). cbn [Z.eqb Z.pow].
  rewrite Z.div_1_r.
  assert (E : Qabs v * inject_Z 1 == v).
  { rewrite Qabs_pos by exact H. change (inject_Z 1) with 1. ring. }
  rewrite (round_half_even_comp _ _ E). cbn [append]. apply append_nil_r.
Qed.

(** The percentage of a fraction between 0 and 1: a whole number from 0
    to 100, with no sign and no decimal point. *)
Lemma percent_str_unit q :
  0 <= q -> q <= 1 ->
  exists n, percent_str (FFin q) = Ok (str_of_int n) /\ (0 <= n <= 100)%Z.
Proof.
  intros Q0 Q1.
  assert (U : in_unit_interval (FFin q)) by (split; [reflexivity | split; assumption]).
  destruct (float_of_int_exact 100 ltac:(cbn; lia)) as [l [Hl El]].
  destruct (fmul_unit (FFin q) (FFin q) l 100 U U (Qle_refl _) El ltac:(lia))
    as [F [_ [B0 [_ B1]]]].
  unfold percent_str, fmul_int. rewrite Hl. cbn [bind].
  assert (S : exists v, fmul (FFin q) (FFin l) = FFin v).
  { rewrite (fmul_finite (FFin q) l eq_refl). cbn [fvalue fsign].
    assert (L0 : 0 <= l) by (rewrite El; discriminate).
    rewrite (Qneg_bool_pos q Q0), (Qneg_bool_pos l L0). cbn [xorb signed_zero].
    destruct (Qeq_bool (q * l) 0) eqn:B; [exists 0; reflexivity|].
    pose proof (Qeq_bool_neq _ _ B) as B'.
    assert (P : 0 < q * l) by nra.
    unfold binary64_round.
    assert (C : Qcompare (q * l) 0 = Gt) by (apply Qgt_alt; exact P).
    rewrite C.
    rewrite (fmul_finite (FFin q) l eq_refl) in F. cbn [fvalue] in F.
    rewrite B in F.
    unfold binary64_round in F. rewrite C in F.
    destruct (Qle_bool (pow2 1024) (round_mag (q * l))); [discriminate F|].
    eexists. reflexivity. }
  destruct S as [v Hv]. rewrite Hv in *. cbn [fvalue] in B0, B1.
  unfold format_float. cbn [Z.ltb Z.compare].
  rewrite (fixed_point_whole v B0).
  eexists. split; [reflexivity|]. split.
  - apply round_half_even_nonneg. exact B0.
  - rewrite <- (round_half_even_inject 100). apply round_half_even_mono. exact B1.
Qed.

End Percentage.

(** ** The suffix that [bytes_to_human_r] chooses *)

Section Suffix.

Local Open Scope Q_scope.










End Suffix.







(** ** A negative number of decimal places *)

Lemma bytes_to_human_r_negative_places k dp :
  dp < 0 ->
  bytes_to_human_r k dp =
  if (1024 <=? k) && (2 ^ 1024 - 2 ^ 970 <=? k) then Raise OverflowError
  else Raise ValueError.
Proof.
  intros Hdp. apply Z.ltb_lt in Hdp. unfold bytes_to_human_r.
  destruct (Z.leb_spec 1024 k) as [Hbig|Hsmall]; cbn [andb].
  - assert (C : scale_cond (NInt k, 0) = true).
    { unfold scale_cond. cbn [fst snd num_ge].
      destruct (Z.leb_spec 1024 k); [reflexivity | lia]. }
    change (List.length suffixes) with 5%nat.
    rewrite while_loop_step, C.
    unfold scale_body at 1, num_div_float. cbn [fst snd num_to_float].
    destruct (float_of_int_range k) as [In Out].
    destruct (Z.leb_spec (2 ^ 1024 - 2 ^ 970) k) as [Hout|Hin].
    + rewrite Out by lia. reflexivity.
    + destruct (In ltac:(lia)) as [q0 Hx]. rewrite Hx. cbn [bind].
      destruct (float_of_int_positive k _ ltac:(lia) Hx) as [q0' [Eq [D0 _]]].
      assert (q0' = q0) by congruence. subst q0'.
      pose proof (float_of_int_ge_1024 k q0 Hbig Hx) as G0.
      destruct (fdiv_1024 q0 D0 G0) as [q1 [Hq1 [E1 D1]]].
      rewrite Hq1. cbn [bind].
      destruct (scale_loop_float ["GiB"; "TiB"; "PiB"] ["KiB"] "MiB" q1 4 eq_refl D1
                  ltac:(cbn; lia)) as [q' [j [Hloop _]]].
      change (len ["KiB"]) with (0 + 1) in Hloop. rewrite Hloop. cbn [bind fst snd].
      unfold format_num. rewrite Hdp. reflexivity.
  - rewrite (scale_loop_small _ k Hsmall). cbn [bind fst snd].
    unfold format_num. rewrite Hdp. reflexivity.
Qed.

(** ** The loop over the processes *)

(** The processes that are read and rendered leave their lines in the
    output, and the loop goes on with the others. *)
Lemma report_pids_app e a total pre rss_list lines :
  pid_lines e a total pre rss_list lines ->
  forall rest rss_totals total_str out,
  exists total_str',
    report_pids e a (Some total) (pre ++ rest)%list rss_totals total_str out
    = report_pids e a (Some total) rest (rss_totals ++ rss_list)%list total_str'
        (out ++ lines)%list.
Proof.
  induction 1 as [|pid pids rss rss_list line lines Hrss Hline _ IH];
    intros rest rss_totals total_str out.
  - exists total_str. rewrite !app_nil_r. reflexivity.
  - cbn [List.app]. rewrite report_pids_cons, Hrss, Hline.
    destruct (IH rest (rss_totals ++ [rss])%list
                (match amount_str a total with Ok s => s | _ => "" end)
                (out ++ [line])%list) as [ts Hts].
    exists ts. rewrite Hts, <- !app_assoc. reflexivity.
Qed.

Lemma report_pids_fails e a total pid rest rss_totals total_str out ex :
  rss_mem_of_pid e pid = Raise ex ->
  report_pids e a (Some total) (pid :: rest) rss_totals total_str out
  = (out, Raise ex).
Proof. intros H. rewrite report_pids_cons, H. reflexivity. Qed.

Lemma run_program_fails e a name total pids out ex :
  args_program a = Some name -> name <> "" ->
  get_sys_mem e = Ok (Some total) -> pids_of_prog e name = pids -> pids <> [] ->
  report_pids e a (Some total) pids [] "" [] = (out, Raise ex) ->
  run e a = (out, Raise ex).
Proof.
  intros Ha Hn Ht Hp Ne Hr. destruct pids as [|pid rest]; [contradiction|].
  rewrite (run_program e a name total pid rest Ha Hn Ht Hp), Hr. reflexivity.
Qed.

(** In system-wide mode nothing is read but [/proc/meminfo]. *)
Lemma run_unreadable e a :
  files e "/proc/meminfo" = None -> run e a = ([], Raise OSError).
Proof.
  intros H. unfold run, main, get_sys_mem, open_lines. rewrite H.
  destruct (no_program a); reflexivity.
Qed.

Lemma report_line_zero_total a label amount :
  report_line a label amount 0 = Raise ZeroDivisionError.
Proof. reflexivity. Qed.

(** [pids_of_prog] is [split] on what [pidof] printed: the [strip] and the
    test for the empty string change nothing. *)
Lemma pids_of_prog_split e name :
  pids_of_prog e name = split (popen e ("pidof " ++ name)).
Proof.
  unfold pids_of_prog. rewrite split_strip.
  destruct (is_empty (strip (popen e ("pidof " ++ name)))) eqn:E; [|reflexivity].
  apply is_empty_true in E. rewrite <- split_strip, E. reflexivity.
Qed.

(** An amount is always rendered when the unit formatter is not asked
    for, and in the range of [float()] when it is. *)
Lemma amount_str_defined a n :
  Z.abs n < 2 ^ 1024 - 2 ^ 970 -> exists s, amount_str a n = Ok s.
Proof.
  intros H. unfold amount_str. destruct (args_human_readable a).
  - destruct (float_of_int_range n) as [In _]. destruct (In H) as [q Hq].
    rewrite (bytes_to_human_r_spec n 2 _ ltac:(lia) Hq). eexists. reflexivity.
  - eexists. reflexivity.
Qed.

(** The bar of a fraction between 0 and 1, for a length up to [2^53]. *)
Lemma percent_to_graph_unit q length :
  (0 <= q)%Q -> (q <= 1)%Q -> 0 <= length <= 2 ^ 53 ->
  exists n, percent_to_graph (FFin q) length = Ok (bar_of n length) /\
            0 <= n <= length.
Proof.
  intros Q0 Q1 HL.
  assert (U : in_unit_interval (FFin q)) by (split; [reflexivity | split; assumption]).
  destruct (num_hashes_unit _ _ length U U (Qle_refl _) HL) as [n [m [Hn [Hm B]]]].
  assert (n = m) by congruence. subst m.
  exists n. rewrite percent_to_graph_num_hashes, Hn. split; [reflexivity | lia].
Qed.

(** ** What each mode reads *)

Lemma report_pids_ext e e' a total_mem pids :
  (forall pid, rss_mem_of_pid e pid = rss_mem_of_pid e' pid) ->
  forall rss_totals total_str out,
    report_pids e a total_mem pids rss_totals total_str out
    = report_pids e' a total_mem pids rss_totals total_str out.
Proof.
  intros H. induction pids as [|pid rest IH]; intros rss_totals total_str out.
  - reflexivity.
  - cbn [report_pids]. unfold io_bind, lift. rewrite (H pid).
    destruct (rss_mem_of_pid e' pid) as [rss| |]; try reflexivity.
    destruct (as_int total_mem) as [total| |]; try reflexivity.
    destruct (int_truediv rss total) as [f| |]; try reflexivity.
    destruct (percent_to_graph f (args_length a)) as [bar| |]; try reflexivity.
    destruct (amount_str a rss) as [rs| |]; try reflexivity.
    destruct (amount_str a total) as [ts| |]; try reflexivity.
    destruct (percent_str f) as [pct| |]; try reflexivity.
    unfold print. apply IH.
Qed.

Lemma smaps_not_meminfo pid : String.eqb (smaps_path pid) "/proc/meminfo" = false.
Proof.
  destruct (String.eqb_spec (smaps_path pid) "/proc/meminfo") as [E|N]; [|reflexivity].
  exfalso. unfold smaps_path in E. cbn [append] in E.
  injection E as E. pose proof (f_equal String.length E) as L.
  rewrite length_append in L. cbn [String.length] in L.
  destruct pid as [|c [|d pid]]; cbn [String.length] in L; try lia.
  cbn [append] in E. discriminate E.
Qed.

(** * Further properties of the code *)

(** ** The resident memory of a process *)

(** X1: [rss_mem_of_pid] returns the sum of the values of the lines of the
    [smaps] file that begin with [Rss:], each value being the second token
    of its line read by [int()]; the other lines count for nothing, and a
    file with no such line gives 0. *)
Theorem rss_mem_of_pid_sum :
  forall (e : env) (proc_id : string) (lines : list string) (values : list Z),
    files e (smaps_path proc_id) = Some lines ->
    Forall2 second_token_is (filter is_rss_line lines) values ->
    rss_mem_of_pid e proc_id = Ok (sum values) /\
    (filter is_rss_line lines = [] -> rss_mem_of_pid e proc_id = Ok 0).
Proof.
  intros e proc_id lines values Hf Hv.
  unfold rss_mem_of_pid, open_lines. fold (smaps_path proc_id). rewrite Hf.
  cbn [bind]. split.
  - rewrite (scan_rss_values lines values 0 Hv). reflexivity.
  - apply scan_rss_no_rss.
Qed.

Lemma rss_mem_of_pid_sum_witness :
  rss_mem_of_pid (system_with meminfo_16m) "12" = Ok (sum [100; 2000000]).
Proof.
  apply (rss_mem_of_pid_sum (system_with meminfo_16m) "12"
           ["55d0a000-55d0b000 r--p 00000000 08:01 131 /usr/bin/foo" ++ nl;
            "Size:                  4 kB" ++ nl;
            "Rss:                 100 kB" ++ nl;
            "Pss:                   3 kB" ++ nl;
            "7ffd1000-7ffd3000 rw-p 00000000 00:00 0 [stack]" ++ nl;
            "Rss:             2000000 kB" ++ nl] [100; 2000000]).
  - reflexivity.
  - repeat constructor.
    + exists "100". split; reflexivity.
    + exists "2000000". split; reflexivity.
Defined.

(** X2: round trip with the kernel's format.  When the lines that begin
    with [Rss:] are the lines the kernel writes for the values [values]
    (the label, blanks, the decimal numeral, [kB]), [rss_mem_of_pid] returns
    their sum: [split] and [int()] read back what was written. *)
Theorem rss_mem_of_pid_kernel_lines :
  forall (e : env) (proc_id : string) (lines : list string) (values : list Z),
    files e (smaps_path proc_id) = Some lines ->
    Forall2 (kernel_line "Rss:") (filter is_rss_line lines) values ->
    rss_mem_of_pid e proc_id = Ok (sum values).
Proof.
  intros e proc_id lines values Hf Hv.
  unfold rss_mem_of_pid, open_lines. fold (smaps_path proc_id). rewrite Hf.
  cbn [bind]. rewrite (scan_rss_values lines values 0); [reflexivity|].
  revert Hv. apply Forall2_impl. intros line v [pad [Hp ->]].
  apply second_token_field_line; [|exact Hp].
  split; [discriminate | reflexivity].
Qed.

Lemma rss_mem_of_pid_kernel_lines_witness :
  rss_mem_of_pid (system_of None "") "12" = Ok (sum [100; 2000000]).
Proof.
  apply (rss_mem_of_pid_kernel_lines (system_of None "") "12"
           [field_line "Rss:" 17 100; "Pss:                   3 kB" ++ nl;
            field_line "Rss:" 13 2000000] [100; 2000000]).
  - reflexivity.
  - repeat constructor.
    + exists 17%nat. split; [lia | reflexivity].
    + exists 13%nat. split; [lia | reflexivity].
Defined.

(** X3: a line that begins with [Rss:] and has no second token, or one
    that [int()] cannot read, makes [rss_mem_of_pid] raise [IndexError] or
    [ValueError]: the sum of the lines before it is lost, and the lines
    after it are not read. *)
Theorem rss_mem_of_pid_bad_line :
  forall (e : env) (proc_id : string) (pre : list string) (line : string)
         (post : list string) (values : list Z),
    files e (smaps_path proc_id) = Some (pre ++ line :: post)%list ->
    Forall2 second_token_is (filter is_rss_line pre) values ->
    is_rss_line line = true ->
    (nth_error (split line) 1 = None ->
     rss_mem_of_pid e proc_id = Raise IndexError) /\
    (forall tok, nth_error (split line) 1 = Some tok ->
       (forall v, int_of_str tok <> Ok v) ->
       rss_mem_of_pid e proc_id = Raise ValueError).
Proof.
  intros e proc_id pre line post values Hf Hv Hr.
  unfold rss_mem_of_pid, open_lines. fold (smaps_path proc_id). rewrite Hf.
  cbn [bind]. rewrite scan_rss_app, (scan_rss_values pre values 0 Hv).
  cbn [bind scan_rss]. unfold is_rss_line in Hr. rewrite Hr. unfold list_index.
  split.
  - intros ->. reflexivity.
  - intros tok -> Hbad. cbn [bind].
    destruct (int_of_str_outcome tok) as [[v Hok]| ->]; [|reflexivity].
    exfalso. exact (Hbad v Hok).
Qed.

Lemma rss_mem_of_pid_bad_line_witness :
  rss_mem_of_pid
    {| files := fun _ => Some [field_line "Rss:" 3 5; "Rss:" ++ nl; "Rss: many kB" ++ nl];
       popen := fun _ => "" |} "1" = Raise IndexError.
Proof.
  apply (rss_mem_of_pid_bad_line _ "1" [field_line "Rss:" 3 5] ("Rss:" ++ nl)
           ["Rss: many kB" ++ nl] [5]).
  - reflexivity.
  - repeat constructor. exists "5". split; reflexivity.
  - reflexivity.
  - reflexivity.
Defined.

(** X4: the resident memory of a file made of two [smaps] files, one after
    the other, is the sum of the two. *)
Theorem rss_mem_of_pid_concat :
  forall (e : env) (p1 p2 p : string) (l1 l2 : list string) (r1 r2 : Z),
    files e (smaps_path p1) = Some l1 ->
    files e (smaps_path p2) = Some l2 ->
    files e (smaps_path p) = Some (l1 ++ l2)%list ->
    rss_mem_of_pid e p1 = Ok r1 -> rss_mem_of_pid e p2 = Ok r2 ->
    rss_mem_of_pid e p = Ok (r1 + r2).
Proof.
  intros e p1 p2 p l1 l2 r1 r2 H1 H2 H.
  unfold rss_mem_of_pid, open_lines. fold (smaps_path p1) (smaps_path p2) (smaps_path p).
  rewrite H1, H2, H. cbn [bind]. intros R1 R2.
  rewrite scan_rss_app, R1. cbn [bind]. rewrite scan_rss_acc, R2. reflexivity.
Qed.

Lemma rss_mem_of_pid_concat_witness :
  rss_mem_of_pid
    {| files := fun path =>
         if String.eqb path "/proc/1/smaps" then Some [field_line "Rss:" 3 5]
         else if String.eqb path "/proc/2/smaps" then Some [field_line "Rss:" 1 7]
         else Some [field_line "Rss:" 3 5; field_line "Rss:" 1 7];
       popen := fun _ => "" |} "3" = Ok (5 + 7).
Proof.
  apply (rss_mem_of_pid_concat _ "1" "2" "3" [field_line "Rss:" 3 5]
           [field_line "Rss:" 1 7]); reflexivity.
Defined.

(** ** The total and the available memory *)

(** X5: [get_sys_mem] decides on the first line that begins with
    [MemTotal:], whatever follows it: it returns the second token of that
    line read by [int()], raises [IndexError] when the line has no second
    token and [ValueError] when [int()] cannot read it. *)
Theorem get_sys_mem_first_line :
  forall (e : env) (pre : list string) (line : string) (post : list string),
    files e "/proc/meminfo" = Some (pre ++ line :: post)%list ->
    label_absent "MemTotal:" pre ->
    startswith line "MemTotal:" = true ->
    (forall n, second_token_is line n -> get_sys_mem e = Ok (Some n)) /\
    (nth_error (split line) 1 = None -> get_sys_mem e = Raise IndexError) /\
    (forall tok, nth_error (split line) 1 = Some tok ->
       (forall v, int_of_str tok <> Ok v) -> get_sys_mem e = Raise ValueError).
Proof.
  intros e pre line post Hf Hpre Hline.
  unfold get_sys_mem, open_lines. rewrite Hf. cbn [bind].
  rewrite (scan_mem_total_first pre line post Hpre Hline). unfold list_index.
  split; [|split].
  - intros n [tok [H1 H2]]. rewrite H1. cbn [bind]. rewrite H2. reflexivity.
  - intros ->. reflexivity.
  - intros tok -> Hbad. cbn [bind].
    destruct (int_of_str_outcome tok) as [[v Hok]| ->]; [|reflexivity].
    exfalso. exact (Hbad v Hok).
Qed.

Lemma get_sys_mem_first_line_witness :
  get_sys_mem
    {| files := fun _ => Some ["MemFree: 1 kB" ++ nl; "MemTotal: 8 kB" ++ nl;
                               "MemTotal: none" ++ nl];
       popen := fun _ => "" |} = Ok (Some 8).
Proof.
  destruct (get_sys_mem_first_line
              {| files := fun _ => Some ["MemFree: 1 kB" ++ nl; "MemTotal: 8 kB" ++ nl;
                                         "MemTotal: none" ++ nl];
                 popen := fun _ => "" |}
              ["MemFree: 1 kB" ++ nl] ("MemTotal: 8 kB" ++ nl) ["MemTotal: none" ++ nl])
    as [H _].
  - reflexivity.
  - repeat constructor.
  - reflexivity.
  - apply H. exists "8". split; reflexivity.
Defined.

(** X6: round trip with the kernel's format.  When the first line that
    begins with [MemTotal:] is the line the kernel writes for [n],
    [get_sys_mem] returns [n]; likewise [get_avail_mem] for
    [MemAvailable:]. *)
Theorem meminfo_round_trip :
  forall (e : env) (pre : list string) (line : string) (post : list string) (n : Z),
    files e "/proc/meminfo" = Some (pre ++ line :: post)%list ->
    (label_absent "MemTotal:" pre -> kernel_line "MemTotal:" line n ->
     get_sys_mem e = Ok (Some n)) /\
    (label_absent "MemAvailable:" pre -> kernel_line "MemAvailable:" line n ->
     get_avail_mem e = Ok n).
Proof.
  intros e pre line post n Hf.
  unfold get_sys_mem, get_avail_mem, open_lines. rewrite Hf. cbn [bind].
  split; intros Hpre [pad [Hp ->]].
  - rewrite (scan_mem_total_first pre _ post Hpre (startswith_field_line _ pad n)).
    rewrite (split_field_line "MemTotal:" pad n); [|split; [discriminate | reflexivity] | exact Hp].
    cbn [list_index nth_error bind]. rewrite int_of_str_of_int. reflexivity.
  - rewrite (scan_mem_available_first pre _ post Hpre (startswith_field_line _ pad n)).
    rewrite (split_field_line "MemAvailable:" pad n); [|split; [discriminate | reflexivity] | exact Hp].
    cbn [list_index nth_error bind]. apply int_of_str_of_int.
Qed.

Lemma meminfo_round_trip_witness :
  get_sys_mem (system_of (Some meminfo_zero_total) "") = Ok (Some 0) /\
  get_avail_mem (system_of (Some meminfo_zero_total) "") = Ok 0.
Proof.
  split.
  - apply (meminfo_round_trip (system_of (Some meminfo_zero_total) "") []
             (field_line "MemTotal:" 14 0) [field_line "MemAvailable:" 10 0] 0 eq_refl).
    + constructor.
    + exists 14%nat. split; [lia | reflexivity].
  - apply (meminfo_round_trip (system_of (Some meminfo_zero_total) "")
             [field_line "MemTotal:" 14 0]
             (field_line "MemAvailable:" 10 0) [] 0 eq_refl).
    + repeat constructor.
    + exists 10%nat. split; [lia | reflexivity].
Defined.

(** X7: when [/proc/meminfo] cannot be opened, both readers raise the
    [OSError] of [open], and the program ends with it in either mode, with
    nothing printed: in per-program mode [pidof] is not even run, so that
    the message for a program without process is not printed either. *)
Theorem meminfo_unreadable :
  forall (e : env),
    files e "/proc/meminfo" = None ->
    get_sys_mem e = Raise OSError /\
    get_avail_mem e = Raise OSError /\
    (forall a, run e a = ([], Raise OSError) /\ exit_status (snd (run e a)) = 1).
Proof.
  intros e H. split; [|split].
  - unfold get_sys_mem, open_lines. rewrite H. reflexivity.
  - unfold get_avail_mem, open_lines. rewrite H. reflexivity.
  - intros a. rewrite (run_unreadable e a H). split; reflexivity.
Qed.

Lemma meminfo_unreadable_witness :
  run (system_of None "") (example_args 20 false (Some "bar")) = ([], Raise OSError).
Proof.
  destruct (meminfo_unreadable (system_of None "") eq_refl) as [_ [_ H]].
  apply H.
Defined.

(** ** The processes of a program *)

(** X8: [pids_of_prog] returns exactly the whitespace-separated tokens of
    what [pidof] printed: the [strip] and the test for the empty string
    change nothing.  So no identifier it returns is empty or holds
    whitespace. *)
Theorem pids_of_prog_tokens :
  forall (e : env) (app_name : string),
    pids_of_prog e app_name = split (popen e ("pidof " ++ app_name)) /\
    Forall is_token (pids_of_prog e app_name).
Proof.
  intros e app_name. rewrite pids_of_prog_split.
  split; [reflexivity | apply split_tokens].
Qed.

(** X9: round trip with the output of [pidof]: identifiers separated by
    single blanks and followed by an end of line are returned as they were
    written, in the same order. *)
Theorem pids_of_prog_round_trip :
  forall (e : env) (app_name : string) (pids : list string),
    Forall is_token pids ->
    popen e ("pidof " ++ app_name) = join " " pids ++ nl ->
    pids_of_prog e app_name = pids.
Proof.
  intros e app_name pids Hp Ho.
  rewrite pids_of_prog_split, Ho. apply split_from_join. exact Hp.
Qed.

Lemma pids_of_prog_round_trip_witness :
  pids_of_prog (system_with meminfo_16m) "foo" = ["12"; "345"].
Proof.
  apply (pids_of_prog_round_trip (system_with meminfo_16m) "foo" ["12"; "345"]).
  - repeat constructor; discriminate.
  - reflexivity.
Defined.

(** ** The bar at particular fractions and lengths *)



(** X11: [round] rounds half to even.  At the fraction 0.5 an even length
    has half of it filled; an odd length has the even one of the two
    numbers around its half filled, so that the lengths 5 and 7 give 2 and
    4 fill characters. *)
Theorem percent_to_graph_half :
  forall (percent : pyfloat) (length : Z),
    fis_finite percent = true -> (fvalue percent == 1 # 2)%Q ->
    0 <= length <= 2 ^ 53 ->
    exists n,
      percent_to_graph percent length = Ok (bar_of n length) /\
      Z.of_nat (count_char "#" (bar_of n length)) = n /\
      (Z.even length = true -> n = length / 2) /\
      (Z.even length = false ->
       Z.even n = true /\ (n = length / 2 \/ n = length / 2 + 1)).
Proof.
  intros percent length F V HL.
  destruct (float_of_int_exact length ltac:(lia)) as [l [Hl El]].
  assert (P : (fvalue percent * l == inject_Z length / 2)%Q).
  { rewrite V, El. field. }
  assert (N : py_round (fmul percent (FFin l))
              = Ok (round_half_even (inject_Z length / 2))).
  { rewrite (fmul_finite percent l F).
    destruct (Qeq_bool (fvalue percent * l) 0) eqn:B.
    - apply Qeq_bool_iff in B.
      destruct (signed_zero_finite (xorb (fsign percent) (Qneg_bool l))) as [Fz Vz].
      rewrite (py_round_finite _ Fz), Vz. f_equal.
      apply round_half_even_comp. rewrite <- P, B. reflexivity.
    - apply Qeq_bool_neq in B.
      assert (L0 : 0 < length).
      { destruct (Z.eq_dec length 0) as [E|NE]; [|lia]. exfalso. apply B.
        rewrite P, E. reflexivity. }
      rewrite (binary64_round_comp _ _ P).
      destruct (binary64_round_half length ltac:(lia)) as [q [Hq Eq]].
      rewrite Hq. cbn [py_round]. f_equal. apply round_half_even_comp. exact Eq. }
  set (n := round_half_even (inject_Z length / 2)) in *.
  assert (Hn : 0 <= n).
  { apply round_half_even_nonneg. apply Qle_shift_div_l; [reflexivity|].
    rewrite Qmult_0_l. apply inject_Z_nonneg. lia. }
  exists n. split; [|split; [|split]].
  - rewrite percent_to_graph_num_hashes. unfold num_hashes, fmul_int.
    rewrite Hl. cbn [bind]. rewrite N. reflexivity.
  - rewrite bar_count. lia.
  - intros E. unfold n. rewrite round_half_even_half, E. reflexivity.
  - intros E. unfold n. rewrite round_half_even_half, E.
    destruct (Z.even (length / 2)) eqn:E2.
    + split; [exact E2 | left; reflexivity].
    + split; [|right; reflexivity].
      rewrite Z.even_add, E2. reflexivity.
Qed.

Lemma percent_to_graph_half_witness :
  exists n,
    percent_to_graph (FFin (1 # 2)) 5 = Ok (bar_of n 5) /\
    Z.of_nat (count_char "#" (bar_of n 5)) = n /\
    (Z.even 5 = true -> n = 5 / 2) /\
    (Z.even 5 = false -> Z.even n = true /\ (n = 5 / 2 \/ n = 5 / 2 + 1)).
Proof.
  apply (percent_to_graph_half (FFin (1 # 2)) 5); [reflexivity | reflexivity | lia].
Defined.

(** X12: a negative length.  For a fraction between 0.0 and 1.0 and a
    length from [-2^53] to -1, both repeat counts are zero or negative and
    the bar is the empty string. *)
Theorem percent_to_graph_negative_length :
  forall (percent : pyfloat) (length : Z),
    in_unit_interval percent -> - 2 ^ 53 <= length < 0 ->
    percent_to_graph percent length = Ok "".
Proof.
  intros percent length U HL.
  destruct (num_hashes_negative_length percent length U HL) as [n [Hn B]].
  rewrite percent_to_graph_num_hashes, Hn. cbn [bind]. unfold bar_of, str_mul.
  replace (Z.to_nat n) with 0%nat by lia.
  replace (Z.to_nat (length - n)) with 0%nat by lia. reflexivity.
Qed.

Lemma percent_to_graph_negative_length_witness :
  percent_to_graph (FFin (3 # 4)) (-4) = Ok "".
Proof.
  apply (percent_to_graph_negative_length (FFin (3 # 4)) (-4)).
  - split; [reflexivity | split; discriminate].
  - lia.
Defined.

(** X13: what [percent_to_graph] raises.  A length that [float()] cannot
    convert raises [OverflowError] whatever the fraction; otherwise a NaN
    raises [ValueError] in [round], and an infinite fraction raises
    [OverflowError] in [round], but [ValueError] for the length 0, where
    the product is a NaN. *)
Theorem percent_to_graph_raises :
  forall (length : Z),
    (2 ^ 1024 - 2 ^ 970 <= Z.abs length ->
     forall percent, percent_to_graph percent length = Raise OverflowError) /\
    (Z.abs length < 2 ^ 1024 - 2 ^ 970 ->
     percent_to_graph FNaN length = Raise ValueError /\
     forall s, percent_to_graph (FInf s) length =
               if length =? 0 then Raise ValueError else Raise OverflowError).
Proof.
  intros length. destruct (float_of_int_range length) as [In Out]. split.
  - intros H percent. unfold percent_to_graph, fmul_int. rewrite (Out H). reflexivity.
  - intros H. destruct (In H) as [l Hl].
    unfold percent_to_graph, fmul_int. rewrite Hl. cbn [bind].
    split; [reflexivity|]. intros s.
    destruct (Z.eqb_spec length 0) as [E|N].
    + subst length. assert (l = 0%Q) by (vm_compute in Hl; congruence). subst l.
      reflexivity.
    + destruct (float_of_int_nonzero length _ N Hl) as [q [Eq B]].
      assert (q = l) by congruence. subst q.
      assert (Z : Qeq_bool l 0 = false).
      { destruct (Qeq_bool l 0) eqn:C; [|reflexivity]. apply Qeq_bool_iff in C.
        exfalso. destruct (length <? 0); lra. }
      cbn [fmul fis_zero]. rewrite Z. reflexivity.
Qed.

(** ** The fraction of an amount *)

(** X14: more memory never gives a shorter bar.  For a total above 0, two
    amounts between 0 and the total, and a length up to [2^53], both
    divisions and both bars succeed, each bar has [length] characters, and
    the bar of the larger amount has at least as many fill characters. *)
Theorem larger_amount_longer_bar :
  forall (amount1 amount2 total length : Z),
    0 <= amount1 <= amount2 -> amount2 <= total -> 0 < total ->
    0 <= length <= 2 ^ 53 ->
    exists f1 f2 bar1 bar2,
      int_truediv amount1 total = Ok f1 /\ int_truediv amount2 total = Ok f2 /\
      percent_to_graph f1 length = Ok bar1 /\
      percent_to_graph f2 length = Ok bar2 /\
      Z.of_nat (String.length bar1) = length /\
      Z.of_nat (String.length bar2) = length /\
      (count_char "#" bar1 <= count_char "#" bar2)%nat.
Proof.
  intros a1 a2 total length Ha Hb Pt HL.
  destruct (truediv_unit a1 a2 total Ha Hb Pt) as [q1 [q2 [H1 [H2 [B0 [B1 B2]]]]]].
  assert (U1 : in_unit_interval (FFin q1)).
  { split; [reflexivity|]. cbn [fvalue]. split; lra. }
  assert (U2 : in_unit_interval (FFin q2)).
  { split; [reflexivity|]. cbn [fvalue]. split; lra. }
  destruct (num_hashes_unit _ _ length U1 U2 B1 HL) as [n [m [Hn [Hm [N0 [N1 N2]]]]]].
  exists (FFin q1), (FFin q2), (bar_of n length), (bar_of m length).
  rewrite !percent_to_graph_num_hashes, Hn, Hm.
  repeat split; try assumption; try reflexivity.
  - rewrite bar_length. lia.
  - rewrite bar_length. lia.
  - apply Nat2Z.inj_le. rewrite !bar_count. lia.
Qed.

Lemma larger_amount_longer_bar_witness :
  exists f1 f2 bar1 bar2,
    int_truediv 2000100 16000000 = Ok f1 /\ int_truediv 4000000 16000000 = Ok f2 /\
    percent_to_graph f1 10 = Ok bar1 /\
    percent_to_graph f2 10 = Ok bar2 /\
    Z.of_nat (String.length bar1) = 10 /\
    Z.of_nat (String.length bar2) = 10 /\
    (count_char "#" bar1 <= count_char "#" bar2)%nat.
Proof.
  apply (larger_amount_longer_bar 2000100 4000000 16000000 10); lia.
Defined.

(** X15: the percentage printed for an amount between 0 and the total is
    a whole number from 0 to 100, written with no sign and no decimal
    point. *)
Theorem percentage_whole_number :
  forall (amount total : Z),
    0 <= amount <= total -> 0 < total ->
    exists f n,
      int_truediv amount total = Ok f /\
      percent_str f = Ok (str_of_int n) /\ 0 <= n <= 100 /\
      all_chars is_digit (str_of_int n) = true.
Proof.
  intros amount total Ha Pt.
  destruct (truediv_unit amount amount total ltac:(lia) ltac:(lia) Pt)
    as [q1 [q2 [H1 [H2 [B0 [B1 B2]]]]]].
  assert (q1 = q2) by congruence. subst q2.
  destruct (percent_str_unit q1 B0 B2) as [n [Hn Bn]].
  exists (FFin q1), n. repeat split; try assumption; try lia.
  apply str_of_int_digits. lia.
Qed.

Lemma percentage_whole_number_witness :
  exists f n,
    int_truediv 12000000 16000000 = Ok f /\
    percent_str f = Ok (str_of_int n) /\ 0 <= n <= 100 /\
    all_chars is_digit (str_of_int n) = true.
Proof.
  apply (percentage_whole_number 12000000 16000000); lia.
Defined.

(** ** The runs of the program *)

(** X16: the system-wide report on a sound system.  When the total is
    above 0 and in the range of [float()], the available memory is between
    0 and the total, and the length is between 0 and [2^53], the run ends
    normally and prints exactly one line: the label [Memory], a bar of
    exactly [length] fill characters and blanks, a percentage from 0 to
    100, and the two amounts. *)
Theorem system_report_well_formed :
  forall (e : env) (a : args) (total avail : Z),
    no_program a = true ->
    get_sys_mem e = Ok (Some total) -> get_avail_mem e = Ok avail ->
    0 < total < 2 ^ 1024 - 2 ^ 970 -> 0 <= avail <= total ->
    0 <= args_length a <= 2 ^ 53 ->
    exists bar n used_s total_s,
      run e a =
      (["Memory         [" ++ bar ++ "| " ++ str_of_int n ++ "%] "
        ++ used_s ++ "/" ++ total_s], Ok tt) /\
      Z.of_nat (String.length bar) = args_length a /\
      all_chars bar_char bar = true /\
      0 <= n <= 100 /\
      amount_str a (total - avail) = Ok used_s /\
      amount_str a total = Ok total_s.
Proof.
  intros e a total avail Hno Ht Hav Bt Ba BL.
  rewrite (run_system e a total avail Hno Ht Hav).
  destruct (truediv_unit (total - avail) (total - avail) total
              ltac:(lia) ltac:(lia) ltac:(lia)) as [q [q' [H1 [H2 [B0 [_ B1]]]]]].
  assert (q' = q) by congruence. subst q'.
  destruct (percent_to_graph_unit q (args_length a) B0 B1 BL) as [k [Hbar Bk]].
  destruct (percent_str_unit q B0 B1) as [n [Hn Bn]].
  destruct (amount_str_defined a (total - avail) ltac:(lia)) as [used_s Hu].
  destruct (amount_str_defined a total ltac:(lia)) as [total_s Hts].
  exists (bar_of k (args_length a)), n, used_s, total_s.
  split; [|split; [|split; [|split; [|split]]]]; try assumption.
  - unfold report_line. rewrite H1. cbn [bind]. unfold render_line.
    rewrite Hbar, Hu, Hts, Hn. reflexivity.
  - rewrite bar_length. lia.
  - apply bar_chars.
Qed.

Lemma system_report_well_formed_witness :
  exists bar n used_s total_s,
    run (system_with meminfo_16m) (example_args 20 true None) =
    (["Memory         [" ++ bar ++ "| " ++ str_of_int n ++ "%] "
      ++ used_s ++ "/" ++ total_s], Ok tt) /\
    Z.of_nat (String.length bar) = args_length (example_args 20 true None) /\
    all_chars bar_char bar = true /\
    0 <= n <= 100 /\
    amount_str (example_args 20 true None) (16000000 - 4000000) = Ok used_s /\
    amount_str (example_args 20 true None) 16000000 = Ok total_s.
Proof.
  apply (system_report_well_formed (system_with meminfo_16m)
           (example_args 20 true None) 16000000 4000000).
  - reflexivity.
  - vm_compute. reflexivity.
  - vm_compute. reflexivity.
  - split; [lia|]. apply Z.ltb_lt. vm_compute. reflexivity.
  - lia.
  - cbn. lia.
Defined.

(** X17: a process that cannot be read.  In per-program mode, when the
    [smaps] file of one of the processes cannot be opened (a process that
    ended after [pidof] listed it), the lines of the processes before it
    stay printed, nothing more is printed, no aggregate line either, and
    the run ends with the [OSError] of [open]: exit status 1. *)
Theorem process_gone :
  forall (e : env) (a : args) (name : string) (total : Z)
         (pre : list string) (pid : string) (post : list string)
         (rss_list : list Z) (lines : list string),
    args_program a = Some name -> name <> "" ->
    get_sys_mem e = Ok (Some total) ->
    pids_of_prog e name = (pre ++ pid :: post)%list ->
    pid_lines e a total pre rss_list lines ->
    files e (smaps_path pid) = None ->
    run e a = (lines, Raise OSError) /\ exit_status (snd (run e a)) = 1.
Proof.
  intros e a name total pre pid post rss_list lines Ha Hn Ht Hp Hl Hf.
  assert (R : rss_mem_of_pid e pid = Raise OSError).
  { unfold rss_mem_of_pid, open_lines. fold (smaps_path pid). rewrite Hf. reflexivity. }
  assert (Hrun : run e a = (lines, Raise OSError)).
  { apply (run_program_fails e a name total (pre ++ pid :: post)%list); try assumption.
    - destruct pre; discriminate.
    - destruct (report_pids_app e a total pre rss_list lines Hl (pid :: post) [] "" [])
        as [ts Hts].
      rewrite Hts. apply report_pids_fails. exact R. }
  rewrite Hrun. split; reflexivity.
Qed.

Lemma process_gone_witness :
  run (system_of (Some meminfo_16m) ("12 999" ++ nl)) (example_args 10 false (Some "foo"))
  = (["12              [#         | 13%] 2000100/16000000"], Raise OSError).
Proof.
  apply (process_gone (system_of (Some meminfo_16m) ("12 999" ++ nl))
           (example_args 10 false (Some "foo")) "foo" 16000000
           ["12"] "999" [] [2000100]
           ["12              [#         | 13%] 2000100/16000000"]).
  - reflexivity.
  - discriminate.
  - vm_compute. reflexivity.
  - vm_compute. reflexivity.
  - repeat (econstructor; try (vm_compute; reflexivity)).
  - reflexivity.
Defined.

(** X18: a total of 0.  When [/proc/meminfo] gives a total of 0, the
    division raises [ZeroDivisionError]: in system-wide mode at once, in
    per-program mode as soon as the first process has been read; nothing
    is printed. *)
Theorem zero_total_memory :
  forall (e : env) (a : args),
    get_sys_mem e = Ok (Some 0) ->
    (forall avail, no_program a = true -> get_avail_mem e = Ok avail ->
       run e a = ([], Raise ZeroDivisionError)) /\
    (forall name pid rest rss, args_program a = Some name -> name <> "" ->
       pids_of_prog e name = pid :: rest -> rss_mem_of_pid e pid = Ok rss ->
       run e a = ([], Raise ZeroDivisionError)).
Proof.
  intros e a Ht. split.
  - intros avail Hno Hav. rewrite (run_system e a 0 avail Hno Ht Hav). reflexivity.
  - intros name pid rest rss Ha Hn Hp Hr.
    apply (run_program_fails e a name 0 (pid :: rest)); try assumption; [discriminate|].
    rewrite report_pids_cons, Hr. reflexivity.
Qed.

Lemma zero_total_memory_witness :
  run (system_of (Some meminfo_zero_total) ("12" ++ nl)) (example_args 20 false None)
    = ([], Raise ZeroDivisionError) /\
  run (system_of (Some meminfo_zero_total) ("12" ++ nl)) (example_args 20 false (Some "foo"))
    = ([], Raise ZeroDivisionError).
Proof.
  split.
  - destruct (zero_total_memory (system_of (Some meminfo_zero_total) ("12" ++ nl))
                (example_args 20 false None)) as [H _]; [vm_compute; reflexivity|].
    apply (H 0); [reflexivity | vm_compute; reflexivity].
  - destruct (zero_total_memory (system_of (Some meminfo_zero_total) ("12" ++ nl))
                (example_args 20 false (Some "foo"))) as [_ H]; [vm_compute; reflexivity|].
    apply (H "foo" "12" [] 2000100);
      [reflexivity | discriminate | vm_compute; reflexivity | vm_compute; reflexivity].
Defined.

(** X19: the amounts printed without the unit formatter are decimal
    numerals with no whitespace, which [int()] reads back as the same
    number. *)
Theorem plain_amount_round_trip :
  forall (a : args) (n : Z),
    args_human_readable a = false ->
    exists s, amount_str a n = Ok s /\ is_token s /\ int_of_str s = Ok n.
Proof.
  intros a n H. exists (str_of_int n). unfold amount_str. rewrite H.
  split; [reflexivity|]. split; [apply str_of_int_token | apply int_of_str_of_int].
Qed.

Lemma plain_amount_round_trip_witness :
  exists s, amount_str (example_args 20 false None) (-12000000) = Ok s /\
            is_token s /\ int_of_str s = Ok (-12000000).
Proof.
  apply (plain_amount_round_trip (example_args 20 false None) (-12000000)).
  reflexivity.
Defined.

(** ** The unit formatter *)






(** X22: a negative number of decimal places.  The format specification
    is refused with [ValueError], after the loop: an amount from 1024 on
    that [float()] cannot convert has already raised [OverflowError] at the
    first division. *)
Theorem bytes_to_human_r_negative_places_raises :
  forall (kibibytes decimal_places : Z),
    decimal_places < 0 ->
    (kibibytes < 2 ^ 1024 - 2 ^ 970 ->
     bytes_to_human_r kibibytes decimal_places = Raise ValueError) /\
    (2 ^ 1024 - 2 ^ 970 <= kibibytes ->
     bytes_to_human_r kibibytes decimal_places = Raise OverflowError).
Proof.
  intros k dp Hdp. rewrite (bytes_to_human_r_negative_places k dp Hdp).
  assert (T : 1024 < 2 ^ 1024 - 2 ^ 970) by (apply Z.ltb_lt; vm_compute; reflexivity).
  split; intros H.
  - destruct (Z.leb_spec (2 ^ 1024 - 2 ^ 970) k); [lia|].
    rewrite andb_false_r. reflexivity.
  - destruct (Z.leb_spec (2 ^ 1024 - 2 ^ 970) k); [|lia].
    destruct (Z.leb_spec 1024 k); [reflexivity | lia].
Qed.

Lemma bytes_to_human_r_negative_places_raises_witness :
  bytes_to_human_r 5 (-1) = Raise ValueError.
Proof.
  destruct (bytes_to_human_r_negative_places_raises 5 (-1)) as [H _]; [lia|].
  apply H. apply Z.ltb_lt. vm_compute. reflexivity.
Defined.

(** ** What each mode reads *)

(** X26: what each mode reads.  The system-wide report depends on the
    system through [/proc/meminfo] alone: no command is run and no [smaps]
    file is opened.  The per-program report depends on it through the total
    memory, the output of [pidof] and the resident memory of the processes:
    the available memory plays no part in it. *)
Theorem modes_read :
  forall (e e' : env) (a : args),
    (no_program a = true ->
     files e "/proc/meminfo" = files e' "/proc/meminfo" ->
     run e a = run e' a) /\
    (no_program a = false ->
     get_sys_mem e = get_sys_mem e' ->
     (forall command, popen e command = popen e' command) ->
     (forall pid, rss_mem_of_pid e pid = rss_mem_of_pid e' pid) ->
     run e a = run e' a).
Proof.
  intros e e' a. split.
  - intros Hno Hf. unfold run, main. rewrite Hno.
    unfold get_sys_mem, get_avail_mem, open_lines. rewrite Hf. reflexivity.
  - intros Hno Ht Hp Hr. unfold run, main. rewrite Hno, Ht.
    unfold pids_of_prog. rewrite Hp.
    unfold io_bind, lift.
    destruct (get_sys_mem e') as [total_mem| |]; try reflexivity.
    destruct (if is_empty _ then [] else split _) as [|pid rest]; [reflexivity|].
    rewrite (report_pids_ext e e' a total_mem (pid :: rest) Hr). reflexivity.
Qed.

Lemma modes_read_witness :
  run (system_with meminfo_no_available) (example_args 10 false (Some "foo"))
  = run (system_with meminfo_16m) (example_args 10 false (Some "foo")).
Proof.
  destruct (modes_read (system_with meminfo_no_available) (system_with meminfo_16m)
              (example_args 10 false (Some "foo"))) as [_ H].
  apply H; try reflexivity.
  intros pid. unfold rss_mem_of_pid, open_lines. fold (smaps_path pid).
  unfold system_with. cbn [files]. rewrite (smaps_not_meminfo pid). reflexivity.
Defined.

(** ** The arithmetic of doubles, on sample values *)

(** X23, at 0.75 and 20.0: the product of [percent_to_graph]. *)
Lemma fmul_SFmul_witness :
  fmul (of_spec_float (S754_finite false 6755399441055744 (-53)))
       (of_spec_float (S754_finite false 5629499534213120 (-48)))
  = of_spec_float
      (SFmul 53 1024 (S754_finite false 6755399441055744 (-53))
                     (S754_finite false 5629499534213120 (-48))).
Proof.
  apply fmul_SFmul; vm_compute; reflexivity.
Defined.

(** X25, at 12,000,000 over 16,000,000: the fraction of the system-wide
    report. *)
Lemma int_truediv_SFdiv_witness :
  int_truediv 12000000 16000000 =
  match of_spec_float (SFdiv 53 1024 (binary_normalize 53 1024 12000000 0 false)
                                      (binary_normalize 53 1024 16000000 0 false)) with
  | FInf _ => Raise OverflowError
  | f => Ok f
  end.
Proof.
  apply int_truediv_SFdiv; cbn; lia.
Defined.

